(** * PVR: sampled curves, the fixed-sample resampler, deep images and
      frustum clipping

    A shallow embedding of

    - [pvr::Util::Curve<T>]                 (libpvr/export/Curve.h),
    - [pvr::Render::DeepImage] and
      [pvr::Render::makeFixedSample]         (libpvr/src/DeepImage.cpp),
    - [pvr::Render::FrustumMappingIntersection]
                                             (libpvr/export/Volumes/VoxelVolume.h),
    - [pvr::Render::Image] and its
      [pixel_iterator]                       (libpvr/src/Image.cpp)

    together with the properties the design document states about them and
    further properties that the code shows.

    Conventions.  C++ namespaces are Rocq modules.  The C++ [float] type is a
    type [F] with the operations of the class [Float]; every definition is
    generic in it, and two instances are given at the end of the
    definitions: IEEE-754 binary32 ([spec_float] with precision 24), the
    [float] of the code, and exact rational arithmetic ([Qc]).  A theorem is
    stated for every [F] where the property does not depend on rounding, and
    on binary32 where it does.  A [std::vector] is a [list]; an
    iterator into it is the index it points at, [end()] being the length.
    An access outside a vector has no defined behaviour in C++: functions
    that can perform one return [option], [None] standing for that access. *)

From stdpp Require Import base numbers list sorting strings gmap.
From Stdlib Require Import QArith Qcanon Qround Floats.SpecFloat.
From Equations Require Import Equations.

Close Scope Qc_scope.
Close Scope Q_scope.

(** ** The [float] type *)

Class Float (F : Type) := {
  f0 : F;                       (* 0.0f *)
  f1 : F;                       (* 1.0f *)
  fadd : F → F → F;
  fsub : F → F → F;
  fmul : F → F → F;
  fdiv : F → F → F;
  fabs : F → F;
  fgt : F → F → bool;           (* a > b *)
  fge : F → F → bool;           (* a >= b *)
  flt : F → F → bool;           (* a < b *)
  flt_max : F;                  (* limits<float>::max() *)
  of_int : Z → F;               (* static_cast<float> of an integer *)
  ffloor : F → option Z;        (* std::floor, as the integer it denotes;
                                   [None] at an infinity or a NaN *)
  fceil : F → option Z;         (* std::ceil, likewise *)
}.

(** [static_cast<float>] of a [size_t]. *)
Definition of_size_t {F} `{Float F} (n : nat) : F := of_int (Z.of_nat n).

(** What the comparison [>] satisfies on every IEEE float, NaN included. *)
Class GtStrict (F : Type) `{Float F} : Prop := {
  fgt_asym : ∀ a b : F, fgt a b = true → fgt b a = false;
  fgt_trans : ∀ a b c : F, fgt a b = true → fgt b c = true → fgt a c = true;
}.

(** What it satisfies in addition when no NaN is around: [b <= t < a] gives
    [b < a]. *)
Class GtTotal (F : Type) `{Float F} : Prop := {
  fgt_le_gt : ∀ a b t : F, fgt a t = true → fgt b t = false → fgt a b = true;
}.

(** What the comparisons satisfy on every IEEE float among numbers.  A value
    is a number, and no NaN, when it compares with itself: [a >= a].  What
    [>] compares are numbers; [b <= t < a] gives [b < a] and [a < t <= b]
    gives [a < b] when [b] is a number; [a < b] is [b > a]. *)
Definition number {F} `{Float F} (a : F) : Prop := fge a a = true.

Class GtNumbers (F : Type) `{Float F} : Prop := {
  flt_fgt : ∀ a b : F, flt a b = fgt b a;
  fgt_number : ∀ a b : F, fgt a b = true → number a ∧ number b;
  fgt_le_number : ∀ a b t : F,
    number b → fgt a t = true → fgt b t = false → fgt a b = true;
  fgt_ge_number : ∀ a b t : F,
    number b → fgt t a = true → fgt t b = false → fgt b a = true;
  number_flt_max : number (flt_max : F);
  fgt_1_0 : fgt (f1 : F) f0 = true;
}.

(** ** OpenEXR's Imath, as far as the code calls it *)

Module Imath.
Section Imath.
Context {F : Type} `{Float F}.

(** [Imath::lerp(a, b, t)] is [a * (1 - t) + b * t]. *)
Definition lerp (a b t : F) : F := fadd (fmul a (fsub f1 t)) (fmul b t).

(** The guard under which [Imath::lerpfactor] divides. *)
Definition lerpfactor_divides (m a b : F) : bool :=
  let d := fsub b a in
  let n := fsub m a in
  fgt (fabs d) f1 || flt (fabs n) (fmul flt_max (fabs d)).

(** [Imath::lerpfactor(m, a, b)]: how far [m] is between [a] and [b];
    [0] when the division would overflow (in particular when [a == b]). *)
Definition lerpfactor (m a b : F) : F :=
  let d := fsub b a in
  let n := fsub m a in
  if lerpfactor_divides m a b then fdiv n d else f0.

(** [Imath::clamp(a, l, h)] on integers. *)
Definition clamp (a l h : Z) : Z :=
  if (a <? l)%Z then l else if (a >? h)%Z then h else a.

(** [Imath::Vec3<float>]. *)
Record V3f := mkV3f { x : F; y : F; z : F }.

Definition V3f_add (a b : V3f) : V3f :=
  mkV3f (fadd (x a) (x b)) (fadd (y a) (y b)) (fadd (z a) (z b)).
Definition V3f_scale (a : V3f) (s : F) : V3f :=
  mkV3f (fmul (x a) s) (fmul (y a) s) (fmul (z a) s).
Definition V3f_dot (a b : V3f) : F :=
  fadd (fadd (fmul (x a) (x b)) (fmul (y a) (y b))) (fmul (z a) (z b)).

(** [Imath::lerp] at [Vec3]: the same expression with the vector's
    operators. *)
Definition lerp3 (a b : V3f) (t : F) : V3f :=
  V3f_add (V3f_scale a (fsub f1 t)) (V3f_scale b t).

(** [Imath::Quat<float>]: a scalar part and a vector part. *)
Record Quat := mkQuat { r : F; v : V3f }.

(** [Quat()], the identity orientation. *)
Definition Quat_identity : Quat := mkQuat f1 (mkV3f f0 f0 f0).
End Imath.
Arguments V3f : clear implicits.
Arguments Quat : clear implicits.
End Imath.

(** [Imath::slerp] is trigonometric; it stays an operation of the library. *)
Class Slerp (F : Type) :=
  slerp : Imath.Quat F → Imath.Quat F → F → Imath.Quat F.

(** ** pvr/Types.h *)

(** Modelled from the spec: pvr/Types.h is not among the sources.  A
    [Vector] is a three-component Imath vector. *)
Definition Vector (F : Type) := Imath.V3f F.

(** Modelled from the spec: pvr/Types.h is not among the sources.  A [Color]
    has the three channels [x], [y], [z] that the code reads. *)
Definition Color (F : Type) := Imath.V3f F.

(** Modelled from the spec: [Color(0.0)] is "the zero color". *)
Definition Color_zero {F} `{Float F} : Color F := Imath.mkV3f f0 f0 f0.

(** ** Curve.h *)

Module Util.
(** [typedef std::pair<float, T> Sample]. *)
Abbreviation Sample F T := (F * T)%type (only parsing).

Section Curve.
Context {F : Type} `{Float F}.

(** [class Curve<T>]: its one data member. *)
Record Curve (T : Type) := mkCurve { m_samples : list (Sample F T) }.
Global Arguments mkCurve {T} _.
Global Arguments m_samples {T} _.

(** The two members that are specialized per value type. *)
Class CurveValue (T : Type) := {
  defaultReturnValue : T;
  lerp : Sample F T → Sample F T → F → T;
}.

(** The primary template: [T(0)] and [Imath::lerp]. *)
Global Instance float_value : CurveValue F := {|
  defaultReturnValue := f0;
  lerp lower upper t := Imath.lerp lower.2 upper.2 t;
|}.
Global Instance V3f_value : CurveValue (Imath.V3f F) := {|
  defaultReturnValue := Imath.mkV3f f0 f0 f0;
  lerp lower upper t := Imath.lerp3 lower.2 upper.2 t;
|}.
(** The specializations for [Quat]: [Quat()] and [Imath::slerp]. *)
Global Instance Quat_value `{!Slerp F} : CurveValue (Imath.Quat F) := {|
  defaultReturnValue := Imath.Quat_identity;
  lerp lower upper t := slerp lower.2 upper.2 t;
|}.

(** [std::find_if]: the position of the first element satisfying [p],
    the length of the vector ([end()]) when there is none. *)
Fixpoint find_if {A} (p : A → bool) (l : list A) : nat :=
  match l with
  | [] => 0
  | a :: l' => if p a then 0 else S (find_if p l')
  end.

(** [struct CheckTGreaterThan]. *)
Definition CheckTGreaterThan {T} (m_match : F) (test : Sample F T) : bool :=
  fgt test.1 m_match.

(** [std::vector::insert(i, a)]. *)
Definition vector_insert {A} (i : nat) (a : A) (l : list A) : list A :=
  take i l ++ a :: drop i l.

Definition addSample {T} (t : F) (value : T) (c : Curve T) : Curve T :=
  let i := find_if (CheckTGreaterThan t) (m_samples c) in
  if decide (i ≠ length (m_samples c))
  then mkCurve (vector_insert i (t, value) (m_samples c))
  else mkCurve (m_samples c ++ [(t, value)]).

(** [Curve()] and [Curve(const T &initialValue)]. *)
Definition Curve_empty {T} : Curve T := mkCurve [].
Definition Curve_init {T} (initialValue : T) : Curve T :=
  addSample f0 initialValue Curve_empty.

(** Modelled from the spec: the constructor [Curve(size_t, const T&)] that
    DeepImage.cpp calls is not among the sources.  It gives "N samples, all
    equal to that single value", "at positions i/(N-1)". *)
Definition Curve_fill {T} (numSamples : nat) (value : T) : Curve T :=
  mkCurve ((λ i : nat, (fdiv (of_size_t i) (of_size_t (numSamples - 1)), value))
             <$> seq 0 numSamples).

Definition numSamples {T} (c : Curve T) : nat := length (m_samples c).

Definition interpolate {T} `{!CurveValue T} (c : Curve T) (t : F) : T :=
  match m_samples c with
  | [] => defaultReturnValue
  | front :: _ =>
    let i := find_if (CheckTGreaterThan t) (m_samples c) in
    if decide (i = length (m_samples c))
    then (default front (last (m_samples c))).2
    else if decide (i = 0)
    then front.2
    else
      let upper := nth i (m_samples c) front in
      let lower := nth (i - 1) (m_samples c) front in
      let interpT := Imath.lerpfactor t lower.1 upper.1 in
      lerp lower upper interpT
  end.

(** A sequence of [addSample] calls on a curve, first call first. *)
Definition addSamples {T} (calls : list (F * T)) (c : Curve T) : Curve T :=
  foldl (λ c call, addSample call.1 call.2 c) c calls.

(** No sample lies strictly above a later one. *)
Definition nondecreasing {T} (l : list (Sample F T)) : Prop :=
  StronglySorted (λ a b, fgt a.1 b.1 = false) l.

End Curve.
Arguments Curve F T : clear implicits.
Arguments CurveValue F T : clear implicits.
End Util.

(** ** pvr/Math.h *)

Module Math.
Section Math.
Context {F : Type} `{Float F}.

(** Modelled from the spec: pvr/Math.h is not among the sources.
    [fit01(fraction, lowValue, highValue)] is "plain per-channel linear
    interpolation" between its last two arguments. *)
Definition fit01 (t : F) (lo hi : Color F) : Color F := Imath.lerp3 lo hi t.

(** Modelled from the spec: [fit01] on positions, "the same fraction applied
    to the bracketing original positions". *)
Definition fit01f (t : F) (lo hi : F) : F := Imath.lerp lo hi t.

(** Modelled from the spec: pvr/Math.h is not among the sources.  [avg] is
    the "mean channel value" of a color. *)
Definition avg (c : Color F) : F :=
  fdiv (fadd (fadd (Imath.x c) (Imath.y c)) (Imath.z c)) (of_int 3).

(** Modelled from the spec: [Util::lerp2D] is not among the sources.  It
    "bilinearly blends" four colors: along x with [s] in both rows, then
    along y with [t]. *)
Definition lerp2D (s t : F) (x0y0 x1y0 x0y1 x1y1 : Color F) : Color F :=
  Imath.lerp3 (Imath.lerp3 x0y0 x1y0 s) (Imath.lerp3 x0y1 x1y1 s) t.
End Math.
End Math.

(** ** OpenImageIO, as far as Image.cpp calls it *)

(** [linear_to_sRGB] of OpenImageIO/color.h raises to a power; it stays an
    operation of the library. *)
Class LinearTosRGB (F : Type) := linear_to_sRGB : F → F.

Module OpenImageIO.
Section ImageBuf.
Context {F : Type} `{Float F}.

(** [ImageSpec]: the resolution, the number of channels and the named
    attributes of an image whose data window starts at the origin. *)
Record ImageSpec := mkImageSpec {
  width : Z;
  height : Z;
  nchannels : Z;
  extra_attribs : gmap string string;
}.

(** [ImageSpec(xres, yres, nchans, TypeDesc::FLOAT)]. *)
Definition ImageSpec_new (xres yres nchans : Z) : ImageSpec :=
  mkImageSpec xres yres nchans ∅.

(** [spec.attribute(name, value)] sets the attribute, adding it when it is
    not there. *)
Definition attribute (name value : string) (spec : ImageSpec) : ImageSpec :=
  mkImageSpec (width spec) (height spec) (nchannels spec)
              (<[name := value]> (extra_attribs spec)).

(** [ImageBuf]: a spec and the float values of the pixels,
    [localpixels x y c] being channel [c] of the pixel (x, y).  Only the
    pixels of the data window are ever read or written, and only their
    channels below [nchannels]. *)
Record ImageBuf := mkImageBuf {
  spec : ImageSpec;
  localpixels : Z → Z → Z → F;
}.

(** [buf.reset(spec)] and [ImageBuf buf(name, spec)]: a buffer of the given
    spec on newly allocated storage.  [memory] is what that storage holds,
    which the library leaves open. *)
Definition reset (spec : ImageSpec) (memory : Z → Z → Z → F) : ImageBuf :=
  mkImageBuf spec memory.

Definition xmin (buf : ImageBuf) : Z := 0.
Definition xmax (buf : ImageBuf) : Z := width (spec buf) - 1.
Definition ymax (buf : ImageBuf) : Z := height (spec buf) - 1.

(** A C array of floats that is handed to the library.  A cell holds a value
    once one has been stored in it. *)
Definition uninitialized (n : nat) : list (option F) := replicate n None.

(** Whether (x, y) is a pixel of the data window. *)
Definition valid (buf : ImageBuf) (x y : Z) : bool :=
  bool_decide ((0 ≤ x < width (spec buf))%Z ∧ (0 ≤ y < height (spec buf))%Z).

(** What channel [c] of (x, y) reads as: zero when (x, y) is no pixel of
    the data window. *)
Definition channel (buf : ImageBuf) (x y c : Z) : F :=
  if valid buf x y then localpixels buf x y c else f0.

(** [buf.getpixel(x, y, pixel, maxchannels)] stores the first
    [min(nchannels, maxchannels)] channels of the pixel (x, y) in the first
    cells of the array [pixel], and zeros when (x, y) is no pixel of the
    data window.  The callers pass arrays of [maxchannels] cells or more. *)
Definition getpixel (buf : ImageBuf) (x y : Z) (pixel : list (option F))
    (maxchannels : Z) : list (option F) :=
  let n := Z.to_nat (Z.min (nchannels (spec buf)) maxchannels) in
  ((λ c : nat, Some (channel buf x y (Z.of_nat c))) <$> seq 0 n)
  ++ drop n pixel.

(** [buf.setpixel(x, y, pixel, maxchannels)] copies the first
    [min(nchannels, maxchannels)] cells of the array [pixel] to the channels
    of the pixel (x, y), and does nothing when (x, y) is no pixel of the data
    window.  [None]: it would read a cell that holds no value. *)
Definition setpixel (buf : ImageBuf) (x y : Z) (pixel : list (option F))
    (maxchannels : Z) : option ImageBuf :=
  let n := Z.to_nat (Z.min (nchannels (spec buf)) maxchannels) in
  if valid buf x y then
    data ← mapM (λ c : nat, mjoin (pixel !! c)) (seq 0 n);
    Some (mkImageBuf (spec buf)
            (λ x' y' c',
               if decide (x' = x ∧ y' = y ∧ (0 ≤ c' < Z.of_nat n)%Z)
               then default f0 (data !! Z.to_nat c')
               else localpixels buf x' y' c'))
  else Some buf.
End ImageBuf.
Arguments ImageBuf F : clear implicits.
End OpenImageIO.

(** ** DeepImage.cpp: the resampler *)

Module Render.
Import Util.
Section makeFixedSample.
Context {F : Type} `{Float F}.

Abbreviation ColorCurve := (Curve F (Color F)).
Abbreviation ColorSample := (Sample F (Color F)).

(** The message given to [Log::warning]. *)
Definition warning : string :=
  "Non-monotonic curve in DeepImage::makeFixedSample()".

(** The test inside the monotonicity loop: some channel of [value] lies
    above [sign] times that channel of [lastVal]. *)
Definition exceeds (sign : Z) (value lastVal : Color F) : bool :=
  fgt (Imath.x value) (fmul (of_int sign) (Imath.x lastVal))
  || fgt (Imath.y value) (fmul (of_int sign) (Imath.y lastVal))
  || fgt (Imath.z value) (fmul (of_int sign) (Imath.z lastVal)).

(** The loop [for (i = 1; i < samples.size(); ++i)] over the samples from
    index 1 on.  [None] is the early return on a violation; otherwise the
    loop ends with the value of the variable [last].  The loop assigns
    [last], never [lastVal]. *)
Fixpoint monotonic_loop (sign : Z) (lastVal last : Color F)
    (rest : list ColorSample) : option (Color F) :=
  match rest with
  | [] => Some last
  | s :: rest' =>
    let value := s.2 in
    if exceeds sign value lastVal then None
    else monotonic_loop sign lastVal value rest'
  end.

(** [samples[p - 1]] for a [size_t p]: at [p = 0] the index wraps around to
    the largest [size_t], outside every vector. *)
Definition at_pred {A} (samples : list A) (p : nat) : option A :=
  match p with
  | O => None
  | S p' => samples !! p'
  end.

(** The loop [while (avg(samples[p].second) > avg(value) * sign)], run on
    the samples from index [p] on; [threshold] is [avg(value) * sign].  It
    returns the final [lastVal] and [p], and [None] when it reads
    [samples[p]] at [p = samples.size()]. *)
Fixpoint while_from (threshold : F) (lastVal : Color F) (p : nat)
    (from_p : list ColorSample) : option (Color F * nat) :=
  match from_p with
  | [] => None
  | s :: from_p' =>
    if fgt (Math.avg s.2) threshold
    then while_from threshold s.2 (S p) from_p'
    else Some (lastVal, p)
  end.

Definition while_loop (samples : list ColorSample) (threshold : F)
    (lastVal : Color F) (p : nat) : option (Color F * nat) :=
  while_from threshold lastVal p (drop p samples).

(** The variables that live across the iterations of the [for] loop. *)
Record LoopState := mkLoopState {
  st_lastVal : Color F;
  st_p : nat;
  st_result : ColorCurve;
}.

(** One iteration of [for (size_t i = 1; i < numSamples; ++i)]. *)
Definition for_body (samples : list ColorSample) (numSamples : nat)
    (first last : Color F) (sign : Z) (st : LoopState) (i : nat)
    : option LoopState :=
  let t := fdiv (of_size_t i) (of_size_t (numSamples - 1)) in
  let value := Math.fit01 t first last in
  '(lastVal, p) ← while_loop samples (fmul (Math.avg value) (of_int sign))
                             (st_lastVal st) (st_p st);
  sp ← samples !! p;
  let factor :=
    Imath.lerpfactor (Math.avg value) (Math.avg lastVal) (Math.avg sp.2) in
  let interp := Math.fit01 factor lastVal sp.2 in
  sp1 ← at_pred samples p;
  let position := Math.fit01f factor sp1.1 sp.1 in
  Some (mkLoopState lastVal p (addSample position interp (st_result st))).

Fixpoint for_loop (samples : list ColorSample) (numSamples : nat)
    (first last : Color F) (sign : Z) (st : LoopState) (iters : list nat)
    : option LoopState :=
  match iters with
  | [] => Some st
  | i :: iters' =>
    st' ← for_body samples numSamples first last sign st i;
    for_loop samples numSamples first last sign st' iters'
  end.

(** The branch [if (monotonic)]. *)
Definition monotonic_branch (samples : list ColorSample) (front : ColorSample)
    (numSamples : nat) (first last : Color F) (sign : Z)
    : option ColorCurve :=
  let result := addSample front.1 front.2 Curve_empty in
  let lastVal := front.2 in
  let p := 0%nat in
  st ← for_loop samples numSamples first last sign
                (mkLoopState lastVal p result) (seq 1 (numSamples - 1));
  Some (st_result st).

(** [int sign = first.x >= last.x ? 1 : -1]. *)
Definition direction_sign (first last : Color F) : Z :=
  if fge (Imath.x first) (Imath.x last) then 1%Z else (-1)%Z.

(** The recursive call is on a one-sample curve. *)
Definition recursion_measure (curve : ColorCurve) : nat :=
  if decide (2 ≤ numSamples curve) then 1 else 0.

(** [makeFixedSample]: the messages it logs and the curve it returns,
    [None] when it reads outside [samples]. *)
Equations makeFixedSample (curve : ColorCurve) (numSamples : nat)
    : list string * option ColorCurve by wf (recursion_measure curve) lt :=
makeFixedSample (mkCurve []) numSamples :=
  ([], Some (Curve_fill numSamples Color_zero));
makeFixedSample (mkCurve [s]) numSamples :=
  ([], Some (Curve_fill numSamples s.2));
makeFixedSample (mkCurve (front :: s1 :: rest)) numSamples :=
  let samples := front :: s1 :: rest in
  let first := front.2 in
  let last := (default front (last samples)).2 in
  let sign := direction_sign first last in
  let monotonic := true in
  let lastVal := front.2 in
  match monotonic_loop sign lastVal last (s1 :: rest) with
  | None =>
    let r := makeFixedSample (Curve_init Color_zero) numSamples in
    (warning :: r.1, r.2)
  | Some last =>
    if monotonic
    then ([], monotonic_branch samples front numSamples first last sign)
    else ([], Some (mkCurve samples))
  end.
End makeFixedSample.

(** *** The resampler as the design document words it *)

Section described.
Context {F : Type} `{Float F}.

Abbreviation ColorCurve := (Curve F (Color F)).
Abbreviation ColorSample := (Sample F (Color F)).

(** The monotonicity check in the document's words: each sample against
    its predecessor [prev]. *)
Fixpoint exceeds_predecessor (sign : Z) (prev : Color F)
    (rest : list ColorSample) : bool :=
  match rest with
  | [] => false
  | s :: rest' =>
    exceeds sign s.2 prev || exceeds_predecessor sign s.2 rest'
  end.

Variables (samples : list ColorSample) (numSamples : nat).
Variables (firstColor lastColor : Color F) (sign : Z).

(** [targetColor = fit01(t, firstColor, lastColor)] with [t = i/(N-1)]. *)
Definition targetColor (i : nat) : Color F :=
  Math.fit01 (fdiv (of_size_t i) (of_size_t (numSamples - 1)))
             firstColor lastColor.

(** The scan pointer advances while
    [mean(source[p].value) > mean(targetColor) * sign]: from [p] it comes to
    rest on the first sample, at [p] or later, for which this fails (on
    [samples.size()] when there is none). *)
Definition advance (i p : nat) : nat :=
  p + find_if
        (λ s : ColorSample,
           negb (fgt (Math.avg s.2)
                     (fmul (Math.avg (targetColor i)) (of_int sign))))
        (drop p samples).

(** The pointer after output iteration [i]: carried over from iteration
    [i - 1], starting at 0. *)
Fixpoint pointer (i : nat) : nat :=
  match i with
  | O => O
  | S i' => advance (S i') (pointer i')
  end.

(** [lastVal] after output iteration [i]: the value of the sample just
    behind the pointer once the pointer has moved, the first sample's value
    before that. *)
Fixpoint lastVal_at (front : ColorSample) (i : nat) : Color F :=
  match i with
  | O => front.2
  | S i' =>
    if decide (pointer (S i') = pointer i') then lastVal_at front i'
    else (default front (at_pred samples (pointer (S i')))).2
  end.

(** The [i]-th output sample. *)
Definition output (front : ColorSample) (i : nat) : option ColorSample :=
  let p := pointer i in
  let lastVal := lastVal_at front i in
  sp ← samples !! p;
  sp1 ← at_pred samples p;
  let factor :=
    Imath.lerpfactor (Math.avg (targetColor i)) (Math.avg lastVal)
                     (Math.avg sp.2) in
  Some (Math.fit01f factor sp1.1 sp.1, Math.fit01 factor lastVal sp.2).

(** The output samples 1 .. N-1, when each of them is defined. *)
Definition outputs (front : ColorSample) : option (list ColorSample) :=
  mapM (output front) (seq 1 (numSamples - 1)).
End described.

(** ** DeepImage.cpp: the image *)

Section DeepImage.
Context {F : Type} `{Float F}.

(** Addresses of [ColorCurve] objects, and the objects that are alive: the
    elements of pixel vectors and the curves made by [new]. *)
Definition loc : Type := positive.
Abbreviation Store := (gmap loc (Curve F (Color F))).

(** [size_t] arithmetic is modulo [2^64]. *)
Definition size_t_modulus : Z := 2 ^ 64.
Definition size_t_add (a b : Z) : Z := (a + b) `mod` size_t_modulus.
Definition size_t_sub (a b : Z) : Z := (a - b) `mod` size_t_modulus.
Definition size_t_mul (a b : Z) : Z := (a * b) `mod` size_t_modulus.

(** The conversion of a floating-point value to [size_t] truncates; its
    behaviour is undefined when the truncated value is not a [size_t].
    [n] is the integer the floating-point value denotes, if any. *)
Definition to_size_t (n : option Z) : option Z :=
  n ≫= λ n, if decide (0 ≤ n < size_t_modulus)%Z then Some n else None.

(** Modelled from the spec: DeepImage.h is not among the sources.  The
    image is a "width x height grid" of color curves with "a target sample
    count"; these are the four data members that DeepImage.cpp uses. *)
Record DeepImage := mkDeepImage {
  m_width : Z;
  m_height : Z;
  m_numSamples : nat;
  m_pixels : list loc;        (* where the elements of the vector live *)
}.

(** [new ColorCurve(c)]: a new object holding a copy of [c]. *)
Definition new_curve (c : Curve F (Color F)) (σ : Store) : loc * Store :=
  let l := fresh (dom σ) in (l, <[l := c]> σ).

(** [m_pixels.resize(n)] on an empty vector: [n] new empty curves. *)
Fixpoint resize (n : nat) (σ : Store) : list loc * Store :=
  match n with
  | O => ([], σ)
  | S n' =>
    let '(l, σ') := new_curve Curve_empty σ in
    let '(ls, σ'') := resize n' σ' in
    (l :: ls, σ'')
  end.

(** Modelled from the spec: [swapClear] is not among the sources; [setSize]
    "discards all existing pixel curves". *)
Definition swapClear (pixels : list loc) (σ : Store) : Store :=
  foldr delete σ pixels.

Definition setSize (width height : Z) (img : DeepImage) (σ : Store)
    : DeepImage * Store :=
  let σ' := swapClear (m_pixels img) σ in
  let '(pixels, σ'') := resize (Z.to_nat (size_t_mul width height)) σ' in
  (mkDeepImage width height (m_numSamples img) pixels, σ'').

(** [DeepImage()]. *)
Definition DeepImage_new (σ : Store) : DeepImage * Store :=
  setSize 2 2 (mkDeepImage 0 0 32 []) σ.

(** Modelled from the spec: [DeepImage::pixel(x, y)] is declared in
    DeepImage.h, which is not among the sources.  It is the pixel slot at
    (x, y): the element [m_pixels[x + y * m_width]] that [pixelFunction]
    reads. *)
Definition pixel (img : DeepImage) (x y : Z) : option loc :=
  m_pixels img !! Z.to_nat (size_t_add x (size_t_mul y (m_width img))).

(** [assert(cond)]: the call does not go on when [cond] fails. *)
Definition assert (cond : bool) : option unit :=
  if cond then Some () else None.

(** [setPixel(x, y, func)]: the warnings logged and the new store. *)
Definition setPixel (img : DeepImage) (x y : Z) (func : loc) (σ : Store)
    : list string * option Store :=
  match
    assert (x <? m_width img)%Z ≫= λ _,
    assert (y <? m_height img)%Z ≫= λ _,
    σ !! func
  with
  | None => ([], None)
  | Some curve =>
    let r := makeFixedSample curve (m_numSamples img) in
    (r.1,
     fixedSampleCurve ← r.2;
     l ← pixel img x y;
     Some (<[l := fixedSampleCurve]> σ))
  end.

(** [setPixel(x, y, value)], for a constant color. *)
Definition setPixel_value (img : DeepImage) (x y : Z) (value : Color F)
    (σ : Store) : list string * option Store :=
  match
    assert (x <? m_width img)%Z ≫= λ _, assert (y <? m_height img)%Z
  with
  | None => ([], None)
  | Some _ =>
    let r := makeFixedSample (Curve_init value) (m_numSamples img) in
    (r.1,
     fixedSampleCurve ← r.2;
     l ← pixel img x y;
     Some (<[l := fixedSampleCurve]> σ))
  end.

(** [pixelFunction(x, y)]: the address of the new curve and the new store. *)
Definition pixelFunction (img : DeepImage) (x y : Z) (σ : Store)
    : option (loc * Store) :=
  assert (x <? m_width img)%Z ≫= λ _,
  assert (y <? m_height img)%Z ≫= λ _,
  l ← m_pixels img !! Z.to_nat (size_t_add x (size_t_mul y (m_width img)));
  c ← σ !! l;
  Some (new_curve c σ).

(** A call [ptr->addSample(t, value)] through a pointer to a curve. *)
Definition addSample_at (ptr : loc) (t : F) (value : Color F) (σ : Store)
    : option Store :=
  c ← σ !! ptr;
  Some (<[ptr := addSample t value c]> σ).

(** A sequence of such calls, first call first. *)
Fixpoint addSamples_at (ptr : loc) (calls : list (F * Color F)) (σ : Store)
    : option Store :=
  match calls with
  | [] => Some σ
  | call :: calls' =>
    σ' ← addSample_at ptr call.1 call.2 σ;
    addSamples_at ptr calls' σ'
  end.

(** The curve behind the pointer that [pixelFunction] returned. *)
Definition returned_curve (r : option (loc * Store))
    : option (Curve F (Color F)) :=
  '(ptr, σ) ← r; σ !! ptr.

(** [DeepImage::lerp(rsX, rsY, z)], the lookup. *)
Definition lerp (img : DeepImage) (rsX rsY z : F) (σ : Store)
    : option (Color F) :=
  let zero := 0%Z in
  xMin ← to_size_t (ffloor rsX);
  xMax ← to_size_t (fceil rsX);
  yMin ← to_size_t (ffloor rsY);
  yMax ← to_size_t (fceil rsY);
  let xMin := Imath.clamp xMin zero (size_t_sub (m_width img) 1) in
  let xMax := Imath.clamp xMax zero (size_t_sub (m_width img) 1) in
  let yMin := Imath.clamp yMin zero (size_t_sub (m_height img) 1) in
  let yMax := Imath.clamp yMax zero (size_t_sub (m_height img) 1) in
  c00 ← pixel img xMin yMin ≫= (σ !!.);
  c10 ← pixel img xMax yMin ≫= (σ !!.);
  c01 ← pixel img xMin yMax ≫= (σ !!.);
  c11 ← pixel img xMax yMax ≫= (σ !!.);
  Some (Math.lerp2D (fsub rsX (of_int xMin)) (fsub rsY (of_int yMin))
                    (interpolate c00 z) (interpolate c10 z)
                    (interpolate c01 z) (interpolate c11 z)).

(** The lookup in the words of the design document: "the four integer
    neighbor pixel coordinates bracketing the continuous (rsX, rsY), each
    clamped into [0, width-1] / [0, height-1]", each neighbor's curve
    evaluated "via interpolate", the four colors blended "using the
    fractional parts of (rsX, rsY) relative to the clamped minimum neighbor
    coordinates".  Here the clamp is on the integers that [floor] and [ceil]
    denote, so that a negative one becomes 0. *)
Definition lerp_described (img : DeepImage) (rsX rsY z : F) (σ : Store)
    : option (Color F) :=
  fx ← ffloor rsX;
  cx ← fceil rsX;
  fy ← ffloor rsY;
  cy ← fceil rsY;
  let xMin := Imath.clamp fx 0 (m_width img - 1) in
  let xMax := Imath.clamp cx 0 (m_width img - 1) in
  let yMin := Imath.clamp fy 0 (m_height img - 1) in
  let yMax := Imath.clamp cy 0 (m_height img - 1) in
  c00 ← pixel img xMin yMin ≫= (σ !!.);
  c10 ← pixel img xMax yMin ≫= (σ !!.);
  c01 ← pixel img xMin yMax ≫= (σ !!.);
  c11 ← pixel img xMax yMax ≫= (σ !!.);
  Some (Math.lerp2D (fsub rsX (of_int xMin)) (fsub rsY (of_int yMin))
                    (interpolate c00 z) (interpolate c10 z)
                    (interpolate c01 z) (interpolate c11 z)).

(** The pixel vector has [m_width * m_height] elements, all alive and at
    different addresses, and the sizes are those of an image that fits in
    memory. *)
Record wf_image (img : DeepImage) (σ : Store) : Prop := {
  wf_width : (0 ≤ m_width img)%Z;
  wf_height : (0 ≤ m_height img)%Z;
  wf_area : (m_width img * m_height img < size_t_modulus)%Z;
  wf_length : length (m_pixels img) = Z.to_nat (m_width img * m_height img);
  wf_alive : ∀ l, l ∈ m_pixels img → is_Some (σ !! l);
  wf_distinct : NoDup (m_pixels img);
}.
End DeepImage.

(** ** Volumes/VoxelVolume.h: clipping a ray against a frustum *)

Section FrustumMappingIntersection.
Context {F : Type} `{Float F}.

(** Modelled from the spec: pvr/Types.h is not among the sources.  A plane
    is a "(normal: vector, signed distance from origin)". *)
Record Plane := mkPlane { normal : Vector F; distance : F }.

(** Modelled from the spec: a ray is an "(origin: point, direction:
    vector)". *)
Record Ray := mkRay { pos : Vector F; dir : Vector F }.

(** Modelled from the spec: an interval is a pair "(tMin: float, tMax:
    float) in ray-parameter space". *)
Record Interval := mkInterval { t0 : F; t1 : F }.

(** [Plane m_planes[6]], in the order the header gives: left, right,
    bottom, top, near, far. *)
Record FrustumMappingIntersection := mkFrustum {
  left : Plane; right : Plane; bottom : Plane;
  top : Plane; near : Plane; far : Plane;
}.
Definition m_planes (f : FrustumMappingIntersection) : list Plane :=
  [left f; right f; bottom f; top f; near f; far f].

(** Modelled from the spec: pvr/Types.h is not among the sources.  The
    second argument of "intersect(ray, time)". *)
Definition PTime : Type := F.

(** Modelled from the spec: the point of a ray at the parameter [t], the
    "direction scale" defining "the parameter units". *)
Definition point_at (wsRay : Ray) (t : F) : Vector F :=
  Imath.V3f_add (pos wsRay) (Imath.V3f_scale (dir wsRay) t).

(** Modelled from the spec: the half-space of a plane is
    "dot(normal, p) <= distance". *)
Definition inside (p : Plane) (q : Vector F) : bool :=
  fge (distance p) (Imath.V3f_dot (normal p) q).

(** Modelled from the spec: "the ray parameter at which the ray crosses that
    plane (t = (distance - dot(normal, origin)) / dot(normal, direction))". *)
Definition crossing (wsRay : Ray) (p : Plane) : F :=
  fdiv (fsub (distance p) (Imath.V3f_dot (normal p) (pos wsRay)))
       (Imath.V3f_dot (normal p) (dir wsRay)).

(** Modelled from the spec: the body of
    [FrustumMappingIntersection::intersect] is in VoxelVolume.cpp, which is
    not among the sources.  "For each plane, compute the ray parameter at
    which the ray crosses that plane [...]; classify the plane as
    bounding-from-below or bounding-from-above for this ray based on the
    sign of dot(normal, direction), and narrow a running [tMin, tMax]
    accordingly (intersection of six half-space-induced intervals - classic
    convex-region ray clipping)."  The half-space of a plane is
    [dot(normal, p) <= distance], so the plane bounds the ray from above
    when [dot(normal, direction)] is positive and from below when it is
    negative.  When it is neither, the ray runs along the plane and crosses
    it nowhere; the document does not say what happens then.  The interval
    that the half-space induces is then every parameter when the origin is
    inside the half-space, and none when it is outside, where classic
    clipping rejects the ray.  Both are what the document's properties of
    the frustum ask for: its example, a ray along +z between planes at
    x = -1 and x = 1, needs the first, and "a ray that cannot satisfy all
    six half-space constraints simultaneously yields zero intervals" needs
    the second.  No parameter is the running interval [1, 0]: no later
    plane can widen it, and which interval with [tMin > tMax] stands for it
    does not show in what [intersect] returns. *)
Definition narrow (wsRay : Ray) (running : F * F) (p : Plane) : F * F :=
  let '(tMin, tMax) := running in
  let denom := Imath.V3f_dot (normal p) (dir wsRay) in
  let t := crossing wsRay p in
  if fgt denom f0
  then (tMin, if flt t tMax then t else tMax)
  else if flt denom f0
  then (if fgt t tMin then t else tMin, tMax)
  else if inside p (pos wsRay)
  then (tMin, tMax)
  else (f1, f0).

(** Modelled from the spec: what the running interval is before the first
    plane.  The document does not say; a ray has the parameters from 0, its
    origin, on, and the largest [float] stands for no bound above. *)
Definition start : F * F := (f0, flt_max).

(** Modelled from the spec: the running interval "after all six planes". *)
Definition clip (f : FrustumMappingIntersection) (wsRay : Ray) : F * F :=
  foldl (narrow wsRay) start (m_planes f).

(** Modelled from the spec: "If tMin > tMax after all six planes, return
    zero intervals; otherwise return the single interval [tMin, tMax]." *)
Definition intersect (f : FrustumMappingIntersection) (wsRay : Ray)
    (time : PTime) : list Interval :=
  let '(tMin, tMax) := clip f wsRay in
  if fgt tMin tMax then [] else [mkInterval tMin tMax].

(** A parameter in a running interval: not below [tMin], not above
    [tMax]. *)
Definition within (running : F * F) (t : F) : Prop :=
  fgt running.1 t = false ∧ fgt t running.2 = false.

(** The ray runs along the plane: [dot(normal, direction)] is neither
    positive nor negative. *)
Definition along (wsRay : Ray) (p : Plane) : bool :=
  negb (fgt (Imath.V3f_dot (normal p) (dir wsRay)) f0)
  && negb (flt (Imath.V3f_dot (normal p) (dir wsRay)) f0).

(** The parameters that the half-space of a plane leaves to the ray, the
    "half-space-induced interval": those not above the crossing when the
    plane bounds the ray from above, those not below it when it bounds the
    ray from below, and all or none when the ray runs along the plane. *)
Definition admits (wsRay : Ray) (t : F) (p : Plane) : Prop :=
  let denom := Imath.V3f_dot (normal p) (dir wsRay) in
  if fgt denom f0 then fgt t (crossing wsRay p) = false
  else if flt denom f0 then fgt (crossing wsRay p) t = false
  else inside p (pos wsRay) = true.
End FrustumMappingIntersection.

(** ** Image.cpp *)

Module Image.
Import OpenImageIO.
Section Image.
Context {F : Type} `{Float F} `{!LinearTosRGB F}.

(** Image.h is not among the sources; [m_buf] is the data member that
    Image.cpp uses, an OpenImageIO [ImageBuf]. *)
Record Image := mkImage { m_buf : ImageBuf F }.

(** The conversion of a [size_t] to [int] keeps the low 32 bits, as two's
    complement. *)
Definition to_int (n : Z) : Z := (n + 2 ^ 31) `mod` 2 ^ 32 - 2 ^ 31.

(** The conversion of an [int] to [size_t]. *)
Definition of_int_to_size_t (n : Z) : Z := n `mod` size_t_modulus.

(** The product of two [int]s; it is undefined when it is no [int]. *)
Definition int_mul (a b : Z) : option Z :=
  if decide (- 2 ^ 31 ≤ a * b < 2 ^ 31)%Z then Some (a * b)%Z else None.

(** [setSize(width, height)] replaces the buffer; [memory] is what the new
    storage holds. *)
Definition setSize (width height : Z) (memory : Z → Z → Z → F) : Image :=
  let spec := ImageSpec_new (to_int width) (to_int height) 4 in
  let spec := attribute "oiio:ColorSpace" "Linear" spec in
  mkImage (reset spec memory).

Definition setPixel (img : Image) (x y : Z) (value : Color F)
    : option Image :=
  _ ← assert (to_int x <=? xmax (m_buf img))%Z;
  _ ← assert (to_int y <=? ymax (m_buf img))%Z;
  buf ← setpixel (m_buf img) (to_int x) (to_int y)
                 [Some (Imath.x value); Some (Imath.y value);
                  Some (Imath.z value)] 3;
  Some (mkImage buf).

Definition setPixelAlpha (img : Image) (x y : Z) (value : F)
    : option Image :=
  let col := uninitialized 4 in
  let col := getpixel (m_buf img) (to_int x) (to_int y) col 3 in
  let col := <[3%nat := Some value]> col in
  buf ← setpixel (m_buf img) (to_int x) (to_int y) col 4;
  Some (mkImage buf).

Definition size (img : Image) : Z * Z :=
  (xmax (m_buf img) + 1, ymax (m_buf img) + 1)%Z.

(** [pixel(x, y)]; [None] when a component of the color it returns was
    never stored. *)
Definition pixel (img : Image) (x y : Z) : option (Color F) :=
  match getpixel (m_buf img) (to_int x) (to_int y) (uninitialized 3) 3 with
  | [Some r; Some g; Some b] => Some (Imath.mkV3f r g b)
  | _ => None
  end.

Definition pixelAlpha (img : Image) (x y : Z) : option F :=
  let value := uninitialized 4 in
  let value := getpixel (m_buf img) (to_int x) (to_int y) value 4 in
  mjoin (value !! 3%nat).

(** [std::string::substr(pos, count)]; [None] is the exception
    [std::out_of_range], thrown when [pos] lies behind the end. *)
Definition substr (s : string) (pos count : Z) : option string :=
  let size := Z.of_nat (String.length s) in
  if (pos >? size)%Z then None
  else Some (String.substring (Z.to_nat pos)
                              (Z.to_nat (Z.min count (size - pos))) s).

(** A loop whose body can be undefined. *)
Fixpoint for_each {A S} (body : S → A → option S) (s : S) (l : list A)
    : option S :=
  match l with
  | [] => Some s
  | a :: l' => s' ← body s a; for_each body s' l'
  end.

(** The body of the inner loop of [write] when the file is no OpenEXR
    file. *)
Definition write_pixel_sRGB (m_buf buf : ImageBuf F) (j i : Z)
    : option (ImageBuf F) :=
  let invertedJ := (ymax buf - j)%Z in
  let pixel := uninitialized 4 in
  let pixel := getpixel m_buf i j pixel 4 in
  pixel ← for_each
            (λ (pixel : list (option F)) (c : nat),
               v ← mjoin (pixel !! c);
               Some (<[c := Some (linear_to_sRGB v)]> pixel))
            pixel (seq 0 3);
  let pixel := <[3%nat := Some f1]> pixel in
  setpixel buf i invertedJ pixel 1000.

(** The body of the inner loop when it is one. *)
Definition write_pixel_exr (m_buf buf : ImageBuf F) (ymax : Z) (j i : Z)
    : option (ImageBuf F) :=
  let invertedJ := (ymax - j)%Z in
  let pixel := uninitialized 4 in
  let pixel := getpixel m_buf i j pixel 4 in
  setpixel buf i invertedJ pixel 1000.

(** What a call of [write] ends in: the exception of [substr], the file
    that is written with the buffer that is written to it, or no defined
    behaviour (an array cell is read that was never stored). *)
Inductive write_result :=
| out_of_range
| written (filename : string) (buf : ImageBuf F)
| undefined.

(** [write(filename, channels)]: the lines given to [Log::print] and how
    the call ends.  [memory] is what the storage of the local buffer
    holds. *)
Definition write (img : Image) (filename : string)
    (memory : Z → Z → Z → F) : list string * write_result :=
  let log := ["Writing image: " +:+ filename] in
  let len := Z.of_nat (String.length filename) in
  match substr filename (size_t_sub len 3) len with
  | None => (log, out_of_range)
  | Some extension =>
    if decide (extension ≠ "exr") then
      let spec := spec (m_buf img) in
      let spec := attribute "oiio:ColorSpace" "sRGB" spec in
      let buf := reset spec memory in
      match
        for_each
          (λ buf j,
             for_each (λ buf i, write_pixel_sRGB (m_buf img) buf j i)
                      buf (seqZ 0 (xmax buf + 1)))
          buf (seqZ 0 (ymax buf + 1))
      with
      | Some buf => (log ++ ["  Done."], written filename buf)
      | None => (log, undefined)
      end
    else
      let buf := reset (spec (m_buf img)) memory in
      match
        let ymax := ymax buf in
        for_each
          (λ buf j,
             for_each (λ buf i, write_pixel_exr (m_buf img) buf ymax j i)
                      buf (seqZ 0 (xmax buf + 1)))
          buf (seqZ 0 (ymax + 1))
      with
      | Some buf => (log ++ ["  Done."], written filename buf)
      | None => (log, undefined)
      end
  end.

(** [Image::pixel_iterator]: its position and the size it took from the
    image when it was made.  Its reference [m_image] is the image that the
    calls below are given. *)
Record pixel_iterator := mk_pixel_iterator {
  x : Z;
  y : Z;
  m_size : Z * Z;
}.

Definition pixel_iterator_new (image : Image) (xPos yPos : Z)
    : pixel_iterator :=
  mk_pixel_iterator xPos yPos (size image).

Definition begin (img : Image) : pixel_iterator :=
  pixel_iterator_new img 0 0.

(** [Image::end()]. *)
Definition end_ (img : Image) : pixel_iterator :=
  pixel_iterator_new img (of_int_to_size_t (xmin (m_buf img)))
                     (of_int_to_size_t (ymax (m_buf img) + 1)).

(** [operator ++]. *)
Definition operator_incr (it : pixel_iterator) : pixel_iterator :=
  let x := size_t_add (x it) 1 in
  if decide (x = of_int_to_size_t (m_size it).1)
  then mk_pixel_iterator 0 (size_t_add (y it) 1) (m_size it)
  else mk_pixel_iterator x (y it) (m_size it).

(** [operator !=]. *)
Definition operator_neq (it rhs : pixel_iterator) : bool :=
  negb (bool_decide (x it = x rhs)) || negb (bool_decide (y it = y rhs)).

Definition pixel_iterator_setPixel (it : pixel_iterator) (m_image : Image)
    (color : Color F) : option Image :=
  setPixel m_image (x it) (y it) color.

Definition pixel_iterator_setPixelAlpha (it : pixel_iterator)
    (m_image : Image) (alpha : F) : option Image :=
  setPixelAlpha m_image (x it) (y it) alpha.

(** [progress()]; [None] when the product of the two sizes is no [int]. *)
Definition progress (it : pixel_iterator) : option F :=
  let index :=
    size_t_add (x it) (size_t_mul (y it) (of_int_to_size_t (m_size it).1)) in
  total ← int_mul (m_size it).1 (m_size it).2;
  Some (fdiv (of_int index) (of_int total)).

(** The iterator after [n] increments. *)
Definition advanced (n : nat) (it : pixel_iterator) : pixel_iterator :=
  Nat.iter n operator_incr it.

(** An image as [setSize] makes it: four channels, and sizes that are
    [int]s. *)
Definition rgba (img : Image) : Prop :=
  nchannels (spec (m_buf img)) = 4%Z
  ∧ (width (spec (m_buf img)) < 2 ^ 31)%Z
  ∧ (height (spec (m_buf img)) < 2 ^ 31)%Z.

(** (x, y) is a pixel of the image. *)
Definition inside_image (img : Image) (x y : Z) : Prop :=
  (0 ≤ x < width (spec (m_buf img)))%Z ∧ (0 ≤ y < height (spec (m_buf img)))%Z.
End Image.
Arguments Image F : clear implicits.
End Image.
End Render.

(** ** Two models of [float] *)

(** Exact arithmetic on the rationals: [float] without rounding, overflow
    and NaN. *)
Module Exact.
Definition gt (a b : Qc) : bool := bool_decide (b < a)%Qc.
Definition ge (a b : Qc) : bool := bool_decide (b ≤ a)%Qc.
Definition lt (a b : Qc) : bool := bool_decide (a < b)%Qc.
Definition abs (a : Qc) : Qc := if bool_decide (a < 0)%Qc then (- a)%Qc else a.
Definition max : Qc := Qc_of_Z ((2 ^ 24 - 1) * 2 ^ 104).
Definition floor (a : Qc) : option Z := Some (Qfloor a).
Definition ceil (a : Qc) : option Z := Some (Qceiling a).

#[export] Instance Qc_float : Float Qc := {|
  f0 := 0%Qc; f1 := 1%Qc;
  fadd := Qcplus; fsub := Qcminus; fmul := Qcmult; fdiv := Qcdiv;
  fabs := abs;
  fgt := gt; fge := ge; flt := lt;
  flt_max := max;
  of_int := Qc_of_Z;
  ffloor := floor; fceil := ceil;
|}.
End Exact.

(** IEEE-754 binary32, the [float] of the platforms the code runs on:
    [spec_float] with 24 bits of precision and exponents below 128, rounding
    to nearest even. *)
Module Binary32.
Definition prec : Z := 24.
Definition emax : Z := 128.
Definition float32 : Type := spec_float.

Definition of_Z (n : Z) : float32 := binary_normalize prec emax n 0 false.

(** The integer [m * 2^e] rounded towards minus infinity. *)
Definition floor_scaled (m e : Z) : Z :=
  if (0 <=? e)%Z then (m * 2 ^ e)%Z else (m `div` 2 ^ (- e))%Z.

Definition floor (a : float32) : option Z :=
  match a with
  | S754_zero _ => Some 0%Z
  | S754_finite s m e => Some (floor_scaled (cond_Zopp s (Z.pos m)) e)
  | _ => None
  end.
Definition ceil (a : float32) : option Z :=
  match a with
  | S754_zero _ => Some 0%Z
  | S754_finite s m e =>
    Some (- floor_scaled (- cond_Zopp s (Z.pos m)) e)%Z
  | _ => None
  end.

#[export] Instance b32_float : Float float32 := {|
  f0 := S754_zero false; f1 := of_Z 1;
  fadd := SFadd prec emax; fsub := SFsub prec emax;
  fmul := SFmul prec emax; fdiv := SFdiv prec emax;
  fabs := SFabs;
  fgt a b := SFltb b a; fge a b := SFleb b a; flt a b := SFltb a b;
  flt_max := SFmax_float prec emax;
  of_int := of_Z;
  ffloor := floor; fceil := ceil;
|}.

(** [n / 2^k] as a [float], for literals such as 0.5 and 0.75. *)
Definition dyadic (n : Z) (k : Z) : float32 :=
  binary_normalize prec emax n (- k) false.

(** A float of the format: a finite one has a mantissa of at most 24 bits,
    of 24 bits unless its exponent is the smallest, and an exponent in
    range. *)
Definition valid (a : float32) : bool := valid_binary prec emax a.

(** A zero or a finite float: no infinity and no NaN. *)
Definition finite (a : float32) : bool :=
  match a with
  | S754_zero _ | S754_finite _ _ _ => true
  | _ => false
  end.

(** [-0.0f]. *)
Definition negative_zero : float32 := S754_zero true.

(** A value a curve can return unchanged from a blend with the factor 0:
    a float of the format other than [-0.0f] (NaN and the infinities are
    such values); and a value that such a blend can take in: a finite one. *)
Definition plain (a : float32) : Prop := valid a = true ∧ a ≠ negative_zero.
Definition plain_color (c : Imath.V3f float32) : Prop :=
  plain (Imath.x c) ∧ plain (Imath.y c) ∧ plain (Imath.z c).
Definition finite_color (c : Imath.V3f float32) : Prop :=
  finite (Imath.x c) = true ∧ finite (Imath.y c) = true
  ∧ finite (Imath.z c) = true.

(** Where a float that is not a NaN stands in the order of the floats: the
    comparison of two floats is the lexicographic comparison of their
    ranks. *)
Definition rank (a : float32) : option (Z * Z * Z) :=
  match a with
  | S754_nan => None
  | S754_infinity s => Some (if s then (-2)%Z else 2%Z, 0%Z, 0%Z)
  | S754_zero _ => Some (0%Z, 0%Z, 0%Z)
  | S754_finite s m e =>
    Some (if s then ((-1)%Z, (- e)%Z, (- Z.pos m)%Z) else (1%Z, e, Z.pos m))
  end.

Definition rank_lt (k1 k2 : Z * Z * Z) : Prop :=
  (k1.1.1 < k2.1.1)%Z
  ∨ (k1.1.1 = k2.1.1
     ∧ ((k1.1.2 < k2.1.2)%Z ∨ (k1.1.2 = k2.1.2 ∧ (k1.2 < k2.2)%Z))).
End Binary32.

(** ** Inputs the properties are tried on *)

Module Inputs.
Import Util Render.

Module OnBinary32.
Import Binary32.

Definition gray (a : float32) : Color float32 := Imath.mkV3f a a a.

(** Constant transmittance 1 at depths 0 and 1. *)
Definition constant_source : Curve float32 (Color float32) :=
  addSamples [(of_Z 0, gray (of_Z 1)); (of_Z 1, gray (of_Z 1))] Curve_empty.

(** Transmittance 1, 0.5, 0.75 at depths 0, 1, 2: it goes down, then up. *)
Definition dented_source : Curve float32 (Color float32) :=
  addSamples [(of_Z 0, gray (of_Z 1)); (of_Z 1, gray (dyadic 1 1));
              (of_Z 2, gray (dyadic 3 2))] Curve_empty.

(** Transmittance 1, 0.5, 0.25 at depths 0, 1, 2. *)
Definition falling_source : Curve float32 (Color float32) :=
  addSamples [(of_Z 0, gray (of_Z 1)); (of_Z 1, gray (dyadic 1 1));
              (of_Z 2, gray (dyadic 1 2))] Curve_empty.

(** Transmittance 1, then 2: it goes up. *)
Definition rising_source : Curve float32 (Color float32) :=
  addSamples [(of_Z 0, gray (of_Z 1)); (of_Z 1, gray (of_Z 2))] Curve_empty.

(** The frustum of the design document's example: planes at x = -1 and 1,
    y = -1 and 1, near at z = 0 and far at z = 10; and two rays along +z,
    one from the origin and one from behind the far plane. *)
Definition axis (x y z : Z) : Vector float32 :=
  Imath.mkV3f (of_Z x) (of_Z y) (of_Z z).
Definition symmetric_frustum : FrustumMappingIntersection (F := float32) :=
  mkFrustum (mkPlane (axis (-1) 0 0) (of_Z 1)) (mkPlane (axis 1 0 0) (of_Z 1))
            (mkPlane (axis 0 (-1) 0) (of_Z 1)) (mkPlane (axis 0 1 0) (of_Z 1))
            (mkPlane (axis 0 0 (-1)) (of_Z 0)) (mkPlane (axis 0 0 1) (of_Z 10)).
Definition ray_from_origin : Ray := mkRay (axis 0 0 0) (axis 0 0 1).
Definition ray_from_behind : Ray := mkRay (axis 0 0 20) (axis 0 0 1).

(** A ray along +z from (5, 0, 0): it runs along the planes at x = -1 and
    x = 1, outside of them. *)
Definition ray_beside : Ray := mkRay (axis 5 0 0) (axis 0 0 1).

(** A 2 x 2 image whose pixels hold one-sample curves of the grays 1, 2, 3
    and 4, and the coordinates -0.5 and 0.5. *)
Definition gray_pixels : DeepImage :=
  mkDeepImage 2 2 32 [1%positive; 2%positive; 3%positive; 4%positive].
Definition gray_curves : gmap loc (Curve float32 (Color float32)) :=
  <[1%positive := Curve_init (gray (of_Z 1))]>
  (<[2%positive := Curve_init (gray (of_Z 2))]>
  (<[3%positive := Curve_init (gray (of_Z 3))]>
  (<[4%positive := Curve_init (gray (of_Z 4))]> ∅))).
Definition minus_one_half : float32 := dyadic (-1) 1.
Definition one_half : float32 := dyadic 1 1.
End OnBinary32.

Module OnRationals.
Import Exact.

(** The scalar example of the design document: samples (0, 0.0) and
    (1, 10.0). *)
Definition example_curve : Curve Qc Qc :=
  addSamples [(0%Qc, 0%Qc); (1%Qc, Qc_of_Z 10)] Curve_empty.

Definition rgb (r g b : Z) : Color Qc :=
  Imath.mkV3f (Qc_of_Z r) (Qc_of_Z g) (Qc_of_Z b).

(** A 2 x 2 image whose pixels hold one-sample curves of constant color. *)
Definition four_pixels : DeepImage :=
  mkDeepImage 2 2 32 [1%positive; 2%positive; 3%positive; 4%positive].
Definition four_curves : gmap loc (Curve Qc (Color Qc)) :=
  <[1%positive := Curve_init (rgb 4 0 0)]>
  (<[2%positive := Curve_init (rgb 0 4 0)]>
  (<[3%positive := Curve_init (rgb 0 0 4)]>
  (<[4%positive := Curve_init (rgb 4 4 4)]> ∅))).

(** Two raster images on storage that holds zeros: one of 2 x 2 pixels and
    one without a column; and, in the place of [linear_to_sRGB], a transfer
    function that changes nothing. *)
Definition zeros : Z → Z → Z → Qc := λ _ _ _, 0%Qc.
Definition two_by_two : Image.Image Qc := Image.setSize 2 2 zeros.
Definition no_columns : Image.Image Qc := Image.setSize 0 3 zeros.
Definition no_transfer : LinearTosRGB Qc := λ a, a.
End OnRationals.
End Inputs.

(** * Properties *)

(** ** Curves *)

Module CurveProperties.
Import Util.
Section find_if.
Context {A : Type} (p : A → bool).

Lemma find_if_le (l : list A) : find_if p l ≤ length l.
Proof. induction l as [|a l IH]; simpl; [lia|]. destruct (p a); lia. Qed.

Lemma find_if_before (l : list A) :
  Forall (λ a, p a = false) (take (find_if p l) l).
Proof.
  induction l as [|a l IH]; simpl; [constructor|].
  destruct (p a) eqn:Ha; simpl; [constructor|]. by constructor.
Qed.

Lemma find_if_found (l : list A) :
  find_if p l < length l →
  ∃ a l', drop (find_if p l) l = a :: l' ∧ p a = true.
Proof.
  induction l as [|a l IH]; simpl; [lia|].
  destruct (p a) eqn:Ha; simpl; [eauto|].
  intros Hlt. apply IH. lia.
Qed.

Lemma find_if_end (l : list A) :
  find_if p l = length l ↔ Forall (λ a, p a = false) l.
Proof.
  induction l as [|a l IH]; simpl; [split; [constructor|done]|].
  destruct (p a) eqn:Ha.
  - split; [done|]. intros Hall. apply Forall_cons in Hall as [? _]. congruence.
  - rewrite Forall_cons. split.
    + intros [= Hl]. split; [done|]. by apply IH.
    + intros [_ Hl]. f_equal. by apply IH.
Qed.

Lemma find_if_app (l1 l2 : list A) :
  Forall (λ a, p a = false) l1 →
  find_if p (l1 ++ l2) = length l1 + find_if p l2.
Proof.
  induction 1 as [|a l1 Ha _ IH]; simpl; [done|]. rewrite Ha. by f_equal.
Qed.

(** The three outcomes of a search: nothing found, the first element
    found, or a later one found with everything before it rejected. *)
Lemma find_if_cases (l : list A) :
  (find_if p l = length l ∧ Forall (λ a, p a = false) l)
  ∨ (∃ a l', l = a :: l' ∧ p a = true ∧ find_if p l = 0)
  ∨ (∃ l1 lower upper l2,
        l = l1 ++ lower :: upper :: l2
        ∧ Forall (λ a, p a = false) (l1 ++ [lower])
        ∧ p upper = true
        ∧ find_if p l = S (length l1)).
Proof.
  induction l as [|a l IH]; simpl.
  { left. split; [done|constructor]. }
  destruct (p a) eqn:Ha.
  { right; left. by exists a, l. }
  destruct IH as [[Hend Hall]|[(b & l' & -> & Hb & Hi)|IH]].
  - left. split; [by f_equal|by constructor].
  - right; right. exists [], a, b, l'. simpl in *.
    rewrite Hb. split_and!; [done| |done..]. by repeat constructor.
  - right; right. destruct IH as (l1 & lower & upper & l2 & -> & Hall & Hu & Hi).
    exists (a :: l1), lower, upper, l2. simpl.
    split_and!; [done| |done|by f_equal]. by constructor.
Qed.
End find_if.

Section addSample.
Context {F : Type} `{Float F} {T : Type}.
Implicit Types (c : Curve F T) (l : list (Sample F T)) (t : F) (v : T).

(** Where [addSample] puts the new sample. *)
Lemma addSample_split t v c :
  ∃ l1 l2,
    m_samples c = l1 ++ l2
    ∧ m_samples (addSample t v c) = l1 ++ (t, v) :: l2
    ∧ Forall (λ s, fgt s.1 t = false) l1
    ∧ (l2 = [] ∨ ∃ s l2', l2 = s :: l2' ∧ fgt s.1 t = true).
Proof.
  unfold addSample. set (l := m_samples c).
  set (i := find_if (CheckTGreaterThan t) l).
  pose proof (find_if_before (CheckTGreaterThan t) l) as Hbefore.
  destruct (decide (i ≠ length l)) as [Hne|Heq]; simpl.
  - assert (i < length l) as Hlt.
    { pose proof (find_if_le (CheckTGreaterThan t) l). subst i. lia. }
    destruct (find_if_found _ l Hlt) as (s & l2' & Hdrop & Hs).
    exists (take i l), (drop i l). unfold vector_insert.
    rewrite take_drop. split_and!; [done..|]. right. eauto.
  - assert (i = length l) as Hi by lia.
    exists l, []. rewrite app_nil_r. split_and!; [done..| |by left].
    by apply find_if_end.
Qed.

Lemma addSample_length t v c :
  numSamples (addSample t v c) = S (numSamples c).
Proof.
  destruct (addSample_split t v c) as (l1 & l2 & Hc & Hr & _).
  unfold numSamples. rewrite Hr, Hc, !length_app. simpl. lia.
Qed.



(** A sample that is not below any stored one goes to the end. *)
Lemma addSample_append t v c :
  Forall (λ s, fgt s.1 t = false) (m_samples c) →
  m_samples (addSample t v c) = m_samples c ++ [(t, v)].
Proof.
  intros Hall. unfold addSample.
  apply (find_if_end (CheckTGreaterThan t)) in Hall.
  rewrite Hall. by destruct (decide _).
Qed.

Lemma addSamples_nondecreasing_id (calls : list (F * T)) l :
  nondecreasing (l ++ calls) →
  m_samples (addSamples calls (mkCurve l)) = l ++ calls.
Proof.
  revert l. induction calls as [|[t v] calls IH]; intros l Hs.
  { by rewrite app_nil_r. }
  change (addSamples ((t, v) :: calls) (mkCurve l))
    with (addSamples calls (addSample t v (mkCurve l))).
  assert (addSample t v (mkCurve l) = mkCurve (l ++ [(t, v)])) as ->.
  { pose proof (addSample_append t v (mkCurve l)) as Hl.
    destruct (addSample t v (mkCurve l)) as [l']. simpl in Hl. f_equal.
    apply Hl. apply Forall_forall. intros s Hin.
    apply (StronglySorted_app_1_elem_of _ _ _ s (t, v) Hs Hin). set_solver. }
  rewrite IH; rewrite <-app_assoc; done.
Qed.

Section order.
Context `{!GtStrict F}.

Lemma addSample_nondecreasing t v c :
  nondecreasing (m_samples c) → nondecreasing (m_samples (addSample t v c)).
Proof.
  intros Hs.
  destruct (addSample_split t v c) as (l1 & l2 & Hc & Hr & Hl1 & Hl2).
  rewrite Hr. rewrite Hc in Hs. unfold nondecreasing in *.
  apply StronglySorted_app in Hs as (H12 & Hs1 & Hs2).
  apply StronglySorted_app. split_and!; [|done|].
  - intros a b Ha Hb. apply elem_of_cons in Hb as [->|Hb]; [|by apply H12].
    simpl. by apply (proj1 (Forall_forall _ _) Hl1).
  - apply StronglySorted_cons. split; [|done].
    destruct Hl2 as [->|(s & l2' & -> & Hs)]; [constructor|].
    apply StronglySorted_cons in Hs2 as [Hall Hs2].
    constructor; simpl; [by apply fgt_asym|].
    eapply Forall_impl; [exact Hall|]. simpl. intros b Hsb.
    destruct (fgt t b.1) eqn:Htb; [|done].
    rewrite (fgt_trans _ _ _ Hs Htb) in Hsb. done.
Qed.

Lemma addSamples_nondecreasing (calls : list (F * T)) c :
  nondecreasing (m_samples c) →
  nondecreasing (m_samples (addSamples calls c)).
Proof.
  revert c. induction calls as [|[t v] calls IH]; intros c Hc; [done|].
  apply IH. by apply addSample_nondecreasing.
Qed.
End order.

Section stable.
Context `{!GtStrict F} `{!GtTotal F}.


End stable.

End addSample.

Section interpolate.
Context {F : Type} `{Float F} {T : Type} `{!CurveValue F T}.
Implicit Types (c : Curve F T) (t : F).

Lemma interpolate_empty c t :
  m_samples c = [] → interpolate c t = defaultReturnValue.
Proof. unfold interpolate. by intros ->. Qed.

Lemma interpolate_at_end c t l back :
  m_samples c = l ++ [back] →
  Forall (λ s, fgt s.1 t = false) (m_samples c) →
  interpolate c t = back.2.
Proof.
  intros Hc Hall. unfold interpolate.
  apply (find_if_end (CheckTGreaterThan t)) in Hall. rewrite Hall.
  destruct (m_samples c) as [|front l'] eqn:Hl.
  { by destruct l. }
  rewrite decide_True by done. by rewrite Hc, last_snoc.
Qed.

Lemma interpolate_at_begin c t front l :
  m_samples c = front :: l → fgt front.1 t = true →
  interpolate c t = front.2.
Proof.
  intros Hc Hfront. unfold interpolate.
  assert (find_if (CheckTGreaterThan t) (m_samples c) = 0) as ->.
  { rewrite Hc. simpl. unfold CheckTGreaterThan. by rewrite Hfront. }
  rewrite Hc. rewrite decide_False by done. by rewrite decide_True.
Qed.

Lemma interpolate_between c t l1 lower upper l2 :
  m_samples c = l1 ++ lower :: upper :: l2 →
  Forall (λ s, fgt s.1 t = false) (l1 ++ [lower]) →
  fgt upper.1 t = true →
  interpolate c t = lerp lower upper (Imath.lerpfactor t lower.1 upper.1).
Proof.
  intros Hc Hall Hupper. unfold interpolate.
  assert (find_if (CheckTGreaterThan t) (m_samples c) = S (length l1)) as Hi.
  { rewrite Hc. rewrite (cons_middle lower), app_assoc.
    rewrite find_if_app by done. simpl.
    unfold CheckTGreaterThan at 1. rewrite Hupper.
    rewrite length_app. simpl. lia. }
  rewrite Hi. destruct (m_samples c) as [|front l'] eqn:Hl.
  { by destruct l1. }
  rewrite decide_False.
  2:{ rewrite Hc, length_app. simpl. lia. }
  rewrite decide_False by done.
  replace (S (length l1) - 1) with (length l1) by lia.
  rewrite Hc.
  assert (nth (length l1) (l1 ++ lower :: upper :: l2) front = lower) as ->.
  { clear. induction l1; simpl; auto. }
  assert (nth (S (length l1)) (l1 ++ lower :: upper :: l2) front = upper) as ->.
  { clear. induction l1; simpl; auto. }
  done.
Qed.

Lemma interpolate_single c t s : m_samples c = [s] → interpolate c t = s.2.
Proof.
  intros Hc. destruct (fgt s.1 t) eqn:Hs.
  - by apply (interpolate_at_begin c t s []).
  - apply (interpolate_at_end c t [] s); [done|].
    rewrite Hc. by repeat constructor.
Qed.

(** In a curve in order whose positions are comparable, a query at or above
    the last position has no sample above it. *)
Lemma at_or_above_last `{!GtTotal F} t (l : list (Sample F T)) back :
  nondecreasing (l ++ [back]) → fgt back.1 t = false →
  Forall (λ s, fgt s.1 t = false) (l ++ [back]).
Proof.
  intros Hs Hback. apply Forall_app. split; [|by repeat constructor].
  apply Forall_forall. intros s Hin.
  assert (fgt s.1 back.1 = false) as Hsb.
  { apply (StronglySorted_app_1_elem_of _ _ _ s back Hs Hin). set_solver. }
  destruct (fgt s.1 t) eqn:Hst; [|done].
  by rewrite (fgt_le_gt s.1 back.1 t Hst Hback) in Hsb.
Qed.
End interpolate.
End CurveProperties.

(** ** The comparison of the two models *)

Module Comparisons.
Lemma fgt_irrefl {F : Type} `{Float F} `{!GtStrict F} (t : F) :
  fgt t t = false.
Proof.
  destruct (fgt t t) eqn:Htt; [|done].
  pose proof (fgt_asym t t Htt). congruence.
Qed.
End Comparisons.

Module ExactOrder.
Import Exact.

Lemma gt_spec (a b : Qc) : fgt a b = true ↔ (b < a)%Qc.
Proof. simpl. unfold gt. by rewrite bool_decide_eq_true. Qed.

Lemma gt_false (a b : Qc) : fgt a b = false ↔ (a ≤ b)%Qc.
Proof.
  simpl. unfold gt. rewrite bool_decide_eq_false. split.
  - apply Qcnot_lt_le.
  - apply Qcle_not_lt.
Qed.

#[export] Instance Qc_gt_strict : GtStrict Qc.
Proof.
  split.
  - intros a b. rewrite gt_spec, gt_false. apply Qclt_le_weak.
  - intros a b c. rewrite !gt_spec. intros Hba Hcb. by eapply Qclt_trans.
Qed.

#[export] Instance Qc_gt_total : GtTotal Qc.
Proof.
  split. intros a b t. rewrite !gt_spec, gt_false. intros Hta Hbt.
  by eapply Qcle_lt_trans.
Qed.

#[export] Instance Qc_gt_numbers : GtNumbers Qc.
Proof.
  assert (∀ a : Qc, number a) as Hnumber.
  { intros a. unfold number. simpl. unfold ge. apply bool_decide_eq_true.
    apply Qcle_refl. }
  split; [done|done| | |done|done].
  - intros a b t _. apply fgt_le_gt.
  - intros a b t _. rewrite !gt_spec, gt_false. intros Hat Htb.
    by eapply Qclt_le_trans.
Qed.

Lemma abs_nonneg (a : Qc) : (0 ≤ a)%Qc → abs a = a.
Proof.
  intros Ha. unfold abs. rewrite bool_decide_eq_false_2; [done|].
  by apply Qcle_not_lt.
Qed.

Lemma max_ge_1 : (1 ≤ max)%Qc.
Proof. unfold max. rewrite <-Z2Qc_inj_1. by apply Z2Qc_inj_le. Qed.

(** Without rounding, Imath always divides between a position that is not
    above [t] and one that is: [lerpfactor] is the quotient there. *)
Lemma lerpfactor_is_quotient (t a b : Qc) :
  fgt a t = false → fgt b t = true →
  Imath.lerpfactor t a b = ((t - a) / (b - a))%Qc.
Proof.
  rewrite gt_false, gt_spec. intros Hat Htb.
  unfold Imath.lerpfactor, Imath.lerpfactor_divides. simpl.
  assert (0 ≤ t - a)%Qc as Hn.
  { apply (Qcplus_le_mono_r _ _ a). by ring_simplify. }
  assert (0 < b - a)%Qc as Hd.
  { apply (Qcplus_lt_mono_r _ _ a). ring_simplify. by eapply Qcle_lt_trans. }
  rewrite !abs_nonneg by (done || by apply Qclt_le_weak).
  assert (lt (t - a) (max * (b - a)) = true) as ->.
  { unfold lt. apply bool_decide_eq_true.
    apply Qclt_le_trans with (b - a)%Qc.
    - by apply Qcplus_lt_mono_r.
    - rewrite <-(Qcmult_1_l (b - a)) at 1.
      apply Qcmult_le_mono_nonneg_r; [by apply Qclt_le_weak|apply max_ge_1]. }
  by rewrite orb_true_r.
Qed.
End ExactOrder.

Module Binary32Order.
Import Binary32.

Ltac solve_rank :=
  split;
  [ first [ done
          | intros _; do 2 eexists; split_and!; [done..|simpl; lia] ]
  | intros (? & ? & ? & ? & ?);
    repeat match goal with
           | Heq : Some _ = Some _ |- _ => injection Heq as <-
           | Heq : None = Some _ |- _ => discriminate Heq
           end;
    simpl in *; first [done | lia] ].

Lemma ltb_rank (a b : float32) :
  SFltb a b = true
  ↔ ∃ ka kb, rank a = Some ka ∧ rank b = Some kb ∧ rank_lt ka kb.
Proof.
  unfold SFltb, SFcompare, rank_lt.
  destruct a as [sa|sa| |sa ma ea], b as [sb|sb| |sb mb eb]; simpl;
    try destruct sa; try destruct sb; simpl; try solve_rank;
    change (Pos.compare_cont Eq ma mb) with (Pos.compare ma mb);
    destruct (Z.compare_spec ea eb), (Pos.compare_spec ma mb); simpl;
    solve_rank.
Qed.

(** On binary32 [>] is asymmetric and transitive, NaN and infinities
    included. *)
#[export] Instance b32_gt_strict : GtStrict float32.
Proof.
  split; simpl.
  - intros a b Hab. apply not_true_is_false. intros Hba.
    apply ltb_rank in Hab as (k1 & k2 & H1 & H2 & Hlt).
    apply ltb_rank in Hba as (k3 & k4 & H3 & H4 & Hlt').
    assert (k3 = k2 ∧ k4 = k1) as [-> ->] by (split; congruence).
    unfold rank_lt in *. lia.
  - intros a b c Hab Hbc.
    apply ltb_rank in Hab as (k1 & k2 & H1 & H2 & Hlt).
    apply ltb_rank in Hbc as (k3 & k4 & H3 & H4 & Hlt').
    assert (k4 = k1) as -> by congruence.
    apply ltb_rank. exists k3, k2. unfold rank_lt in *.
    split_and!; [done..|lia].
Qed.

Lemma number_rank (a : float32) : number a ↔ is_Some (rank a).
Proof.
  unfold number. simpl. unfold SFleb, SFcompare.
  destruct a as [sa|sa| |sa ma ea]; simpl.
  - split; [by eexists|done].
  - split; [by eexists|]. by destruct sa.
  - split; [done|]. by intros [? ?].
  - split; [by eexists|]. intros _.
    change (Pos.compare_cont Eq ma ma) with (Pos.compare ma ma).
    rewrite Z.compare_refl, Pos.compare_refl. by destruct sa.
Qed.

Lemma ltb_false_rank (a b : float32) ka kb :
  SFltb a b = false → rank a = Some ka → rank b = Some kb → ¬ rank_lt ka kb.
Proof.
  intros Hab Ha Hb Hlt.
  assert (SFltb a b = true) as Htrue by (apply ltb_rank; eauto).
  congruence.
Qed.

(** On binary32 the comparisons are those of a total order among the
    floats that are no NaN. *)
#[export] Instance b32_gt_numbers : GtNumbers float32.
Proof.
  split; [done| | | |done|done]; simpl.
  - intros a b Hab. apply ltb_rank in Hab as (kb & ka & Hb & Ha & _).
    split; apply number_rank; by eexists.
  - intros a b t Hb Hat Hbt.
    apply number_rank in Hb as [kb Hb].
    apply ltb_rank in Hat as (kt & ka & Ht & Ha & Hlt).
    pose proof (ltb_false_rank t b kt kb Hbt Ht Hb) as Hnlt.
    apply ltb_rank. exists kb, ka. split_and!; [done..|].
    destruct ka as [[? ?] ?], kb as [[? ?] ?], kt as [[? ?] ?].
    unfold rank_lt in *. simpl in *. lia.
  - intros a b t Hb Hat Hbt.
    apply number_rank in Hb as [kb Hb].
    apply ltb_rank in Hat as (ka & kt & Ha & Ht & Hlt).
    pose proof (ltb_false_rank b t kb kt Hbt Hb Ht) as Hnlt.
    apply ltb_rank. exists ka, kb. split_and!; [done..|].
    destruct ka as [[? ?] ?], kb as [[? ?] ?], kt as [[? ?] ?].
    unfold rank_lt in *. simpl in *. lia.
Qed.

(** On binary32 positions, NaN and infinities included, no sequence of
    [addSample] calls stores a sample above a later one. *)
Lemma addSample_order_on_binary32 {T} (calls : list (float32 * T)) :
  Util.nondecreasing (Util.m_samples (Util.addSamples calls Util.Curve_empty)).
Proof. apply CurveProperties.addSamples_nondecreasing. constructor. Qed.
End Binary32Order.

(** ** The cases of [interpolate] *)

Module Interpolation.
Import Util CurveProperties.

(** C1.  What [interpolate(t)] returns, for every value type and every
    [t].  On a curve without samples, the type's default.  On a curve with
    one sample, that sample's value.  On a curve with two samples or more:
    the first sample's value when [t] lies below the first position; the last
    sample's value when no position lies above [t], which on a curve in order
    with comparable positions is to say that [t] is at or above the last
    position; and otherwise [lerp(lower, upper, f)], where [upper] is the
    first sample whose position lies above [t], [lower] is the sample just
    before it and [f = Imath::lerpfactor(t, lower.position, upper.position)],
    which is [(t - lower.position) / (upper.position - lower.position)]
    whenever Imath divides.  One of the three cases always applies.  The
    default is zero for a scalar and a vector (a color is a vector) and the
    identity for a rotation; [lerp] is [Imath::lerp] on the values for the
    former and [Imath::slerp] for the latter. *)
Theorem interpolate_cases {F : Type} `{Float F} :
  (∀ (T : Type) (V : CurveValue F T) (c : Curve F T) (t : F),
    (numSamples c = 0 → interpolate c t = defaultReturnValue)
    ∧ (∀ s, m_samples c = [s] → interpolate c t = s.2)
    ∧ (2 ≤ numSamples c →
        (∀ front l, m_samples c = front :: l → fgt front.1 t = true →
           interpolate c t = front.2)
        ∧ (∀ l back, m_samples c = l ++ [back] →
             Forall (λ s, fgt s.1 t = false) (m_samples c)
             ∨ (GtTotal F ∧ nondecreasing (m_samples c)
                ∧ fgt back.1 t = false) →
             interpolate c t = back.2)
        ∧ (∀ l1 lower upper l2,
             m_samples c = l1 ++ lower :: upper :: l2 →
             Forall (λ s, fgt s.1 t = false) (l1 ++ [lower]) →
             fgt upper.1 t = true →
             interpolate c t
             = lerp lower upper (Imath.lerpfactor t lower.1 upper.1)
             ∧ (Imath.lerpfactor_divides t lower.1 upper.1 = true →
                Imath.lerpfactor t lower.1 upper.1
                = fdiv (fsub t lower.1) (fsub upper.1 lower.1)))
        ∧ ((∃ front l, m_samples c = front :: l ∧ fgt front.1 t = true)
           ∨ Forall (λ s, fgt s.1 t = false) (m_samples c)
           ∨ (∃ l1 lower upper l2,
                m_samples c = l1 ++ lower :: upper :: l2
                ∧ Forall (λ s, fgt s.1 t = false) (l1 ++ [lower])
                ∧ fgt upper.1 t = true))))
  ∧ (defaultReturnValue (CurveValue := float_value) = f0
     ∧ defaultReturnValue (CurveValue := V3f_value) = Imath.mkV3f f0 f0 f0
     ∧ (∀ (lower upper : F * F) (t : F),
          lerp (CurveValue := float_value) lower upper t
          = Imath.lerp lower.2 upper.2 t)
     ∧ (∀ (lower upper : F * Imath.V3f F) (t : F),
          lerp (CurveValue := V3f_value) lower upper t
          = Imath.lerp3 lower.2 upper.2 t))
  ∧ (∀ S : Slerp F,
       defaultReturnValue (CurveValue := Quat_value) = Imath.Quat_identity
       ∧ (∀ (lower upper : F * Imath.Quat F) (t : F),
            lerp (CurveValue := Quat_value) lower upper t
            = slerp lower.2 upper.2 t)).
Proof.
  split_and!; [|done..].
  intros T V c t. split_and!.
  - intros Hn. apply interpolate_empty.
    by destruct c as [[|]].
  - apply interpolate_single.
  - intros _. split_and!.
    + apply interpolate_at_begin.
    + intros l back Hc [Hall|(Htotal & Hs & Hback)].
      * by eapply interpolate_at_end.
      * eapply interpolate_at_end; [done|].
        rewrite Hc in Hs |- *. by apply at_or_above_last.
    + intros l1 lower upper l2 Hc Hall Hupper. split.
      * by eapply interpolate_between.
      * unfold Imath.lerpfactor. by intros ->.
    + destruct (find_if_cases (CheckTGreaterThan t) (m_samples c))
        as [[_ Hall]|[(front & l & Hc & Hfront & _)|Hmid]].
      * right; left. done.
      * left. eauto.
      * right; right.
        destruct Hmid as (l1 & lower & upper & l2 & Hc & Hall & Hupper & _).
        exists l1, lower, upper, l2. done.
Qed.

Import Exact ExactOrder Inputs.OnRationals.

(** The scalar example of the design document: [interpolate(0.5) = 5.0],
    [interpolate(-1) = 0.0] and [interpolate(2) = 10.0]. *)
Lemma interpolate_cases_witness :
  interpolate example_curve (Qc_of_Z 1 / Qc_of_Z 2)%Qc = Qc_of_Z 5
  ∧ interpolate example_curve (Qc_of_Z (-1)) = 0%Qc
  ∧ interpolate example_curve (Qc_of_Z 2) = Qc_of_Z 10.
Proof.
  pose proof (proj1 interpolate_cases Qc _ example_curve) as Hcases.
  split_and!.
  - destruct (Hcases (Qc_of_Z 1 / Qc_of_Z 2)%Qc) as (_ & _ & Htwo).
    destruct (Htwo ltac:(vm_compute; lia)) as (_ & _ & Hmid & _).
    destruct (Hmid [] (0%Qc, 0%Qc) (1%Qc, Qc_of_Z 10) []) as [-> _].
    + reflexivity.
    + repeat constructor.
    + reflexivity.
    + by apply Qc_is_canon.
  - destruct (Hcases (Qc_of_Z (-1))) as (_ & _ & Htwo).
    destruct (Htwo ltac:(vm_compute; lia)) as (Hfront & _).
    apply (Hfront (0%Qc, 0%Qc) [(1%Qc, Qc_of_Z 10)]); reflexivity.
  - destruct (Hcases (Qc_of_Z 2)) as (_ & Hone & Htwo).
    destruct (Htwo ltac:(vm_compute; lia)) as (_ & Hback & _).
    apply (Hback [(0%Qc, 0%Qc)] (1%Qc, Qc_of_Z 10)); [reflexivity|].
    left. repeat constructor.
Defined.

End Interpolation.

(** ** The resampler *)

Module Resampler.
Import Util Render CurveProperties.
Section resampler.
Context {F : Type} `{Float F}.
Implicit Types (samples rest : list (Sample F (Color F))).
Implicit Types (front : Sample F (Color F)) (first last lastVal : Color F).

Lemma Curve_fill_length {T} (n : nat) (value : T) :
  numSamples (Curve_fill (F := F) n value) = n.
Proof. unfold numSamples, Curve_fill. simpl. by rewrite length_fmap, length_seq. Qed.

Lemma Curve_fill_values {T} (n : nat) (value : T) :
  Forall (λ s, s.2 = value) (m_samples (Curve_fill (F := F) n value)).
Proof.
  unfold Curve_fill. simpl. apply Forall_fmap, Forall_forall. done.
Qed.

(** The monotonicity loop compares every sample with the one [lastVal] it
    is entered with. *)
Lemma monotonic_loop_violation sign lastVal last rest :
  monotonic_loop sign lastVal last rest = None
  ↔ Exists (λ s, exceeds sign s.2 lastVal = true) rest.
Proof.
  revert last. induction rest as [|s rest IH]; intros last; simpl.
  - split; [done|]. by intros ?%Exists_nil.
  - rewrite Exists_cons. destruct (exceeds sign s.2 lastVal) eqn:Hs.
    + split; [by left|done].
    + rewrite IH. split; [by right|]. by intros [?|?].
Qed.

(** When it finds no violation, it ends with [last] being the value of the
    last sample. *)
Lemma monotonic_loop_last sign lastVal last rest last' front :
  monotonic_loop sign lastVal last rest = Some last' →
  rest ≠ [] →
  last' = (default front (list.last rest)).2.
Proof.
  revert last. induction rest as [|s rest IH]; intros last; simpl; [done|].
  destruct (exceeds sign s.2 lastVal); [done|]. intros Hloop _.
  destruct rest as [|s' rest]; [by simplify_eq/=|].
  apply (IH _ Hloop). done.
Qed.

(** The [while] loop stops on the first sample, from [p] on, whose mean does
    not lie above the threshold; [lastVal] is then the value of the sample
    just before it, unless the loop did not move. *)
Lemma while_from_spec threshold lastVal p (from_p : list (Sample F (Color F)))
    front :
  while_from threshold lastVal p from_p
  = let k := find_if (λ s : Sample F (Color F),
                        negb (fgt (Math.avg s.2) threshold)) from_p in
    if decide (k < length from_p)
    then Some (if decide (k = 0) then lastVal
               else (default front (at_pred from_p k)).2,
               p + k)
    else None.
Proof.
  revert lastVal p.
  induction from_p as [|s from_p IH]; intros lastVal p; simpl; [done|].
  destruct (fgt (Math.avg s.2) threshold) eqn:Hs; simpl.
  - rewrite IH. simpl.
    set (k := find_if _ from_p).
    destruct (decide (k < length from_p)) as [Hk|Hk];
      destruct (decide (S k < S (length from_p))) as [Hk'|Hk']; try lia;
      [|done].
    f_equal. f_equal; [|lia].
    destruct (decide (k = 0)) as [Hk0|Hk0].
    + by rewrite Hk0.
    + destruct k as [|k']; done.
  - destruct (decide (0 < S (length from_p))) as [_|?]; [|lia].
    f_equal. f_equal. lia.
Qed.

Section described.
Variables (samples : list (Sample F (Color F))) (numSamples : nat).
Variables (first last : Color F) (sign : Z) (front : Sample F (Color F)).

Abbreviation pointer := (Render.pointer samples numSamples first last sign).
Abbreviation lastVal_at :=
  (Render.lastVal_at samples numSamples first last sign front).
Abbreviation output := (Render.output samples numSamples first last sign front).

Lemma pointer_S i :
  pointer (S i) = advance samples numSamples first last sign (S i) (pointer i).
Proof. done. Qed.

Lemma lastVal_at_S i :
  lastVal_at (S i)
  = if decide (pointer (S i) = pointer i) then lastVal_at i
    else (default front (at_pred samples (pointer (S i)))).2.
Proof. done. Qed.

Local Arguments Render.pointer : simpl never.
Local Arguments Render.lastVal_at : simpl never.

Lemma while_loop_spec lastVal i p :
  while_loop samples
    (fmul (Math.avg (targetColor numSamples first last i)) (of_int sign))
    lastVal p
  = let q := advance samples numSamples first last sign i p in
    if decide (q < length samples)
    then Some (if decide (q = p) then lastVal
               else (default front (at_pred samples q)).2, q)
    else None.
Proof.
  unfold while_loop, advance. rewrite (while_from_spec _ _ _ _ front). simpl.
  set (k := find_if _ (drop p samples)). rewrite length_drop.
  destruct (decide (k < length samples - p)) as [Hk|Hk];
    destruct (decide (p + k < length samples)) as [Hq|Hq]; try lia; [|done].
  f_equal. f_equal.
  destruct (decide (k = 0)) as [Hk0|Hk0];
    destruct (decide (p + k = p)) as [Hq0|Hq0]; try lia; [done|].
  destruct k as [|k']; [done|]. simpl.
  rewrite lookup_drop. by replace (p + S k') with (S (p + k')) by lia.
Qed.

(** One iteration of the loop, from the state the description gives after
    iteration [i], produces output [i + 1] and the state the description
    gives after it. *)
Lemma for_body_spec i result :
  for_body samples numSamples first last sign
           (mkLoopState (lastVal_at i) (pointer i) result) (S i)
  = o ← output (S i);
    Some (mkLoopState (lastVal_at (S i)) (pointer (S i))
                      (addSample o.1 o.2 result)).
Proof.
  unfold for_body. simpl st_lastVal. simpl st_p.
  fold (targetColor numSamples first last (S i)).
  rewrite while_loop_spec. cbv zeta. rewrite <-pointer_S, <-lastVal_at_S.
  unfold Render.output. simpl.
  destruct (decide (pointer (S i) < length samples)) as [Hq|Hq]; simpl.
  - destruct (samples !! pointer (S i)) as [sp|] eqn:Hsp; simpl.
    2:{ apply lookup_ge_None in Hsp. lia. }
    destruct (at_pred samples (pointer (S i))) as [sp1|] eqn:Hsp1; simpl; done.
  - rewrite (proj2 (lookup_ge_None _ _)) by lia. done.
Qed.

Lemma for_loop_spec n i result :
  for_loop samples numSamples first last sign
           (mkLoopState (lastVal_at i) (pointer i) result) (seq (S i) n)
  = outs ← mapM output (seq (S i) n);
    Some (mkLoopState (lastVal_at (i + n)) (pointer (i + n))
                      (addSamples outs result)).
Proof.
  revert i result. induction n as [|n IH]; intros i result; simpl.
  { by rewrite Nat.add_0_r. }
  rewrite for_body_spec.
  destruct (output (S i)) as [o|]; simpl; [|done].
  rewrite IH. replace (S i + n) with (i + S n) by lia.
  destruct (mapM output (seq (S (S i)) n)); done.
Qed.

(** Where an output is defined, the pointer is inside the samples and has
    a sample before it. *)
Lemma output_pointer i o :
  output i = Some o → 1 ≤ pointer i < length samples.
Proof.
  unfold Render.output. simpl. intros Ho.
  destruct (samples !! pointer i) as [sp|] eqn:Hsp; simpl in Ho; [|done].
  apply lookup_lt_Some in Hsp.
  destruct (pointer i) as [|q] eqn:Hq; simpl in Ho; [done|lia].
Qed.

(** [lastVal] is the value of the sample just behind the pointer. *)
Lemma lastVal_at_pointer i :
  1 ≤ pointer i →
  lastVal_at i = (default front (at_pred samples (pointer i))).2.
Proof.
  induction i as [|i IH]; [unfold Render.pointer; lia|]. intros Hp.
  rewrite lastVal_at_S.
  destruct (decide _) as [Heq|Hne]; [|done].
  rewrite Heq in Hp |- *. by apply IH.
Qed.
End described.

Lemma monotonic_branch_spec samples front numSamples first last sign :
  monotonic_branch samples front numSamples first last sign
  = outs ← outputs samples numSamples first last sign front;
    Some (addSamples (front :: outs) Curve_empty).
Proof.
  unfold monotonic_branch, outputs.
  pose proof (for_loop_spec samples numSamples first last sign front
                (numSamples - 1) 0
                (addSample front.1 front.2 Curve_empty)) as Hloop.
  simpl in Hloop. simpl. rewrite Hloop.
  destruct (mapM _ _) as [outs|]; simpl; [|done].
  by destruct front.
Qed.

Lemma mapM_outputs_lookup {A B} (f : A → option B) (l : list A) (k : list B) :
  mapM f l = Some k →
  length k = length l ∧ ∀ i a, l !! i = Some a → f a = k !! i.
Proof.
  intros Hk. apply mapM_Some_1 in Hk. split.
  - symmetry. by eapply Forall2_length.
  - intros i a Ha.
    destruct (Forall2_lookup_l _ _ _ _ _ Hk Ha) as (b & Hb & Hab). congruence.
Qed.

(** What [advance] does: it never moves back, every sample it passes has
    its mean above the threshold, and the sample it stops on has not. *)
Lemma advance_spec samples numSamples first last sign i p :
  let threshold :=
    fmul (Math.avg (targetColor numSamples first last i)) (of_int sign) in
  let q := advance samples numSamples first last sign i p in
  p ≤ q
  ∧ (∀ j s, p ≤ j < q → samples !! j = Some s →
       fgt (Math.avg s.2) threshold = true)
  ∧ (∀ s, samples !! q = Some s → fgt (Math.avg s.2) threshold = false).
Proof.
  intros threshold q. subst q. unfold advance. fold threshold.
  set (stop := λ s : Sample F (Color F), negb (fgt (Math.avg s.2) threshold)).
  split_and!.
  - lia.
  - intros j s Hj Hs.
    pose proof (find_if_before stop (drop p samples)) as Hbefore.
    rewrite Forall_lookup in Hbefore.
    specialize (Hbefore (j - p) s). unfold stop in Hbefore at 2.
    apply negb_false_iff, Hbefore.
    rewrite lookup_take_lt by lia. rewrite lookup_drop.
    by replace (p + (j - p)) with j by lia.
  - intros s Hs.
    pose proof (find_if_le stop (drop p samples)) as Hle.
    rewrite length_drop in Hle.
    apply lookup_lt_Some in Hs as Hlt.
    destruct (find_if_found stop (drop p samples)) as (a & l' & Hdrop & Ha).
    { rewrite length_drop. lia. }
    rewrite drop_drop in Hdrop.
    assert (samples !! (p + find_if stop (drop p samples)) = Some a) as Hsa.
    { rewrite <-(Nat.add_0_r (p + _)), <-lookup_drop, Hdrop. done. }
    assert (a = s) as -> by congruence. unfold stop in Ha.
    by apply negb_true_iff in Ha.
Qed.

Lemma makeFixedSample_passed front s1 rest (N : nat) last' :
  let samples := front :: s1 :: rest in
  let first := front.2 in
  let last := (default front (list.last samples)).2 in
  let sign := direction_sign first last in
  monotonic_loop sign front.2 last (s1 :: rest) = Some last' →
  last' = last
  ∧ makeFixedSample (mkCurve samples) N
    = ([], outs ← outputs samples N first last sign front;
           Some (addSamples (front :: outs) Curve_empty)).
Proof.
  intros samples first last sign Hloop.
  assert (last' = last) as ->.
  { rewrite (monotonic_loop_last _ _ _ _ _ front Hloop) by done. done. }
  split; [done|].
  unfold sign, last, first, samples in Hloop |- *.
  rewrite makeFixedSample_equation_3. cbv zeta. rewrite Hloop.
  by rewrite monotonic_branch_spec.
Qed.

Lemma makeFixedSample_violated front s1 rest (N : nat) :
  let samples := front :: s1 :: rest in
  let first := front.2 in
  let last := (default front (list.last samples)).2 in
  let sign := direction_sign first last in
  monotonic_loop sign front.2 last (s1 :: rest) = None →
  makeFixedSample (mkCurve samples) N
  = ([warning], Some (Curve_fill N Color_zero))
  ∧ makeFixedSample (Curve_init Color_zero) N
    = ([], Some (Curve_fill N Color_zero)).
Proof.
  intros samples first last sign Hloop.
  assert (makeFixedSample (Curve_init Color_zero) N
          = ([], Some (Curve_fill N Color_zero))) as Hrec.
  { change (Curve_init Color_zero) with (mkCurve [(f0, Color_zero)]).
    by rewrite makeFixedSample_equation_2. }
  split; [|done].
  unfold sign, last, first, samples in Hloop |- *.
  rewrite makeFixedSample_equation_3. cbv zeta. rewrite Hloop.
  by rewrite Hrec.
Qed.

Lemma outputs_length samples (N : nat) first last sign front outs :
  outputs samples N first last sign front = Some outs → length outs = N - 1.
Proof.
  intros Houts. apply mapM_outputs_lookup in Houts as [Hlen _].
  by rewrite length_seq in Hlen.
Qed.

(** C6.  On a source of two samples or more that passes the check, the
    monotonic branch of [makeFixedSample] does what the design document says,
    for every sample count.  It adds the first source sample as it is, and
    then output samples 1 .. N-1 in turn, each through [addSample].  Output
    [i] is made from [targetColor = fit01(i/(N-1), firstColor, lastColor)],
    with [lastColor] the value of the last source sample, and from the scan
    pointer [p]: the pointer starts at 0, is carried over from one output to
    the next, never moves back, passes the samples whose mean lies above
    [mean(targetColor) * sign] and stops on the first whose mean does not;
    [lastVal] is the value of the sample just behind the pointer.  The value
    of output [i] is [fit01(factor, lastVal, source[p].value)] and its
    position [fit01(factor, source[p-1].position, source[p].position)], with
    [factor = lerpfactor(mean(targetColor), mean(lastVal),
    mean(source[p].value))].  The call returns a curve exactly when at every
    output the pointer has a sample under it and one before it; the curve
    then holds the first source sample and the N-1 outputs, in this very
    order when their positions do not decrease. *)
Theorem monotonic_branch_as_described front s1 rest numSamples last' :
  let samples := front :: s1 :: rest in
  let first := front.2 in
  let last := (default front (list.last samples)).2 in
  let sign := direction_sign first last in
  let pointer := pointer samples numSamples first last sign in
  let lastVal_at := lastVal_at samples numSamples first last sign front in
  let targetColor := targetColor numSamples first last in
  monotonic_loop sign front.2 last (s1 :: rest) = Some last' →
  last' = last
  ∧ makeFixedSample (mkCurve samples) numSamples
    = ([], outs ← outputs samples numSamples first last sign front;
           Some (addSamples (front :: outs) Curve_empty))
  ∧ pointer 0 = 0
  ∧ (∀ i, pointer (S i) = advance samples numSamples first last sign (S i)
                                  (pointer i)
          ∧ pointer i ≤ pointer (S i)
          ∧ (∀ j s, pointer i ≤ j < pointer (S i) → samples !! j = Some s →
               fgt (Math.avg s.2)
                   (fmul (Math.avg (targetColor (S i))) (of_int sign)) = true)
          ∧ (∀ s, samples !! pointer (S i) = Some s →
               fgt (Math.avg s.2)
                   (fmul (Math.avg (targetColor (S i))) (of_int sign))
               = false))
  ∧ (is_Some (makeFixedSample (mkCurve samples) numSamples).2
     ↔ ∀ i, 1 ≤ i < numSamples → 1 ≤ pointer i < length samples)
  ∧ (∀ outs,
       outputs samples numSamples first last sign front = Some outs →
       length outs = numSamples - 1
       ∧ (∀ i, 1 ≤ i < numSamples →
            ∃ sp sp1,
              samples !! pointer i = Some sp
              ∧ at_pred samples (pointer i) = Some sp1
              ∧ lastVal_at i = sp1.2
              ∧ let factor :=
                  Imath.lerpfactor (Math.avg (targetColor i))
                                   (Math.avg (lastVal_at i)) (Math.avg sp.2) in
                outs !! (i - 1)
                = Some (Math.fit01f factor sp1.1 sp.1,
                        Math.fit01 factor (lastVal_at i) sp.2))
       ∧ (nondecreasing (front :: outs) →
          m_samples (addSamples (front :: outs) Curve_empty) = front :: outs)).
Proof.
  intros samples first last sign pointer lastVal_at targetColor Hloop.
  destruct (makeFixedSample_passed front s1 rest numSamples last' Hloop)
    as [-> Hmake].
  fold samples first last sign in Hmake.
  assert (∀ i, 1 ≤ i < numSamples →
            is_Some (output samples numSamples first last sign front i)
            ↔ 1 ≤ pointer i < length samples) as Hdefined.
  { intros i Hi. split.
    - intros [o Ho]. by eapply output_pointer.
    - intros [Hp1 Hp2]. unfold output. fold pointer. simpl.
      destruct (lookup_lt_is_Some_2 samples _ Hp2) as [sp ->]. simpl.
      destruct (pointer i) as [|q] eqn:Hq; [lia|]. simpl.
      destruct (lookup_lt_is_Some_2 samples q) as [sp1 ->]; [lia|]. done. }
  split_and!; [done|done|done| | |].
  - intros i. split; [done|].
    change (pointer (S i))
      with (advance samples numSamples first last sign (S i) (pointer i)).
    apply advance_spec.
  - rewrite Hmake. simpl. unfold outputs.
    destruct (mapM _ _) as [outs|] eqn:Hm; simpl.
    + split; [|by eexists]. intros _ i Hi. apply Hdefined; [done|].
      apply mapM_outputs_lookup in Hm as [Hlen Hm].
      rewrite (Hm (i - 1) i).
      * apply lookup_lt_is_Some_2. rewrite Hlen, length_seq. lia.
      * rewrite lookup_seq. split; [f_equal|]; lia.
    + split; [by intros [? ?]|]. intros Hall. exfalso.
      assert (is_Some (mapM (output samples numSamples first last sign front)
                            (seq 1 (numSamples - 1)))) as [? ?]; [|congruence].
      apply mapM_is_Some, Forall_forall. intros i Hi.
      apply elem_of_seq in Hi. apply Hdefined; [lia|]. apply Hall. lia.
  - intros outs Houts. unfold outputs in Houts.
    apply mapM_outputs_lookup in Houts as [Hlen Hout].
    rewrite length_seq in Hlen. split_and!; [done| |].
    + intros i Hi.
      assert (output samples numSamples first last sign front i
              = outs !! (i - 1)) as Ho.
      { apply Hout. rewrite lookup_seq. split; [f_equal|]; lia. }
      assert (is_Some (outs !! (i - 1))) as [o Hoi].
      { apply lookup_lt_is_Some_2. lia. }
      rewrite Hoi in Ho |- *.
      pose proof (output_pointer _ _ _ _ _ _ _ _ Ho) as Hp. fold pointer in Hp.
      pose proof (lastVal_at_pointer samples numSamples first last sign front i
                    (proj1 Hp)) as Hlast.
      fold pointer in Hlast. fold lastVal_at in Hlast.
      unfold output in Ho. fold pointer in Ho. fold lastVal_at in Ho.
      fold (targetColor i) in Ho. simpl in Ho.
      destruct (samples !! pointer i) as [sp|]; simpl in Ho; [|done].
      destruct (at_pred samples (pointer i)) as [sp1|]; simpl in Ho; [|done].
      exists sp, sp1. split_and!; [done..|]. simpl. congruence.
    + intros Hs.
      change (addSamples (front :: outs) Curve_empty)
        with (addSamples (front :: outs) (mkCurve (F := F) (T := Color F) [])).
      by rewrite addSamples_nondecreasing_id.
Qed.

(** C5.  When the monotonicity loop finds a violation on a source of two
    samples or more, [makeFixedSample] logs one warning and returns what its
    recursive call on a curve of one zero-color sample returns: a curve of N
    samples, all of the zero color.  It returns a curve: no error is raised
    or passed on. *)
Theorem violation_degrades_to_zero front s1 rest (N : nat) :
  let samples := front :: s1 :: rest in
  let first := front.2 in
  let last := (default front (list.last samples)).2 in
  let sign := direction_sign first last in
  monotonic_loop sign front.2 last (s1 :: rest) = None →
  makeFixedSample (mkCurve samples) N
  = ([warning], Some (Curve_fill N Color_zero))
  ∧ makeFixedSample (Curve_init Color_zero) N
    = ([], Some (Curve_fill N Color_zero))
  ∧ numSamples (Curve_fill (F := F) N Color_zero) = N
  ∧ Forall (λ s, s.2 = Color_zero) (m_samples (Curve_fill (F := F) N Color_zero)).
Proof.
  intros samples first last sign Hloop.
  destruct (makeFixedSample_violated front s1 rest N Hloop) as [Hmake Hrec].
  split_and!; [done|done|apply Curve_fill_length|apply Curve_fill_values].
Qed.

Lemma addSamples_length {T} (calls : list (F * T)) (c : Curve F T) :
  numSamples (addSamples calls c) = length calls + numSamples c.
Proof.
  revert c. induction calls as [|[t v] calls IH]; intros c; [done|].
  change (addSamples ((t, v) :: calls) c)
    with (addSamples calls (addSample t v c)).
  rewrite IH, addSample_length. simpl. lia.
Qed.

(** Whenever [makeFixedSample] returns a curve, for a sample count of one
    or more, the curve has that many samples. *)
Lemma makeFixedSample_size (curve : Curve F (Color F)) (N : nat) r :
  1 ≤ N → (makeFixedSample curve N).2 = Some r → numSamples r = N.
Proof.
  intros HN. destruct curve as [[|front [|s1 rest]]].
  - rewrite makeFixedSample_equation_1. simpl. intros [= <-].
    apply Curve_fill_length.
  - rewrite makeFixedSample_equation_2. simpl. intros [= <-].
    apply Curve_fill_length.
  - destruct (monotonic_loop
                (direction_sign front.2
                   (default front (list.last (front :: s1 :: rest))).2)
                front.2 (default front (list.last (front :: s1 :: rest))).2
                (s1 :: rest)) as [last'|] eqn:Hloop.
    + destruct (makeFixedSample_passed front s1 rest N last' Hloop)
        as (_ & ->).
      simpl. destruct (outputs _ _ _ _ _ _) as [outs|] eqn:Ho; [|done].
      simpl. intros [= <-].
      rewrite addSamples_length. simpl. rewrite (outputs_length _ _ _ _ _ _ _ Ho).
      unfold numSamples. simpl. lia.
    + destruct (makeFixedSample_violated front s1 rest N Hloop) as (-> & _).
      simpl. intros [= <-]. apply Curve_fill_length.
Qed.
End resampler.
End Resampler.

(** ** The resampler on binary32 curves *)

Module ResamplerExamples.
Import Util Render Resampler Binary32 Inputs.OnBinary32.

(** C3.  [makeFixedSample] does not return N samples for every source: on
    the two-sample source of constant transmittance and N = 2 it reads
    [samples[p - 1]] with [p = 0], outside the vector, and has no defined
    result. *)
Theorem constant_source_has_no_result :
  numSamples constant_source = 2
  ∧ makeFixedSample constant_source 2 = ([], None).
Proof. split; vm_compute; reflexivity. Qed.

(** C4.  The monotonicity loop does not compare a sample with its
    predecessor: on transmittance 1, 0.5, 0.75 the third sample exceeds the
    second, the check in the document's words sees it, and the loop of the
    code, which compares every sample with the first, finds no violation and
    lets the curve through to be resampled without a warning. *)
Theorem dented_source_passes_the_check :
  let samples := m_samples dented_source in
  let front := (of_Z 0, gray (of_Z 1)) in
  let first := gray (of_Z 1) in
  let last := gray (dyadic 3 2) in
  samples = [front; (of_Z 1, gray (dyadic 1 1)); (of_Z 2, last)]
  ∧ direction_sign first last = 1%Z
  ∧ exceeds_predecessor 1 first (drop 1 samples) = true
  ∧ monotonic_loop 1 first last (drop 1 samples) = Some last
  ∧ (makeFixedSample dented_source 3).1 = []
  ∧ is_Some (makeFixedSample dented_source 3).2.
Proof. split_and!; vm_compute; try reflexivity. by eexists. Qed.

(** C10.  The scan pointer is not at 1 or more wherever [samples[p - 1]] is
    read: on the two-sample source of constant transmittance, which passes
    the check, and N = 2, the pointer is still 0 at output 1, so that
    [samples[p - 1]] is read outside the vector. *)
Theorem constant_source_pointer_is_zero :
  let samples := m_samples constant_source in
  let first := gray (of_Z 1) in
  let last := gray (of_Z 1) in
  samples = [(of_Z 0, first); (of_Z 1, last)]
  ∧ direction_sign first last = 1%Z
  ∧ monotonic_loop 1 first last (drop 1 samples) = Some last
  ∧ pointer samples 2 first last 1 1 = 0
  ∧ at_pred samples (pointer samples 2 first last 1 1) = None
  ∧ for_body samples 2 first last 1
             (mkLoopState first 0 (addSample (of_Z 0) first Curve_empty)) 1
    = None.
Proof. split_and!; vm_compute; reflexivity. Qed.

Lemma makeFixedSample_size_witness :
  from_option numSamples 0 (makeFixedSample falling_source 3).2 = 3.
Proof.
  destruct (makeFixedSample falling_source 3).2 as [r|] eqn:Hr; simpl.
  - apply (makeFixedSample_size falling_source 3 r); [lia|exact Hr].
  - vm_compute in Hr. discriminate Hr.
Defined.

Lemma violation_degrades_to_zero_witness :
  let front := (of_Z 0, gray (of_Z 1)) in
  let s1 := (of_Z 1, gray (of_Z 2)) in
  makeFixedSample (mkCurve [front; s1]) 3
  = ([warning], Some (Curve_fill 3 Color_zero)).
Proof.
  intros front s1.
  assert (monotonic_loop
            (direction_sign front.2 (default front (list.last [front; s1])).2)
            front.2 (default front (list.last [front; s1])).2 [s1]
          = None) as Hloop by (vm_compute; reflexivity).
  exact (proj1 (violation_degrades_to_zero front s1 [] 3 Hloop)).
Defined.

Lemma monotonic_branch_as_described_witness :
  let front := (of_Z 0, gray (of_Z 1)) in
  let s1 := (of_Z 1, gray (dyadic 1 1)) in
  let rest := [(of_Z 2, gray (dyadic 1 2))] in
  let samples := front :: s1 :: rest in
  let first := front.2 in
  let last := (default front (list.last samples)).2 in
  let sign := direction_sign first last in
  makeFixedSample (mkCurve samples) 3
  = ([], outs ← outputs samples 3 first last sign front;
         Some (addSamples (front :: outs) Curve_empty)).
Proof.
  intros front s1 rest samples first last sign.
  assert (monotonic_loop sign front.2 last (s1 :: rest)
          = Some (gray (dyadic 1 2))) as Hloop by (vm_compute; reflexivity).
  exact (proj1 (proj2 (monotonic_branch_as_described
                          front s1 rest 3 (gray (dyadic 1 2)) Hloop))).
Defined.
End ResamplerExamples.

(** ** The deep image *)

Module DeepImageProperties.
Import Util Render.
Section store.
Context {F : Type} `{Float F}.
Implicit Types (img : DeepImage) (σ : gmap loc (Curve F (Color F))).
Implicit Types (c : Curve F (Color F)) (ptr l : loc).

Lemma new_curve_fresh c σ : σ !! (new_curve c σ).1 = None.
Proof. unfold new_curve. simpl. apply not_elem_of_dom, is_fresh. Qed.

Lemma new_curve_lookup c σ : (new_curve c σ).2 !! (new_curve c σ).1 = Some c.
Proof. unfold new_curve. simpl. apply lookup_insert_eq. Qed.

Lemma new_curve_other c σ l :
  l ≠ (new_curve c σ).1 → (new_curve c σ).2 !! l = σ !! l.
Proof. unfold new_curve. simpl. intros Hne. by apply lookup_insert_ne. Qed.

(** A call through a pointer changes the curve behind it and no other. *)
Lemma addSamples_at_frame ptr (calls : list (F * Color F)) σ c :
  σ !! ptr = Some c →
  ∃ σ', addSamples_at ptr calls σ = Some σ'
        ∧ σ' !! ptr = Some (addSamples calls c)
        ∧ ∀ l, l ≠ ptr → σ' !! l = σ !! l.
Proof.
  revert σ c. induction calls as [|[t v] calls IH]; intros σ c Hc; simpl.
  { exists σ. done. }
  unfold addSample_at. rewrite Hc. simpl.
  destruct (IH (<[ptr := addSample t v c]> σ) (addSample t v c))
    as (σ' & Hσ' & Hptr & Hother).
  { apply lookup_insert_eq. }
  exists σ'. split_and!; [done..|].
  intros l Hl. rewrite Hother by done. by apply lookup_insert_ne.
Qed.

(** What the image reads of the store are the curves of its pixels. *)
Lemma pixel_elem img (x y : Z) l : pixel img x y = Some l → l ∈ m_pixels img.
Proof. unfold pixel. apply list_elem_of_lookup_2. Qed.

Lemma pixel_curve_ext img σ1 σ2 (x y : Z) :
  (∀ l, l ∈ m_pixels img → σ1 !! l = σ2 !! l) →
  pixel img x y ≫= (σ1 !!.) = pixel img x y ≫= (σ2 !!.).
Proof.
  intros Hext. destruct (pixel img x y) as [l|] eqn:Hl; simpl; [|done].
  apply Hext. by eapply pixel_elem.
Qed.

Lemma lerp_ext img σ1 σ2 (rsX rsY z : F) :
  (∀ l, l ∈ m_pixels img → σ1 !! l = σ2 !! l) →
  lerp img rsX rsY z σ1 = lerp img rsX rsY z σ2.
Proof.
  intros Hext. unfold lerp.
  destruct (to_size_t (ffloor rsX)) as [xMin|]; simpl; [|done].
  destruct (to_size_t (fceil rsX)) as [xMax|]; simpl; [|done].
  destruct (to_size_t (ffloor rsY)) as [yMin|]; simpl; [|done].
  destruct (to_size_t (fceil rsY)) as [yMax|]; simpl; [|done].
  by rewrite !(pixel_curve_ext img σ1 σ2).
Qed.

Lemma pixelFunction_ext img σ1 σ2 (x y : Z) :
  (∀ l, l ∈ m_pixels img → σ1 !! l = σ2 !! l) →
  returned_curve (pixelFunction img x y σ1)
  = returned_curve (pixelFunction img x y σ2).
Proof.
  intros Hext. unfold pixelFunction.
  destruct (assert _); simpl; [|done].
  destruct (assert _); simpl; [|done].
  destruct (m_pixels img !! _) as [l|] eqn:Hl; simpl; [|done].
  rewrite <-(Hext l) by (by eapply list_elem_of_lookup_2).
  destruct (σ1 !! l) as [c|]; simpl; [|done].
  unfold new_curve. by rewrite !lookup_insert_eq.
Qed.

(** In an image as [setSize] makes it, every coordinate inside the image
    has its pixel. *)
Lemma pixel_in_range img σ (x y : Z) :
  wf_image img σ → (0 ≤ x < m_width img)%Z → (0 ≤ y < m_height img)%Z →
  ∃ l c, pixel img x y = Some l ∧ σ !! l = Some c.
Proof.
  intros [Hw Hh Harea Hlen Halive _] Hx Hy. unfold pixel.
  assert (0 ≤ x + y * m_width img < m_width img * m_height img)%Z as Hidx by nia.
  assert (size_t_add x (size_t_mul y (m_width img)) = x + y * m_width img)%Z
    as ->.
  { unfold size_t_add, size_t_mul, size_t_modulus in *.
    rewrite (Z.mod_small (y * _)) by nia. rewrite Z.mod_small by nia. done. }
  destruct (lookup_lt_is_Some_2 (m_pixels img)
              (Z.to_nat (x + y * m_width img))) as [l Hl].
  { rewrite Hlen. lia. }
  destruct (Halive l) as [c Hc]; [by eapply list_elem_of_lookup_2|].
  exists l, c. done.
Qed.

Lemma resize_S (n : nat) σ :
  resize (S n) σ
  = ((new_curve Curve_empty σ).1 :: (resize n (new_curve Curve_empty σ).2).1,
     (resize n (new_curve Curve_empty σ).2).2).
Proof. simpl. by destruct (resize n _). Qed.

Lemma resize_spec (n : nat) σ :
  length (resize n σ).1 = n
  ∧ NoDup (resize n σ).1
  ∧ (∀ l, l ∈ (resize n σ).1 →
       σ !! l = None ∧ (resize n σ).2 !! l = Some Curve_empty)
  ∧ (∀ l, l ∉ (resize n σ).1 → (resize n σ).2 !! l = σ !! l).
Proof.
  revert σ. induction n as [|n IH]; intros σ.
  { simpl. split_and!; [done|constructor|set_solver|done]. }
  rewrite resize_S.
  pose proof (new_curve_fresh Curve_empty σ) as Hfresh.
  pose proof (new_curve_lookup Curve_empty σ) as Hnew.
  pose proof (new_curve_other Curve_empty σ) as Hother.
  destruct (new_curve Curve_empty σ) as [l σ1]. cbn [fst snd] in *.
  specialize (IH σ1). destruct (resize n σ1) as [ls σ2].
  cbn [fst snd] in *.
  destruct IH as (Hlen & Hnodup & Hin & Hout).
  assert (l ∉ ls) as Hl.
  { intros Hl. destruct (Hin l Hl) as [Hnone _]. congruence. }
  split_and!.
  - simpl. by f_equal.
  - by constructor.
  - intros l' [->|Hl']%elem_of_cons.
    + split; [done|]. by rewrite Hout.
    + destruct (Hin l' Hl') as [Hnone Hsome]. split; [|done].
      rewrite <-Hother; [done|]. intros ->. congruence.
  - intros l' Hl'. apply not_elem_of_cons in Hl' as [Hne Hl'].
    rewrite Hout by done. by apply Hother.
Qed.

Lemma setSize_wf (width height : Z) img σ :
  (0 ≤ width)%Z → (0 ≤ height)%Z → (width * height < size_t_modulus)%Z →
  wf_image (setSize width height img σ).1 (setSize width height img σ).2.
Proof.
  intros Hw Hh Harea. unfold setSize.
  assert (size_t_mul width height = width * height)%Z as ->.
  { unfold size_t_mul. apply Z.mod_small. nia. }
  pose proof (resize_spec (Z.to_nat (width * height))
                (swapClear (m_pixels img) σ)) as (Hlen & Hnodup & Hin & _).
  destruct (resize _ _) as [pixels σ']. simpl in *.
  split; simpl; [done..| |done].
  intros l Hl. destruct (Hin l Hl) as [_ ->]. by eexists.
Qed.

Lemma DeepImage_new_wf σ : wf_image (DeepImage_new σ).1 (DeepImage_new σ).2.
Proof. apply setSize_wf; unfold size_t_modulus; lia. Qed.

Lemma wf_image_ext img σ1 σ2 :
  wf_image img σ1 →
  (∀ l, l ∈ m_pixels img → is_Some (σ1 !! l) → is_Some (σ2 !! l)) →
  wf_image img σ2.
Proof. intros [] Hext. split; try done. intros l Hl. eauto. Qed.

Lemma setPixel_wf img (x y : Z) (func : loc) σ σ' log :
  wf_image img σ → setPixel img x y func σ = (log, Some σ') → wf_image img σ'.
Proof.
  intros Hwf. unfold setPixel.
  destruct (_ ≫= _) as [curve|]; [|done].
  destruct (makeFixedSample _ _) as [log' [fixedSampleCurve|]]; simpl; [|done].
  destruct (pixel img x y) as [l|]; simpl; [|done].
  intros [= _ <-]. apply (wf_image_ext img σ); [done|].
  intros l' _ Hl'. rewrite lookup_insert. by case_decide.
Qed.

(** C9.  In an image as [setSize] and [setPixel] leave it, [pixelFunction]
    at a coordinate inside the image returns a pointer to a new curve that
    is a copy of the pixel's curve and is none of the image's pixels.  The
    call itself changes no other curve, and whatever samples are then added
    through the returned pointer, they are added to the copy: every pixel of
    the image still holds the curve it held, so that [lerp] returns what it
    returned before at every argument, and [pixelFunction] a copy of the same
    curve as before at every coordinate. *)
Theorem pixelFunction_returns_independent_copy img σ (x y : Z) :
  wf_image img σ → (0 ≤ x < m_width img)%Z → (0 ≤ y < m_height img)%Z →
  ∃ ptr σ' l c,
    pixel img x y = Some l ∧ σ !! l = Some c
    ∧ pixelFunction img x y σ = Some (ptr, σ')
    ∧ σ' !! ptr = Some c
    ∧ (ptr ∉ m_pixels img)
    ∧ (∀ l', l' ≠ ptr → σ' !! l' = σ !! l')
    ∧ (∀ calls : list (F * Color F),
         ∃ σ'',
           addSamples_at ptr calls σ' = Some σ''
           ∧ σ'' !! ptr = Some (addSamples calls c)
           ∧ (∀ l', l' ∈ m_pixels img → σ'' !! l' = σ !! l')
           ∧ (∀ rsX rsY z : F, lerp img rsX rsY z σ'' = lerp img rsX rsY z σ)
           ∧ (∀ x' y' : Z,
                returned_curve (pixelFunction img x' y' σ'')
                = returned_curve (pixelFunction img x' y' σ))
           ∧ wf_image img σ'').
Proof.
  intros Hwf Hx Hy.
  destruct (pixel_in_range img σ x y Hwf Hx Hy) as (l & c & Hl & Hc).
  pose proof (new_curve_fresh c σ) as Hfresh.
  pose proof (new_curve_lookup c σ) as Hnew.
  pose proof (new_curve_other c σ) as Hother.
  destruct (new_curve c σ) as [ptr σ'] eqn:Hptr. simpl in *.
  exists ptr, σ', l, c.
  assert (ptr ∉ m_pixels img) as Hnotin.
  { intros Hin. destruct (wf_alive _ _ Hwf ptr Hin) as [? ?]. congruence. }
  split_and!; [done..| |done|done|done|].
  { unfold pixelFunction. unfold pixel in Hl.
    rewrite (proj2 (Z.ltb_lt _ _)) by lia.
    rewrite (proj2 (Z.ltb_lt _ _)) by lia. simpl.
    rewrite Hl. simpl. rewrite Hc. simpl. by rewrite Hptr. }
  intros calls.
  destruct (addSamples_at_frame ptr calls σ' c Hnew) as (σ'' & Hσ'' & Hp & Hfr).
  exists σ''.
  assert (∀ l', l' ∈ m_pixels img → σ'' !! l' = σ !! l') as Hpixels.
  { intros l' Hl'. assert (l' ≠ ptr) as Hne by (by intros ->).
    rewrite Hfr by done. by apply Hother. }
  split_and!; [done..| | |].
  - intros rsX rsY z. by apply lerp_ext.
  - intros x' y'. by apply pixelFunction_ext.
  - apply (wf_image_ext img σ); [done|]. intros l' Hl' Hs.
    by rewrite Hpixels.
Qed.
End store.
End DeepImageProperties.

(** ** The lookup *)

Module Lookup.
Import Util Render CurveProperties DeepImageProperties.

Section lerp.
Context {F : Type} `{Float F}.
Implicit Types (img : DeepImage) (σ : gmap loc (Curve F (Color F))).

Lemma clamp_min (a hi : Z) :
  (0 ≤ a)%Z → Imath.clamp a 0 hi = Z.min a hi.
Proof. intros Ha. unfold Imath.clamp. repeat case_match; lia. Qed.

Lemma to_size_t_Some (n : Z) :
  (0 ≤ n < size_t_modulus)%Z → to_size_t (Some n) = Some n.
Proof. intros Hn. unfold to_size_t. simpl. by rewrite decide_True. Qed.

Lemma to_size_t_negative (n : Z) : (n < 0)%Z → to_size_t (Some n) = None.
Proof. intros Hn. unfold to_size_t. simpl. rewrite decide_False; [done|lia]. Qed.

(** The lookup at coordinates whose [floor] and [ceil] are [size_t]
    values. *)
Lemma lerp_defined img σ (rsX rsY z : F) (fx cx fy cy : Z) :
  wf_image img σ → (1 ≤ m_width img)%Z → (1 ≤ m_height img)%Z →
  ffloor rsX = Some fx → fceil rsX = Some cx →
  ffloor rsY = Some fy → fceil rsY = Some cy →
  (0 ≤ fx < size_t_modulus)%Z → (0 ≤ cx < size_t_modulus)%Z →
  (0 ≤ fy < size_t_modulus)%Z → (0 ≤ cy < size_t_modulus)%Z →
  let xMin := Z.min fx (m_width img - 1) in
  let xMax := Z.min cx (m_width img - 1) in
  let yMin := Z.min fy (m_height img - 1) in
  let yMax := Z.min cy (m_height img - 1) in
  ∃ c00 c10 c01 c11,
    pixel img xMin yMin ≫= (σ !!.) = Some c00
    ∧ pixel img xMax yMin ≫= (σ !!.) = Some c10
    ∧ pixel img xMin yMax ≫= (σ !!.) = Some c01
    ∧ pixel img xMax yMax ≫= (σ !!.) = Some c11
    ∧ lerp img rsX rsY z σ
      = Some (Math.lerp2D (fsub rsX (of_int xMin)) (fsub rsY (of_int yMin))
                          (interpolate c00 z) (interpolate c10 z)
                          (interpolate c01 z) (interpolate c11 z)).
Proof.
  intros Hwf Hw Hh Hfx Hcx Hfy Hcy Hfx' Hcx' Hfy' Hcy' xMin xMax yMin yMax.
  assert (m_width img < size_t_modulus ∧ m_height img < size_t_modulus)%Z
    as [Hw' Hh'].
  { destruct Hwf as [_ _ Harea _ _ _]. nia. }
  assert (∀ a b, (0 ≤ a < m_width img)%Z → (0 ≤ b < m_height img)%Z →
            is_Some (pixel img a b ≫= (σ !!.))) as Hpix.
  { intros a b Ha Hb.
    destruct (pixel_in_range img σ a b Hwf Ha Hb) as (l & c & -> & Hc).
    simpl. by rewrite Hc. }
  destruct (Hpix xMin yMin) as [c00 H00]; [lia..|].
  destruct (Hpix xMax yMin) as [c10 H10]; [lia..|].
  destruct (Hpix xMin yMax) as [c01 H01]; [lia..|].
  destruct (Hpix xMax yMax) as [c11 H11]; [lia..|].
  exists c00, c10, c01, c11. split_and!; [done..|].
  unfold lerp. rewrite Hfx, Hcx, Hfy, Hcy.
  rewrite !to_size_t_Some by done. simpl.
  assert (size_t_sub (m_width img) 1 = m_width img - 1)%Z as ->.
  { unfold size_t_sub. apply Z.mod_small. lia. }
  assert (size_t_sub (m_height img) 1 = m_height img - 1)%Z as ->.
  { unfold size_t_sub. apply Z.mod_small. lia. }
  rewrite !clamp_min by lia.
  fold xMin xMax yMin yMax. rewrite H00, H10, H01, H11. done.
Qed.

(** At such coordinates the lookup is the one of the design document. *)
Lemma lerp_as_described img σ (rsX rsY z : F) (fx cx fy cy : Z) :
  wf_image img σ → (1 ≤ m_width img)%Z → (1 ≤ m_height img)%Z →
  ffloor rsX = Some fx → fceil rsX = Some cx →
  ffloor rsY = Some fy → fceil rsY = Some cy →
  (0 ≤ fx < size_t_modulus)%Z → (0 ≤ cx < size_t_modulus)%Z →
  (0 ≤ fy < size_t_modulus)%Z → (0 ≤ cy < size_t_modulus)%Z →
  lerp img rsX rsY z σ = lerp_described img rsX rsY z σ.
Proof.
  intros Hwf Hw Hh Hfx Hcx Hfy Hcy Hfx' Hcx' Hfy' Hcy'.
  assert (m_width img < size_t_modulus ∧ m_height img < size_t_modulus)%Z
    as [Hw' Hh'].
  { destruct Hwf as [_ _ Harea _ _ _]. nia. }
  unfold lerp, lerp_described. rewrite Hfx, Hcx, Hfy, Hcy.
  rewrite !to_size_t_Some by done. simpl.
  assert (size_t_sub (m_width img) 1 = m_width img - 1)%Z as ->.
  { unfold size_t_sub. apply Z.mod_small. lia. }
  assert (size_t_sub (m_height img) 1 = m_height img - 1)%Z as ->.
  { unfold size_t_sub. apply Z.mod_small. lia. }
  done.
Qed.

(** The lookup of the design document has a result wherever [floor] and
    [ceil] denote integers, negative ones included. *)
Lemma lerp_described_defined img σ (rsX rsY z : F) (fx cx fy cy : Z) :
  wf_image img σ → (1 ≤ m_width img)%Z → (1 ≤ m_height img)%Z →
  ffloor rsX = Some fx → fceil rsX = Some cx →
  ffloor rsY = Some fy → fceil rsY = Some cy →
  is_Some (lerp_described img rsX rsY z σ).
Proof.
  intros Hwf Hw Hh Hfx Hcx Hfy Hcy.
  assert (∀ a hi, (0 ≤ hi)%Z → (0 ≤ Imath.clamp a 0 hi ≤ hi)%Z) as Hclamp.
  { intros a hi Hhi. unfold Imath.clamp. repeat case_match; lia. }
  assert (∀ a b, is_Some (pixel img (Imath.clamp a 0 (m_width img - 1))
                               (Imath.clamp b 0 (m_height img - 1))
                          ≫= (σ !!.))) as Hpix.
  { intros a b.
    destruct (pixel_in_range img σ (Imath.clamp a 0 (m_width img - 1))
                (Imath.clamp b 0 (m_height img - 1)) Hwf)
      as (l & c & -> & Hc).
    - pose proof (Hclamp a (m_width img - 1)%Z). lia.
    - pose proof (Hclamp b (m_height img - 1)%Z). lia.
    - simpl. by rewrite Hc. }
  unfold lerp_described. rewrite Hfx, Hcx, Hfy, Hcy. simpl.
  destruct (Hpix fx fy) as [c00 ->]. destruct (Hpix cx fy) as [c10 ->].
  destruct (Hpix fx cy) as [c01 ->]. destruct (Hpix cx cy) as [c11 ->].
  simpl. by eexists.
Qed.

(** The lookup of the code has none where [floor(rsX)] or [floor(rsY)] is
    negative: the value is converted to [size_t] before it is clamped. *)
Lemma lerp_negative img σ (rsX rsY z : F) (n : Z) :
  ffloor rsX = Some n ∨ ffloor rsY = Some n →
  (n < 0)%Z → lerp img rsX rsY z σ = None.
Proof.
  intros [Hx|Hy] Hn; unfold lerp.
  - by rewrite Hx, to_size_t_negative.
  - destruct (to_size_t (ffloor rsX)); [simpl|done].
    destruct (to_size_t (fceil rsX)); [simpl|done].
    by rewrite Hy, to_size_t_negative.
Qed.
End lerp.
End Lookup.

(** ** A four-pixel image *)

Module LookupExamples.
Import Util Render DeepImageProperties Lookup Exact ExactOrder.
Import Inputs.OnRationals.

Lemma four_pixels_wf : wf_image four_pixels four_curves.
Proof.
  split; simpl; [lia|lia|unfold size_t_modulus; lia|done| |].
  - intros l Hl. unfold four_curves.
    repeat (apply elem_of_cons in Hl as [->|Hl]; [by eexists|]).
    by apply elem_of_nil in Hl.
  - apply NoDup_ListNoDup. repeat constructor; simpl; intuition lia.
Qed.

Lemma pixelFunction_returns_independent_copy_witness :
  ∃ ptr σ',
    pixelFunction four_pixels 1 1 four_curves = Some (ptr, σ')
    ∧ σ' !! ptr = Some (Curve_init (rgb 4 4 4))
    ∧ ∃ σ'', addSamples_at ptr [(1%Qc, rgb 0 0 0)] σ' = Some σ''
             ∧ ∀ x' y' : Z,
                 returned_curve (pixelFunction four_pixels x' y' σ'')
                 = returned_curve (pixelFunction four_pixels x' y' four_curves).
Proof.
  destruct (pixelFunction_returns_independent_copy
              four_pixels four_curves 1 1 four_pixels_wf)
    as (ptr & σ' & l & c & Hl & Hc & Hcall & Hcopy & _ & _ & Hframe);
    [simpl; lia..|].
  injection Hl as <-. injection Hc as <-.
  exists ptr, σ'. split_and!; [done..|].
  destruct (Hframe [(1%Qc, rgb 0 0 0)]) as (σ'' & Hadd & _ & _ & _ & Hsame & _).
  exists σ''. done.
Defined.
End LookupExamples.

(** ** The lookup at a negative coordinate *)

Module LookupOnBinary32.
Import Util Render Lookup Binary32 Inputs.OnBinary32.

Lemma gray_pixels_wf : wf_image gray_pixels gray_curves.
Proof.
  split; simpl; [lia|lia|unfold size_t_modulus; lia|done| |].
  - intros l Hl. unfold gray_curves.
    repeat (apply elem_of_cons in Hl as [->|Hl]; [by eexists|]).
    by apply elem_of_nil in Hl.
  - apply NoDup_ListNoDup. repeat constructor; simpl; intuition lia.
Qed.

(** C7 does not hold of the code.  The claim has [floor] and [ceil] of the
    coordinates "each clamped into [0, width-1] and [0, height-1]".  The
    code clamps as well, with the lower bound [zero], but only after it has
    converted [floor(rsX)] to [size_t], which is undefined for a negative
    value: on every float, a lookup whose [floor(rsX)] or [floor(rsY)] is
    negative has no result, while the lookup that clamps first, as the claim
    says, has one in every image of at least one pixel.  On binary32, in the
    2 x 2 image of the grays 1, 2, 3 and 4, at rsX = -0.5 and rsY = 0.5:
    [floor(rsX)] is -1 and the code's lookup has no result; clamped to
    column 0 the lookup is 2, between the grays 1 and 3 of that column.  At
    rsX = 0.5, in the same image, both lookups return 2.5. *)
Theorem lerp_converts_before_it_clamps :
  (∀ (F : Type) (H : Float F) (img : DeepImage)
     (σ : gmap loc (Curve F (Color F))) (rsX rsY z : F) (n : Z),
     ffloor rsX = Some n ∨ ffloor rsY = Some n →
     (n < 0)%Z →
     lerp img rsX rsY z σ = None
     ∧ (wf_image img σ → (1 ≤ m_width img)%Z → (1 ≤ m_height img)%Z →
        is_Some (ffloor rsX) → is_Some (fceil rsX) →
        is_Some (ffloor rsY) → is_Some (fceil rsY) →
        is_Some (lerp_described img rsX rsY z σ)))
  ∧ wf_image gray_pixels gray_curves
  ∧ ffloor minus_one_half = Some (-1)%Z
  ∧ lerp gray_pixels minus_one_half one_half f0 gray_curves = None
  ∧ lerp_described gray_pixels minus_one_half one_half f0 gray_curves
    = Some (gray (of_Z 2))
  ∧ lerp gray_pixels one_half one_half f0 gray_curves
    = Some (gray (dyadic 5 1))
  ∧ lerp_described gray_pixels one_half one_half f0 gray_curves
    = Some (gray (dyadic 5 1)).
Proof.
  split_and!.
  - intros F H img σ rsX rsY z n Hfloor Hn. split.
    + by apply (lerp_negative img σ rsX rsY z n).
    + intros Hwf Hw Hh [fx Hfx] [cx Hcx] [fy Hfy] [cy Hcy].
      by apply (lerp_described_defined img σ rsX rsY z fx cx fy cy).
  - apply gray_pixels_wf.
  - reflexivity.
  - vm_compute. reflexivity.
  - vm_compute. reflexivity.
  - vm_compute. reflexivity.
  - vm_compute. reflexivity.
Qed.
End LookupOnBinary32.

(** ** Clipping against the frustum *)

Module Frustum.
Import Render Exact ExactOrder Comparisons.

(** *** On every float: the parameters that are left *)

Section clipping.
Context {F : Type} `{Float F} `{!GtStrict F} `{!GtNumbers F}.
Implicit Types (p : Plane (F := F)) (wsRay : Ray (F := F)) (t : F).

Lemma number_0_1 : number (f0 : F) ∧ number (f1 : F).
Proof. destruct (fgt_number f1 f0 fgt_1_0). done. Qed.

(** The bounds of the running interval are numbers: a crossing that is a
    NaN never becomes a bound. *)
Lemma narrow_numbers wsRay (running : F * F) p :
  number running.1 → number running.2 →
  number (narrow wsRay running p).1 ∧ number (narrow wsRay running p).2.
Proof.
  destruct running as [tMin tMax]. simpl. intros Hmin Hmax. unfold narrow.
  destruct (fgt _ f0) eqn:Hpos;
    [|destruct (flt _ f0) eqn:Hneg; [|destruct (inside _ _)]]; simpl.
  - split; [done|]. destruct (flt _ tMax) eqn:Hlt; [|done].
    rewrite flt_fgt in Hlt. by apply fgt_number in Hlt as [_ ?].
  - split; [|done]. destruct (fgt _ tMin) eqn:Hgt; [|done].
    by apply fgt_number in Hgt as [? _].
  - done.
  - destruct number_0_1. done.
Qed.

(** Narrowing by a plane keeps the parameters of the running interval that
    the plane admits. *)
Lemma narrow_within wsRay (running : F * F) p t :
  number t → number running.1 → number running.2 →
  within (narrow wsRay running p) t ↔ within running t ∧ admits wsRay t p.
Proof.
  destruct running as [tMin tMax]. simpl. intros Ht Hmin Hmax.
  unfold narrow, admits, within.
  set (c := crossing wsRay p).
  destruct (fgt _ f0) eqn:Hpos;
    [|destruct (flt _ f0) eqn:Hneg; [|destruct (inside _ _) eqn:Hin]]; simpl.
  - destruct (flt c tMax) eqn:Hlt; simpl.
    + rewrite flt_fgt in Hlt. split; [|by intros [[? ?] ?]].
      intros [? Hc]. split_and!; [done| |done].
      apply not_true_is_false. intros Hgt.
      by rewrite (fgt_trans t tMax c Hgt Hlt) in Hc.
    + rewrite flt_fgt in Hlt. split; [|by intros [[? ?] ?]].
      intros [? Hmax']. split_and!; [done..|].
      apply not_true_is_false. intros Hgt.
      by rewrite (fgt_le_number t tMax c Hmax Hgt Hlt) in Hmax'.
  - destruct (fgt c tMin) eqn:Hgt; simpl.
    + split; [|by intros [[? ?] ?]].
      intros [Hc ?]. split_and!; [|done..].
      apply not_true_is_false. intros Hgt'.
      by rewrite (fgt_trans c tMin t Hgt Hgt') in Hc.
    + split; [|by intros [[? ?] ?]].
      intros [Hmin' ?]. split_and!; [done..|].
      apply not_true_is_false. intros Hgt'.
      by rewrite (fgt_ge_number t tMin c Hmin Hgt' Hgt) in Hmin'.
  - tauto.
  - split; [|by intros [_ ?]]. intros [H1 H0].
    by rewrite (fgt_le_number f1 t f0 Ht fgt_1_0 H0) in H1.
Qed.

Lemma foldl_narrow_within wsRay (planes : list Plane) (running : F * F) t :
  number t → number running.1 → number running.2 →
  (number (foldl (narrow wsRay) running planes).1
   ∧ number (foldl (narrow wsRay) running planes).2)
  ∧ (within (foldl (narrow wsRay) running planes) t
     ↔ within running t ∧ Forall (admits wsRay t) planes).
Proof.
  intros Ht. revert running.
  induction planes as [|p planes IH]; intros running Hmin Hmax; simpl.
  { split; [done|]. split; [by intros ?|by intros [? _]]. }
  destruct (narrow_numbers wsRay running p Hmin Hmax) as [Hmin' Hmax'].
  destruct (IH _ Hmin' Hmax') as [Hnumbers Hwithin].
  split; [done|].
  rewrite Hwithin, narrow_within, Forall_cons by done. tauto.
Qed.

(** An interval between numbers has [tMin > tMax] exactly when it holds no
    number. *)
Lemma reversed_empty (running : F * F) :
  number running.1 → number running.2 →
  fgt running.1 running.2 = true ↔ ¬ ∃ t, number t ∧ within running t.
Proof.
  destruct running as [tMin tMax]. simpl. intros Hmin Hmax. split.
  - intros Hgt (t & Ht & Hlow & Hhigh). simpl in *.
    by rewrite (fgt_le_number tMin t tMax Ht Hgt Hhigh) in Hlow.
  - intros Hnone. apply not_false_is_true. intros Hgt. apply Hnone.
    exists tMin. split; [done|]. split; simpl; [apply fgt_irrefl|done].
Qed.

(** No interval is returned exactly when no parameter from 0 to the largest
    float is admitted by all six planes. *)
Lemma intersect_admitted (f : FrustumMappingIntersection (F := F)) wsRay
    (time : PTime (F := F)) :
  intersect f wsRay time = []
  ↔ ¬ ∃ t, number t ∧ within start t
           ∧ Forall (admits wsRay t) (m_planes f).
Proof.
  destruct number_0_1 as [H0 _].
  pose proof (λ t Ht, foldl_narrow_within wsRay (m_planes f) start t Ht
                        H0 number_flt_max) as Hclip.
  fold (clip f wsRay) in Hclip.
  destruct (Hclip f0 H0) as [[Hmin Hmax] _].
  pose proof (reversed_empty (clip f wsRay) Hmin Hmax) as Hempty.
  unfold intersect. destruct (clip f wsRay) as [tMin tMax]. simpl in *.
  assert ((∃ t, number t ∧ within (tMin, tMax) t)
          ↔ ∃ t, number t ∧ within start t
                 ∧ Forall (admits wsRay t) (m_planes f)) as Hsame.
  { split; intros (t & Ht & Hin); exists t; (split; [done|]);
      by apply (Hclip t Ht). }
  rewrite <-Hsame, <-Hempty. by destruct (fgt tMin tMax).
Qed.

(** A plane along which the ray runs outside admits no parameter. *)
Lemma along_outside wsRay p t :
  along wsRay p = true → inside p (pos wsRay) = false → ¬ admits wsRay t p.
Proof.
  unfold along, admits. intros Halong Hout.
  apply andb_true_iff in Halong as [Hpos Hneg].
  apply negb_true_iff in Hpos, Hneg. rewrite Hpos, Hneg, Hout. done.
Qed.
End clipping.

(** *** Without rounding: where the ray is inside *)

Section meaning.
Local Open Scope Qc_scope.
Implicit Types (p : Plane (F := Qc)) (wsRay : Ray (F := Qc)) (t : Qc).

Lemma ge_spec (a b : Qc) : fge a b = true ↔ b ≤ a.
Proof. simpl. unfold ge. by rewrite bool_decide_eq_true. Qed.

Lemma lt_spec (a b : Qc) : flt a b = true ↔ a < b.
Proof. simpl. unfold lt. by rewrite bool_decide_eq_true. Qed.

Lemma dot_point_at p wsRay t :
  Imath.V3f_dot (normal p) (point_at wsRay t)
  = Imath.V3f_dot (normal p) (pos wsRay)
    + Imath.V3f_dot (normal p) (dir wsRay) * t.
Proof.
  destruct p as [[nx ny nz] d], wsRay as [[ox oy oz] [dx dy dz]].
  unfold point_at, Imath.V3f_dot, Imath.V3f_add, Imath.V3f_scale. simpl. ring.
Qed.

Lemma below_crossing (a k d t : Qc) :
  0 < k → t ≤ (d - a) / k ↔ a + k * t ≤ d.
Proof.
  intros Hk.
  assert (k ≠ 0) as Hk0 by (intros ->; by apply Qclt_not_eq in Hk).
  rewrite (Qcmult_le_mono_pos_r t ((d - a) / k) k Hk).
  replace ((d - a) / k * k) with (d - a) by (field; done).
  rewrite (Qcplus_le_mono_l (t * k) (d - a) a).
  replace (a + (d - a)) with d by ring.
  by replace (a + t * k) with (a + k * t) by ring.
Qed.

Lemma above_crossing (a k d t : Qc) :
  k < 0 → (d - a) / k ≤ t ↔ a + k * t ≤ d.
Proof.
  intros Hk.
  assert (k ≠ 0) as Hk0 by (intros ->; by apply Qclt_not_eq in Hk).
  assert (0 < - k) as Hk'.
  { apply (Qcplus_lt_mono_r _ _ k). by ring_simplify. }
  rewrite (Qcmult_le_mono_pos_r ((d - a) / k) t (- k) Hk').
  replace ((d - a) / k * - k) with (a - d) by (field; done).
  rewrite (Qcplus_le_mono_l (a - d) (t * - k) (d + k * t)).
  replace (d + k * t + (a - d)) with (a + k * t) by ring.
  by replace (d + k * t + t * - k) with d by ring.
Qed.

(** Without rounding a plane admits the parameters at which the ray is
    inside its half-space, also when the ray runs along the plane. *)
Lemma admits_inside wsRay t p :
  admits wsRay t p ↔ inside p (point_at wsRay t) = true.
Proof.
  assert (inside p (point_at wsRay t) = true
          ↔ Imath.V3f_dot (normal p) (pos wsRay)
            + Imath.V3f_dot (normal p) (dir wsRay) * t ≤ distance p) as ->.
  { unfold inside. by rewrite ge_spec, dot_point_at. }
  unfold admits, crossing.
  set (a := Imath.V3f_dot (normal p) (pos wsRay)).
  set (k := Imath.V3f_dot (normal p) (dir wsRay)).
  destruct (fgt k f0) eqn:Hpos.
  - apply gt_spec in Hpos.
    rewrite <-(below_crossing a k (distance p) t Hpos). apply gt_false.
  - apply gt_false in Hpos. destruct (flt k f0) eqn:Hneg.
    + apply lt_spec in Hneg.
      rewrite <-(above_crossing a k (distance p) t Hneg). apply gt_false.
    + assert (k = 0) as ->.
      { apply Qcle_antisym; [done|].
        apply Qcnot_lt_le. intros Hlt.
        assert (flt k f0 = true) as Htrue by (by apply lt_spec).
        congruence. }
      replace (a + 0 * t) with a by ring. unfold inside. fold a.
      apply ge_spec.
Qed.

(** A ray gets no interval exactly when it is inside all six half-spaces at
    no parameter from 0 to the largest float. *)
Lemma intersect_meaning (f : FrustumMappingIntersection (F := Qc)) wsRay
    (time : PTime (F := Qc)) :
  intersect f wsRay time = []
  ↔ ¬ ∃ t, 0 ≤ t ∧ t ≤ flt_max
           ∧ Forall (λ p, inside p (point_at wsRay t) = true) (m_planes f).
Proof.
  rewrite intersect_admitted.
  assert (∀ t, Forall (admits wsRay t) (m_planes f)
               ↔ Forall (λ p, inside p (point_at wsRay t) = true) (m_planes f))
    as Hsame.
  { intros t. rewrite !Forall_forall.
    split; intros Hall p Hp; apply admits_inside; by apply Hall. }
  split; intros Hnone (t & Ht); apply Hnone; exists t.
  - destruct Ht as (H0 & Hmax & Hall). split_and!.
    + unfold number. by apply ge_spec.
    + split; by apply gt_false.
    + by apply Hsame.
  - destruct Ht as (_ & [H0 Hmax] & Hall). split_and!.
    + by apply (gt_false 0 t).
    + by apply (gt_false t flt_max).
    + by apply Hsame.
Qed.
End meaning.

(** C8.  [intersect] narrows the running interval by the six planes, left,
    right, bottom, top, near and far in turn.  On every float, it returns no
    interval exactly when the interval [tMin, tMax] that results has
    [tMin > tMax], and the one interval [tMin, tMax] otherwise; it never
    returns more than one.  On every float whose comparisons are those of
    IEEE, as they are on binary32 with the infinities and NaN, [tMin > tMax]
    results exactly when the six planes admit together no parameter from 0
    to the largest float: when the half-space-induced intervals of the
    planes have no number in common; this is so in particular when the ray
    runs along one of the planes with its origin outside the half-space.
    Without rounding, a plane admits the parameters at which the point of
    the ray is inside its half-space, and [tMin > tMax] says that the ray is
    nowhere inside all six half-spaces. *)
Theorem intersect_zero_or_one :
  (∀ (F : Type) (H : Float F) (f : FrustumMappingIntersection (F := F))
     (wsRay : Ray) (time : PTime (F := F)),
     let tMin := (clip f wsRay).1 in
     let tMax := (clip f wsRay).2 in
     (intersect f wsRay time = [] ↔ fgt tMin tMax = true)
     ∧ (fgt tMin tMax = false →
        intersect f wsRay time = [mkInterval tMin tMax])
     ∧ length (intersect f wsRay time) ≤ 1)
  ∧ (∀ (F : Type) (H : Float F), GtStrict F → GtNumbers F →
     ∀ (f : FrustumMappingIntersection (F := F)) (wsRay : Ray)
       (time : PTime (F := F)),
       (intersect f wsRay time = []
        ↔ ¬ ∃ t : F, number t ∧ within start t
                     ∧ Forall (admits wsRay t) (m_planes f))
       ∧ (∀ p : Plane,
            p ∈ m_planes f → along wsRay p = true →
            inside p (pos wsRay) = false →
            intersect f wsRay time = []))
  ∧ (∀ (f : FrustumMappingIntersection (F := Qc)) (wsRay : Ray)
       (time : PTime (F := Qc)),
       intersect f wsRay time = []
       ↔ ¬ ∃ t : Qc,
           (0 ≤ t)%Qc ∧ (t ≤ flt_max)%Qc
           ∧ Forall (λ p, inside p (point_at wsRay t) = true) (m_planes f)).
Proof.
  split_and!.
  - intros F H f wsRay time tMin tMax. subst tMin tMax. unfold intersect.
    destruct (clip f wsRay) as [tMin tMax]. simpl.
    split_and!.
    + destruct (fgt tMin tMax); split; done.
    + by intros ->.
    + destruct (fgt tMin tMax); simpl; lia.
  - intros F H Hstrict Hnumbers f wsRay time. split.
    + apply intersect_admitted.
    + intros p Hp Halong Hout. apply intersect_admitted.
      intros (t & _ & _ & Hall). rewrite Forall_forall in Hall.
      by apply (along_outside wsRay p t Halong Hout), Hall.
  - apply intersect_meaning.
Qed.
End Frustum.

(** The example of the design document, on binary32: the ray from the
    origin along +z crosses the symmetric frustum on [0, 10]; a ray that
    starts behind the far plane and runs away from it crosses it nowhere,
    and neither does a ray that runs along the planes at x = -1 and x = 1
    outside of them. *)
Module FrustumExamples.
Import Render Binary32 Binary32Order Inputs.OnBinary32.

Lemma ray_from_origin_crosses :
  intersect symmetric_frustum ray_from_origin f0 = [mkInterval f0 (of_Z 10)].
Proof. vm_compute. reflexivity. Qed.

Lemma ray_from_behind_misses :
  clip symmetric_frustum ray_from_behind = (f0, of_Z (-10))
  ∧ intersect symmetric_frustum ray_from_behind f0 = [].
Proof. split; vm_compute; reflexivity. Qed.

Lemma intersect_zero_or_one_witness :
  right symmetric_frustum ∈ m_planes symmetric_frustum
  ∧ along ray_beside (right symmetric_frustum) = true
  ∧ inside (right symmetric_frustum) (pos ray_beside) = false
  ∧ intersect symmetric_frustum ray_beside f0 = [].
Proof.
  assert (right symmetric_frustum ∈ m_planes symmetric_frustum) as Hin.
  { unfold m_planes. set_solver. }
  split_and!; [exact Hin|reflexivity|reflexivity|].
  exact (proj2 (proj1 (proj2 Frustum.intersect_zero_or_one) float32 _ _ _
                  symmetric_frustum ray_beside f0)
           (right symmetric_frustum) Hin eq_refl eq_refl).
Defined.
End FrustumExamples.


(** ** More on curves: what [addSample] keeps and what [interpolate] returns *)

Module CurveInvariants.
Import Util CurveProperties.
Section invariants.
Context {F : Type} `{Float F} {T : Type}.

Lemma addSample_permutation (t : F) (v : T) (c : Curve F T) :
  m_samples (addSample t v c) ≡ₚ (t, v) :: m_samples c.
Proof.
  destruct (addSample_split t v c) as (l1 & l2 & -> & -> & _).
  symmetry. apply Permutation_middle.
Qed.

Lemma addSample_sublist (t : F) (v : T) (c : Curve F T) :
  m_samples c `sublist_of` m_samples (addSample t v c).
Proof.
  destruct (addSample_split t v c) as (l1 & l2 & -> & -> & _).
  apply sublist_app; [done|]. by apply sublist_cons.
Qed.

(** [addSample] never drops, repeats or reorders what is stored: the samples
    that were there are still there, in the order they were in, and after
    any sequence of calls the curve holds the samples it held and the samples
    of the calls, each as often as it was given. *)
Theorem addSamples_keeps_every_sample :
  ∀ (calls : list (F * T)) (c : Curve F T),
    m_samples c `sublist_of` m_samples (addSamples calls c)
    ∧ m_samples (addSamples calls c) ≡ₚ m_samples c ++ calls.
Proof.
  intros calls. induction calls as [|[t v] calls IH]; intros c.
  { simpl. by rewrite app_nil_r. }
  change (addSamples ((t, v) :: calls) c)
    with (addSamples calls (addSample t v c)).
  destruct (IH (addSample t v c)) as [Hsub Hperm]. split.
  - etrans; [apply (addSample_sublist t v)|done].
  - rewrite Hperm, addSample_permutation. simpl. apply Permutation_middle.
Qed.
End invariants.
End CurveInvariants.

(** *** On binary32: blending with the factor 0 *)

Module Binary32Arith.
Import Binary32.

(** [t - t] is [+0] for a float that is no infinity and no NaN. *)
Lemma sub_self (t : float32) :
  finite t = true → SFsub prec emax t t = S754_zero false.
Proof.
  destruct t as [s|s| |s m e]; [by destruct s|done|done|]. intros _.
  unfold SFsub. rewrite Z.min_id. unfold shl_align. rewrite Z.sub_diag.
  reflexivity.
Qed.

Lemma shift_23 (m : positive) :
  iter_pos shr_1 23
    {| shr_m := Z.pos (8388608 * m); shr_r := false; shr_s := false |}
  = {| shr_m := Z.pos m; shr_r := false; shr_s := false |}.
Proof. reflexivity. Qed.

Lemma digits_23 (m : positive) :
  digits2_pos (8388608 * m) = (digits2_pos m + 23)%positive.
Proof.
  assert (∀ p, digits2_pos p~0 = (digits2_pos p + 1)%positive) as Hd.
  { intros p. simpl. lia. }
  change (8388608 * m)%positive with (Pos.iter xO m 23).
  cbn [Pos.iter]. rewrite !Hd. lia.
Qed.

(** [a * 1.0f] is [a] for every float of the format: the product of the
    mantissas is the mantissa of [a] shifted by 23 bits, which rounding
    shifts back without loss. *)
Lemma mul_one (a : float32) :
  valid a = true → SFmul prec emax a (of_Z 1) = a.
Proof.
  change (of_Z 1) with (S754_finite false 8388608 (-23)).
  destruct a as [s|s| |s m e]; simpl;
    [by destruct s|by destruct s|done|].
  unfold bounded, canonical_mantissa. intros Hvalid.
  apply andb_true_iff in Hvalid as [Hcanon Hmax].
  apply Z.eqb_eq in Hcanon.
  unfold binary_round_aux, shr_fexp.
  rewrite (Pos.mul_comm m). unfold Zdigits2. rewrite digits_23.
  replace (Z.pos (digits2_pos m + 23) + (e + -23))%Z
    with (Z.pos (digits2_pos m) + e)%Z by lia.
  rewrite Hcanon.
  replace (e - (e + -23))%Z with 23%Z by lia.
  assert (shr (shr_record_of_loc (Z.pos (8388608 * m)) loc_Exact) (e + -23) 23
          = ({| shr_m := Z.pos m; shr_r := false; shr_s := false |}, e)) as ->.
  { unfold shr. cbn [shr_record_of_loc]. rewrite shift_23. f_equal. lia. }
  cbn [shr_m loc_of_shr_record round_nearest_even shr_record_of_loc].
  rewrite Hcanon, Z.sub_diag. cbn [shr shr_m].
  rewrite Hmax. by destruct s.
Qed.

(** [lerpfactor(t, t, b)] is a zero, whatever [b] is: the numerator is
    [+0], and Imath divides only by what is neither a zero nor a NaN. *)
Lemma lerpfactor_at_lower (t b : float32) :
  finite t = true → ∃ s, Imath.lerpfactor t t b = S754_zero s.
Proof.
  intros Ht. unfold Imath.lerpfactor, Imath.lerpfactor_divides. simpl.
  rewrite (sub_self t Ht).
  destruct (SFsub prec emax b t) as [sd|sd| |sd md ed].
  - exists false. reflexivity.
  - exists sd. reflexivity.
  - exists false. reflexivity.
  - match goal with |- context [if ?g then _ else _] => destruct g end;
      by eexists.
Qed.

(** [lerp(a, b, 0)] is [a * 1 + b * 0], which is [a] when [b] is finite,
    unless [a] is [-0.0f]. *)
Lemma lerp_at_zero (a b : float32) (s : bool) :
  plain a → finite b = true → Imath.lerp a b (S754_zero s) = a.
Proof.
  intros [Hvalid Hzero] Hb.
  change (SFadd prec emax (SFmul prec emax a (of_Z 1))
                (SFmul prec emax b (S754_zero s)) = a).
  rewrite (mul_one a Hvalid).
  assert (∃ s', SFmul prec emax b (S754_zero s) = S754_zero s') as [s' ->].
  { destruct b; [by eexists|done|done|by eexists]. }
  destruct a as [sa|sa| |sa ma ea]; [|done..].
  destruct sa; [by destruct Hzero|]. by destruct s'.
Qed.

Lemma lerp3_at_zero (a b : Imath.V3f float32) (s : bool) :
  plain_color a → finite_color b → Imath.lerp3 a b (S754_zero s) = a.
Proof.
  destruct a as [ax ay az], b as [bx by' bz].
  intros (Hx & Hy & Hz) (Hx' & Hy' & Hz').
  unfold Imath.lerp3, Imath.V3f_add, Imath.V3f_scale.
  cbn [Imath.x Imath.y Imath.z] in *.
  f_equal;
    [exact (lerp_at_zero ax bx s Hx Hx')|exact (lerp_at_zero ay by' s Hy Hy')
    |exact (lerp_at_zero az bz s Hz Hz')].
Qed.
End Binary32Arith.

(** *** A curve passes through its samples *)

Module CurveOnBinary32.
Import Util CurveProperties Comparisons Binary32 Binary32Order Binary32Arith.

(** Right after [addSample(t, v)], a query at [t] finds the new sample as
    its lower neighbour: it returns [v] when no sample lies above [t], and
    blends [v] with the first sample above [t] otherwise, with the factor
    [lerpfactor(t, t, upper)]. *)
Lemma interpolate_addSample {F : Type} `{Float F} `{!GtStrict F}
    {T : Type} `{!CurveValue F T} (c : Curve F T) (t : F) (v : T) :
  interpolate (addSample t v c) t = v
  ∨ ∃ upper, upper ∈ m_samples c ∧ fgt upper.1 t = true
      ∧ interpolate (addSample t v c) t
        = lerp (t, v) upper (Imath.lerpfactor t t upper.1).
Proof.
  destruct (addSample_split t v c) as (l1 & l2 & Hc & Hr & Hl1 & Hl2).
  destruct Hl2 as [->|(s & l2' & -> & Hs)].
  - left. apply (interpolate_at_end _ t l1 (t, v)); [done|].
    rewrite Hr. apply Forall_app. split; [done|].
    repeat constructor. apply fgt_irrefl.
  - right. exists s. split_and!; [rewrite Hc; set_solver|done|].
    apply (interpolate_between _ t l1 (t, v) s l2'); [done| |done].
    apply Forall_app. split; [done|]. repeat constructor. apply fgt_irrefl.
Qed.

(** A query at the position of a stored sample that has no sample of the
    same position behind it finds this sample as its lower neighbour. *)
Lemma interpolate_at_sample {F : Type} `{Float F} `{!GtStrict F}
    {T : Type} `{!CurveValue F T}
    (l1 l2 : list (Sample F T)) (s : Sample F T) :
  nondecreasing (l1 ++ s :: l2) →
  (∀ s', head l2 = Some s' → fgt s'.1 s.1 = true) →
  interpolate (mkCurve (l1 ++ s :: l2)) s.1 = s.2
  ∨ ∃ upper, head l2 = Some upper
      ∧ interpolate (mkCurve (l1 ++ s :: l2)) s.1
        = lerp s upper (Imath.lerpfactor s.1 s.1 upper.1).
Proof.
  intros Hs Hnext.
  assert (Forall (λ s' : Sample F T, fgt s'.1 s.1 = false) (l1 ++ [s]))
    as Hbefore.
  { apply Forall_app. split; [|repeat constructor; apply fgt_irrefl].
    apply Forall_forall. intros s' Hin.
    apply (StronglySorted_app_1_elem_of _ _ _ s' s Hs Hin). set_solver. }
  destruct l2 as [|u l2].
  - left. by apply (interpolate_at_end _ s.1 l1 s).
  - right. exists u. assert (fgt u.1 s.1 = true) as Hu by (by apply Hnext).
    split; [done|]. by apply (interpolate_between _ s.1 l1 s u l2).
Qed.

(** On binary32, a curve returns at the position of a sample that has just
    been added the value that was added with it, whatever the curve held, in
    order or not: when the position is no infinity and no NaN, the value is
    a float of the format other than [-0.0f], and the samples stored above
    the position hold finite values.  With no sample above the position
    this is so on every float and for every value. *)
Theorem interpolate_after_addSample :
  (∀ (F : Type) (H : Float F) (T : Type) (V : CurveValue F T),
     GtStrict F →
     ∀ (c : Curve F T) (t : F) (v : T),
       Forall (λ s, fgt s.1 t = false) (m_samples c) →
       interpolate (addSample t v c) t = v)
  ∧ (∀ (c : Curve float32 float32) (t v : float32),
       finite t = true → plain v →
       (∀ s, s ∈ m_samples c → fgt s.1 t = true → finite s.2 = true) →
       interpolate (addSample t v c) t = v)
  ∧ (∀ (c : Curve float32 (Color float32)) (t : float32)
       (v : Color float32),
       finite t = true → plain_color v →
       (∀ s, s ∈ m_samples c → fgt s.1 t = true → finite_color s.2) →
       interpolate (addSample t v c) t = v).
Proof.
  split_and!.
  - intros F H T V Hstrict c t v Hall.
    destruct (interpolate_addSample c t v) as [->|(u & Hin & Hu & _)];
      [done|].
    rewrite Forall_forall in Hall. by rewrite (Hall u Hin) in Hu.
  - intros c t v Ht Hv Hstored.
    destruct (interpolate_addSample c t v) as [->|(u & Hin & Hu & ->)];
      [done|].
    destruct (lerpfactor_at_lower t u.1 Ht) as [s ->].
    by apply lerp_at_zero, Hstored.
  - intros c t v Ht Hv Hstored.
    destruct (interpolate_addSample c t v) as [->|(u & Hin & Hu & ->)];
      [done|].
    destruct (lerpfactor_at_lower t u.1 Ht) as [s ->].
    by apply lerp3_at_zero, Hstored.
Qed.

(** On binary32, a curve in order passes through its samples: at the
    position of a sample it returns the value of that sample, of the last
    one stored when several share the position; when the position is no
    infinity and no NaN, the value is a float of the format other than
    [-0.0f], and the next sample holds a finite value. *)
Theorem interpolate_hits_sample :
  (∀ (l1 l2 : list (Sample float32 float32)) (s : Sample float32 float32),
     nondecreasing (l1 ++ s :: l2) →
     (∀ s', head l2 = Some s' → fgt s'.1 s.1 = true ∧ finite s'.2 = true) →
     finite s.1 = true → plain s.2 →
     interpolate (mkCurve (l1 ++ s :: l2)) s.1 = s.2)
  ∧ (∀ (l1 l2 : list (Sample float32 (Color float32)))
       (s : Sample float32 (Color float32)),
       nondecreasing (l1 ++ s :: l2) →
       (∀ s', head l2 = Some s' → fgt s'.1 s.1 = true ∧ finite_color s'.2) →
       finite s.1 = true → plain_color s.2 →
       interpolate (mkCurve (l1 ++ s :: l2)) s.1 = s.2).
Proof.
  split; intros l1 l2 s Hs Hnext Ht Hv.
  - destruct (interpolate_at_sample l1 l2 s Hs) as [->|(u & Hu & ->)];
      [intros s' Hs'; by apply Hnext|done|].
    destruct (lerpfactor_at_lower s.1 u.1 Ht) as [z ->].
    by apply lerp_at_zero, Hnext.
  - destruct (interpolate_at_sample l1 l2 s Hs) as [->|(u & Hu & ->)];
      [intros s' Hs'; by apply Hnext|done|].
    destruct (lerpfactor_at_lower s.1 u.1 Ht) as [z ->].
    by apply lerp3_at_zero, Hnext.
Qed.
End CurveOnBinary32.

Module CurveOnBinary32Examples.
Import Util Binary32 Binary32Order CurveOnBinary32 Inputs.OnBinary32.

Lemma interpolate_after_addSample_witness :
  interpolate
    (addSample (of_Z 1) (of_Z 5)
       (mkCurve [(of_Z 0, of_Z 3); (of_Z 2, of_Z 7)]))
    (of_Z 1)
  = of_Z 5.
Proof.
  apply (proj1 (proj2 interpolate_after_addSample)).
  - reflexivity.
  - split; [reflexivity|discriminate].
  - intros s Hs _. simpl in Hs.
    repeat (apply elem_of_cons in Hs as [->|Hs]; [reflexivity|]).
    by apply elem_of_nil in Hs.
Defined.

Lemma interpolate_hits_sample_witness :
  interpolate
    (mkCurve ([(of_Z 0, gray (of_Z 3))]
              ++ (of_Z 1, gray (of_Z 5)) :: [(of_Z 2, gray (of_Z 7))]))
    (of_Z 1, gray (of_Z 5)).1
  = (of_Z 1, gray (of_Z 5)).2.
Proof.
  apply (proj2 interpolate_hits_sample
           [(of_Z 0, gray (of_Z 3))] [(of_Z 2, gray (of_Z 7))]
           (of_Z 1, gray (of_Z 5))).
  - repeat constructor.
  - intros s' Hs'. injection Hs' as <-. repeat split.
  - reflexivity.
  - repeat split; discriminate.
Defined.
End CurveOnBinary32Examples.

(** ** More on the image: what [setSize] and [setPixel] change *)

Module DeepImageUpdates.
Import Util Render DeepImageProperties.
Section store.
Context {F : Type} `{Float F}.
Implicit Types (img : DeepImage) (σ : gmap loc (Curve F (Color F))).
Implicit Types (c : Curve F (Color F)) (ptr l : loc).

(** Inside the image, [x + y * m_width] does not wrap around. *)
Lemma pixel_index img σ (x y : Z) :
  wf_image img σ → (0 ≤ x < m_width img)%Z → (0 ≤ y < m_height img)%Z →
  pixel img x y = m_pixels img !! Z.to_nat (x + y * m_width img).
Proof.
  intros [Hw Hh Harea _ _ _] Hx Hy. unfold pixel. do 2 f_equal.
  unfold size_t_add, size_t_mul, size_t_modulus in *.
  rewrite (Z.mod_small (y * _)) by nia. rewrite Z.mod_small by nia. done.
Qed.

(** Two coordinates inside the image that share their pixel are the same
    coordinate. *)
Lemma pixel_injective img σ (x y x' y' : Z) l :
  wf_image img σ →
  (0 ≤ x < m_width img)%Z → (0 ≤ y < m_height img)%Z →
  (0 ≤ x' < m_width img)%Z → (0 ≤ y' < m_height img)%Z →
  pixel img x y = Some l → pixel img x' y' = Some l → x = x' ∧ y = y'.
Proof.
  intros Hwf Hx Hy Hx' Hy'.
  rewrite (pixel_index img σ x y), (pixel_index img σ x' y') by done.
  intros Hl Hl'.
  pose proof (NoDup_lookup _ _ _ _ (wf_distinct _ _ Hwf) Hl Hl') as Heq.
  assert (x + y * m_width img = x' + y' * m_width img)%Z as Hidx by nia.
  assert (y = y') as -> by nia. split; [lia|done].
Qed.

Lemma pixelFunction_curve img σ (x y : Z) l :
  (0 ≤ x < m_width img)%Z → (0 ≤ y < m_height img)%Z →
  pixel img x y = Some l →
  returned_curve (pixelFunction img x y σ) = σ !! l.
Proof.
  intros Hx Hy Hl. unfold pixelFunction. unfold pixel in Hl.
  rewrite (proj2 (Z.ltb_lt _ _)) by lia.
  rewrite (proj2 (Z.ltb_lt _ _)) by lia. simpl.
  rewrite Hl. simpl. destruct (σ !! l) as [c|] eqn:Hc; simpl; [|done].
  unfold new_curve. by rewrite lookup_insert_eq.
Qed.

Lemma swapClear_lookup (pixels : list loc) σ l :
  swapClear pixels σ !! l = if decide (l ∈ pixels) then None else σ !! l.
Proof.
  unfold swapClear. induction pixels as [|l' pixels IH].
  { destruct (decide (l ∈ [])) as [Hin|_]; [|done]. set_solver. }
  cbn [foldr]. destruct (decide (l = l')) as [->|Hne].
  - rewrite lookup_delete_eq.
    destruct (decide (l' ∈ l' :: pixels)) as [_|Hnin]; [done|]. set_solver.
  - rewrite lookup_delete_ne by done. rewrite IH.
    destruct (decide (l ∈ pixels)) as [Hin|Hnin];
      destruct (decide (l ∈ l' :: pixels)) as [Hin'|Hnin']; [done| |  |done].
    + exfalso. apply Hnin'. by apply elem_of_cons; right.
    + by apply elem_of_cons in Hin' as [?|?].
Qed.

(** [setSize(width, height)] makes an image of that size that keeps its
    sample count and holds an empty curve at every pixel, whatever the image
    held before; every pixel of the image that was is gone or empty, and the
    curves that were no pixel of it, such as the copies [pixelFunction] had
    returned, are left as they are. *)
Theorem setSize_empties_the_image (width height : Z) img σ :
  (0 ≤ width)%Z → (0 ≤ height)%Z → (width * height < size_t_modulus)%Z →
  let img' := (setSize width height img σ).1 in
  let σ' := (setSize width height img σ).2 in
  m_width img' = width ∧ m_height img' = height
  ∧ m_numSamples img' = m_numSamples img
  ∧ wf_image img' σ'
  ∧ (∀ x y : Z, (0 ≤ x < width)%Z → (0 ≤ y < height)%Z →
       returned_curve (pixelFunction img' x y σ') = Some Curve_empty)
  ∧ (∀ l, l ∈ m_pixels img →
       σ' !! l = None ∨ σ' !! l = Some Curve_empty)
  ∧ (∀ l, l ∉ m_pixels img → l ∉ m_pixels img' → σ' !! l = σ !! l).
Proof.
  intros Hw Hh Harea img' σ'.
  pose proof (setSize_wf width height img σ Hw Hh Harea) as Hwf.
  fold img' σ' in Hwf.
  assert (m_width img' = width ∧ m_height img' = height
          ∧ m_numSamples img' = m_numSamples img) as (Hw' & Hh' & HN').
  { unfold img', setSize. by destruct (resize _ _). }
  assert ((∀ l, l ∈ m_pixels img' →
             swapClear (m_pixels img) σ !! l = None
             ∧ σ' !! l = Some Curve_empty)
          ∧ (∀ l, l ∉ m_pixels img' →
               σ' !! l = swapClear (m_pixels img) σ !! l)) as [Hin Hout].
  { unfold img', σ', setSize.
    pose proof (resize_spec (Z.to_nat (size_t_mul width height))
                  (swapClear (m_pixels img) σ)) as (_ & _ & Hin & Hout).
    by destruct (resize _ _). }
  split_and!; [done..| | |].
  - intros x y Hx Hy.
    destruct (pixel_in_range img' σ' x y Hwf) as (l & c & Hl & Hc); [lia..|].
    rewrite (pixelFunction_curve img' σ' x y l) by (done || lia).
    apply pixel_elem in Hl. by destruct (Hin l Hl) as [_ ->].
  - intros l Hl. destruct (decide (l ∈ m_pixels img')) as [Hl'|Hl'].
    + right. by destruct (Hin l Hl').
    + left. rewrite (Hout l Hl'), swapClear_lookup. by rewrite decide_True.
  - intros l Hl Hl'. rewrite (Hout l Hl'), swapClear_lookup.
    by rewrite decide_False.
Qed.

(** [setPixel(x, y, func)] on a curve that is there: outside the image the
    call stops at its assertion; inside, it logs what [makeFixedSample] logs
    on the curve and the sample count of the image, has no result when
    [makeFixedSample] has none, and otherwise replaces the curve of the pixel
    (x, y) by the resampled curve and changes nothing else: [pixelFunction]
    then returns the resampled curve at (x, y) and what it returned before at
    every other coordinate. *)
Theorem setPixel_replaces_one_pixel img σ (x y : Z) (func : loc) curve :
  wf_image img σ → (0 ≤ x)%Z → (0 ≤ y)%Z → σ !! func = Some curve →
  let r := makeFixedSample curve (m_numSamples img) in
  ((m_width img ≤ x)%Z ∨ (m_height img ≤ y)%Z →
   setPixel img x y func σ = ([], None))
  ∧ ((x < m_width img)%Z → (y < m_height img)%Z →
     (setPixel img x y func σ).1 = r.1
     ∧ (r.2 = None → (setPixel img x y func σ).2 = None)
     ∧ (∀ fixed, r.2 = Some fixed →
          ∃ l, pixel img x y = Some l
               ∧ (setPixel img x y func σ).2 = Some (<[l := fixed]> σ)
               ∧ returned_curve (pixelFunction img x y (<[l := fixed]> σ))
                 = Some fixed
               ∧ (∀ x' y' : Z,
                    (0 ≤ x' < m_width img)%Z → (0 ≤ y' < m_height img)%Z →
                    (x', y') ≠ (x, y) →
                    returned_curve
                      (pixelFunction img x' y' (<[l := fixed]> σ))
                    = returned_curve (pixelFunction img x' y' σ))
               ∧ wf_image img (<[l := fixed]> σ))).
Proof.
  intros Hwf Hx Hy Hfunc r. split.
  - intros Hout. unfold setPixel.
    destruct (x <? m_width img)%Z eqn:Hxw; simpl; [|done].
    destruct (y <? m_height img)%Z eqn:Hyh; simpl; [|done].
    apply Z.ltb_lt in Hxw, Hyh. lia.
  - intros Hxw Hyh.
    destruct (pixel_in_range img σ x y Hwf) as (l & c & Hl & Hc); [lia..|].
    assert (setPixel img x y func σ
            = (r.1, fixedSampleCurve ← r.2;
                    Some (<[l := fixedSampleCurve]> σ))) as ->.
    { unfold setPixel.
      rewrite (proj2 (Z.ltb_lt _ _)) by lia.
      rewrite (proj2 (Z.ltb_lt _ _)) by lia. simpl. rewrite Hfunc.
      fold r. f_equal. destruct (r.2); simpl; [|done]. by rewrite Hl. }
    split_and!; [done|by intros ->|].
    intros fixed ->. exists l. simpl. split_and!; [done..| | |].
    + rewrite (pixelFunction_curve img _ x y l) by (done || lia).
      apply lookup_insert_eq.
    + intros x' y' Hx' Hy' Hne.
      destruct (pixel_in_range img σ x' y' Hwf Hx' Hy') as (l' & c' & Hl' & _).
      rewrite !(pixelFunction_curve img _ x' y' l') by done.
      apply lookup_insert_ne. intros <-.
      destruct (pixel_injective img σ x y x' y' l Hwf); [lia..|done|done|].
      congruence.
    + apply (wf_image_ext img σ); [done|].
      intros l' _ Hl'. rewrite lookup_insert. by case_decide.
Qed.
End store.
End DeepImageUpdates.

Module DeepImageUpdatesExamples.
Import Util Render DeepImageProperties DeepImageUpdates Exact.
Import Inputs.OnRationals.

Lemma setSize_empties_the_image_witness :
  returned_curve
    (pixelFunction (setSize 2 2 four_pixels four_curves).1 1 1
                   (setSize 2 2 four_pixels four_curves).2)
  = Some (Curve_empty (F := Qc)).
Proof.
  pose proof (setSize_empties_the_image 2 2 four_pixels four_curves)
    as Hempty.
  destruct Hempty as (_ & _ & _ & _ & Hpixels & _);
    [lia|lia|unfold size_t_modulus; lia|].
  apply Hpixels; lia.
Defined.

Lemma setPixel_replaces_one_pixel_witness :
  (setPixel four_pixels 1 1 1%positive four_curves).1
  = (makeFixedSample (Curve_init (rgb 4 0 0)) 32).1.
Proof.
  pose proof (setPixel_replaces_one_pixel four_pixels four_curves 1 1
                1%positive (Curve_init (rgb 4 0 0)) LookupExamples.four_pixels_wf)
    as Hset.
  destruct Hset as [_ Hinside]; [lia|lia|reflexivity|].
  destruct Hinside as [Hlog _]; [simpl; lia|simpl; lia|].
  exact Hlog.
Defined.
End DeepImageUpdatesExamples.


(** ** The raster image *)

Module ImageProperties.
Import Render OpenImageIO.
Section pixels.
Context {F : Type} `{Float F}.
Implicit Types (img : Image.Image F) (buf : ImageBuf F) (value : Color F).

Lemma to_int_small (n : Z) : (0 ≤ n < 2 ^ 31)%Z → Image.to_int n = n.
Proof. intros Hn. unfold Image.to_int. rewrite Z.mod_small; lia. Qed.

Lemma valid_true buf (x y : Z) :
  valid buf x y = true
  ↔ (0 ≤ x < width (spec buf))%Z ∧ (0 ≤ y < height (spec buf))%Z.
Proof. unfold valid. apply bool_decide_eq_true. Qed.

Lemma valid_false buf (x y : Z) :
  valid buf x y = false
  ↔ ¬ ((0 ≤ x < width (spec buf))%Z ∧ (0 ≤ y < height (spec buf))%Z).
Proof. unfold valid. apply bool_decide_eq_false. Qed.

Lemma getpixel_3 buf (x y : Z) (k : nat) :
  nchannels (spec buf) = 4%Z →
  getpixel buf x y (uninitialized (3 + k)) 3
  = [Some (channel buf x y 0); Some (channel buf x y 1);
     Some (channel buf x y 2)] ++ uninitialized k.
Proof. intros Hn. unfold getpixel. rewrite Hn. done. Qed.

Lemma getpixel_4 buf (x y : Z) :
  nchannels (spec buf) = 4%Z →
  getpixel buf x y (uninitialized 4) 4
  = [Some (channel buf x y 0); Some (channel buf x y 1);
     Some (channel buf x y 2); Some (channel buf x y 3)].
Proof. intros Hn. unfold getpixel. rewrite Hn. done. Qed.

Lemma setpixel_outside buf (x y : Z) pixel maxchannels :
  valid buf x y = false → setpixel buf x y pixel maxchannels = Some buf.
Proof. intros Hv. unfold setpixel. by rewrite Hv. Qed.

(** Storing [n] cells in a pixel of the data window changes its first [n]
    channels and nothing else. *)
Lemma setpixel_inside buf (x y : Z) (data : list F) (rest : list (option F))
    (maxchannels : Z) :
  valid buf x y = true →
  Z.min (nchannels (spec buf)) maxchannels = Z.of_nat (length data) →
  ∃ buf',
    setpixel buf x y ((Some <$> data) ++ rest) maxchannels = Some buf'
    ∧ spec buf' = spec buf
    ∧ (∀ c : nat, c < length data →
         localpixels buf' x y (Z.of_nat c) = default f0 (data !! c))
    ∧ (∀ x' y' c',
         ¬ (x' = x ∧ y' = y ∧ (0 ≤ c' < Z.of_nat (length data))%Z) →
         localpixels buf' x' y' c' = localpixels buf x' y' c').
Proof.
  intros Hv Hn. unfold setpixel. rewrite Hv, Hn, Nat2Z.id.
  assert (mapM (λ c : nat, mjoin (((Some <$> data) ++ rest) !! c))
               (seq 0 (length data)) = Some data) as ->.
  { apply mapM_Some. apply Forall2_same_length_lookup_2.
    { by rewrite length_seq. }
    intros i c v Hc Hv'. apply lookup_seq in Hc as [-> Hi]. simpl.
    rewrite lookup_app_l by (by rewrite length_fmap).
    rewrite list_lookup_fmap, Hv'. done. }
  eexists. split; [done|]. simpl. split_and!; [done| |].
  - intros c Hc. rewrite decide_True by lia. by rewrite Nat2Z.id.
  - intros x' y' c' Hne. by rewrite decide_False.
Qed.

Lemma pixel_channels img (x y : Z) :
  Image.rgba img →
  Image.pixel img x y
  = Some (Imath.mkV3f
            (channel (Image.m_buf img) (Image.to_int x) (Image.to_int y) 0)
            (channel (Image.m_buf img) (Image.to_int x) (Image.to_int y) 1)
            (channel (Image.m_buf img) (Image.to_int x) (Image.to_int y) 2)).
Proof.
  intros (Hn & _). unfold Image.pixel.
  by rewrite (getpixel_3 _ _ _ 0 Hn).
Qed.

Lemma pixelAlpha_channel img (x y : Z) :
  Image.rgba img →
  Image.pixelAlpha img x y
  = Some (channel (Image.m_buf img) (Image.to_int x) (Image.to_int y) 3).
Proof.
  intros (Hn & _). unfold Image.pixelAlpha. by rewrite (getpixel_4 _ _ _ Hn).
Qed.

Lemma inside_image_valid img (x y : Z) :
  Image.rgba img → Image.inside_image img x y →
  Image.to_int x = x ∧ Image.to_int y = y
  ∧ valid (Image.m_buf img) x y = true.
Proof.
  intros (_ & Hw & Hh) [Hx Hy].
  rewrite !to_int_small by lia. split_and!; [done..|]. by apply valid_true.
Qed.

(** Two buffers of the same size agree on what a channel reads as where
    they hold the same value. *)
Lemma channel_ext buf buf' (x y c : Z) :
  spec buf' = spec buf → localpixels buf' x y c = localpixels buf x y c →
  channel buf' x y c = channel buf x y c.
Proof.
  intros Hspec Hpx. unfold channel, valid. rewrite Hspec.
  by destruct (bool_decide _).
Qed.

(** [setPixel(x, y, value)] at a pixel of the image stores the color there:
    [pixel(x, y)] then returns it.  The call leaves the alpha of the pixel,
    the size of the image and every other pixel as they are. *)
Theorem setPixel_then_pixel img (x y : Z) value :
  Image.rgba img → Image.inside_image img x y →
  ∃ img',
    Image.setPixel img x y value = Some img'
    ∧ Image.rgba img'
    ∧ Image.size img' = Image.size img
    ∧ Image.pixel img' x y = Some value
    ∧ Image.pixelAlpha img' x y = Image.pixelAlpha img x y
    ∧ ∀ x' y' : Z,
        (Image.to_int x', Image.to_int y') ≠ (x, y) →
        Image.pixel img' x' y' = Image.pixel img x' y'
        ∧ Image.pixelAlpha img' x' y' = Image.pixelAlpha img x' y'.
Proof.
  intros Hrgba Hin.
  destruct (inside_image_valid img x y Hrgba Hin) as (Hx & Hy & Hv).
  destruct Hrgba as (Hn & Hw & Hh). destruct Hin as [Hxw Hyh].
  destruct (setpixel_inside (Image.m_buf img) x y
              [Imath.x value; Imath.y value; Imath.z value] [] 3 Hv)
    as (buf' & Hset & Hspec & Hnew & Hold); [by rewrite Hn|].
  simpl in Hset, Hnew, Hold.
  assert (Image.rgba (Image.mkImage buf')) as Hrgba'.
  { unfold Image.rgba. simpl. by rewrite Hspec. }
  exists (Image.mkImage buf'). split_and!.
  - unfold Image.setPixel, xmax, ymax. rewrite Hx, Hy.
    rewrite (proj2 (Z.leb_le _ _)) by lia.
    rewrite (proj2 (Z.leb_le _ _)) by lia. simpl. by rewrite Hset.
  - done.
  - unfold Image.size, xmax, ymax. simpl. by rewrite Hspec.
  - rewrite (pixel_channels _ x y Hrgba'). simpl. rewrite Hx, Hy.
    assert (valid buf' x y = true) as Hv'.
    { unfold valid. rewrite Hspec. exact Hv. }
    unfold channel. rewrite Hv'.
    pose proof (Hnew 0%nat ltac:(lia)) as H0.
    pose proof (Hnew 1%nat ltac:(lia)) as H1.
    pose proof (Hnew 2%nat ltac:(lia)) as H2.
    cbv [Z.of_nat Pos.of_succ_nat Pos.succ] in H0, H1, H2.
    rewrite H0, H1, H2. by destruct value.
  - rewrite !pixelAlpha_channel by done. simpl. f_equal.
    apply channel_ext; [done|]. apply Hold. lia.
  - intros x' y' Hne. rewrite !pixel_channels, !pixelAlpha_channel by done.
    simpl.
    assert (∀ c, channel buf' (Image.to_int x') (Image.to_int y') c
                 = channel (Image.m_buf img) (Image.to_int x')
                           (Image.to_int y') c) as Hsame.
    { intros c. apply channel_ext; [done|]. apply Hold.
      intros (Hx' & Hy' & _). apply Hne. by rewrite Hx', Hy'. }
    by rewrite !Hsame.
Qed.

(** [setPixelAlpha(x, y, value)] at a pixel of the image stores the alpha
    there: [pixelAlpha(x, y)] then returns it.  The call leaves the color of
    the pixel, the size of the image and every other pixel as they are. *)
Theorem setPixelAlpha_then_pixelAlpha img (x y : Z) (alpha : F) :
  Image.rgba img → Image.inside_image img x y →
  ∃ img',
    Image.setPixelAlpha img x y alpha = Some img'
    ∧ Image.rgba img'
    ∧ Image.size img' = Image.size img
    ∧ Image.pixelAlpha img' x y = Some alpha
    ∧ Image.pixel img' x y = Image.pixel img x y
    ∧ ∀ x' y' : Z,
        (Image.to_int x', Image.to_int y') ≠ (x, y) →
        Image.pixel img' x' y' = Image.pixel img x' y'
        ∧ Image.pixelAlpha img' x' y' = Image.pixelAlpha img x' y'.
Proof.
  intros Hrgba Hin.
  destruct (inside_image_valid img x y Hrgba Hin) as (Hx & Hy & Hv).
  destruct Hrgba as (Hn & Hw & Hh). destruct Hin as [Hxw Hyh].
  destruct (setpixel_inside (Image.m_buf img) x y
              [channel (Image.m_buf img) x y 0;
               channel (Image.m_buf img) x y 1;
               channel (Image.m_buf img) x y 2; alpha] [] 4 Hv)
    as (buf' & Hset & Hspec & Hnew & Hold); [by rewrite Hn|].
  simpl in Hset, Hnew, Hold.
  assert (Image.rgba (Image.mkImage buf')) as Hrgba'.
  { unfold Image.rgba. simpl. by rewrite Hspec. }
  assert (valid buf' x y = true) as Hv'.
  { unfold valid. rewrite Hspec. exact Hv. }
  exists (Image.mkImage buf'). split_and!.
  - unfold Image.setPixelAlpha. rewrite Hx, Hy.
    rewrite (getpixel_3 _ _ _ 1 Hn). simpl. by rewrite Hset.
  - done.
  - unfold Image.size, xmax, ymax. simpl. by rewrite Hspec.
  - rewrite (pixelAlpha_channel _ x y Hrgba'). simpl. rewrite Hx, Hy.
    unfold channel. rewrite Hv'.
    pose proof (Hnew 3%nat ltac:(lia)) as H3.
    cbv [Z.of_nat Pos.of_succ_nat Pos.succ] in H3. by rewrite H3.
  - rewrite !pixel_channels by done. simpl. rewrite Hx, Hy.
    unfold channel at 1 2 3. rewrite Hv'.
    pose proof (Hnew 0%nat ltac:(lia)) as H0.
    pose proof (Hnew 1%nat ltac:(lia)) as H1.
    pose proof (Hnew 2%nat ltac:(lia)) as H2.
    cbv [Z.of_nat Pos.of_succ_nat Pos.succ] in H0, H1, H2.
    by rewrite H0, H1, H2.
  - intros x' y' Hne. rewrite !pixel_channels, !pixelAlpha_channel by done.
    simpl.
    assert (∀ c, channel buf' (Image.to_int x') (Image.to_int y') c
                 = channel (Image.m_buf img) (Image.to_int x')
                           (Image.to_int y') c) as Hsame.
    { intros c. apply channel_ext; [done|]. apply Hold.
      intros (Hx' & Hy' & _). apply Hne. by rewrite Hx', Hy'. }
    by rewrite !Hsame.
Qed.

(** Outside the image (to the right of it or below it): [setPixel] stops
    at one of its assertions, [setPixelAlpha] changes nothing, and [pixel]
    and [pixelAlpha] return zeros. *)
Theorem outside_the_image img (x y : Z) value (alpha : F) :
  Image.rgba img → (0 ≤ x < 2 ^ 31)%Z → (0 ≤ y < 2 ^ 31)%Z →
  (width (spec (Image.m_buf img)) ≤ x)%Z
  ∨ (height (spec (Image.m_buf img)) ≤ y)%Z →
  Image.setPixel img x y value = None
  ∧ Image.setPixelAlpha img x y alpha = Some img
  ∧ Image.pixel img x y = Some (Imath.mkV3f f0 f0 f0)
  ∧ Image.pixelAlpha img x y = Some f0.
Proof.
  intros Hrgba Hx Hy Hout.
  assert (valid (Image.m_buf img) x y = false) as Hv.
  { apply valid_false. lia. }
  assert (∀ c, channel (Image.m_buf img) x y c = f0) as Hc.
  { intros c. unfold channel. by rewrite Hv. }
  split_and!.
  - unfold Image.setPixel, xmax, ymax. rewrite !to_int_small by done.
    destruct (x <=? _)%Z eqn:Hxw; simpl; [|done].
    destruct (y <=? _)%Z eqn:Hyh; simpl; [|done].
    apply Z.leb_le in Hxw, Hyh. lia.
  - unfold Image.setPixelAlpha. rewrite !to_int_small by done.
    rewrite setpixel_outside by done. by destruct img.
  - rewrite pixel_channels by done. rewrite !to_int_small by done.
    by rewrite !Hc.
  - rewrite pixelAlpha_channel by done. rewrite !to_int_small by done.
    by rewrite Hc.
Qed.
End pixels.

Section made.
Context {F : Type} `{Float F}.

(** What [setSize] makes is an image of four channels; it has the size that
    was asked for when that size is made of [int]s. *)
Lemma setSize_rgba (width height : Z) (memory : Z → Z → Z → F) :
  Image.rgba (Image.setSize width height memory)
  ∧ ((0 ≤ width < 2 ^ 31)%Z → (0 ≤ height < 2 ^ 31)%Z →
     Image.size (Image.setSize width height memory) = (width, height)).
Proof.
  split.
  - unfold Image.rgba, Image.setSize, Image.to_int. simpl.
    pose proof (Z.mod_pos_bound (width + 2 ^ 31) (2 ^ 32)).
    pose proof (Z.mod_pos_bound (height + 2 ^ 31) (2 ^ 32)). lia.
  - intros Hw Hh. unfold Image.size, Image.setSize, xmax, ymax. simpl.
    rewrite !to_int_small by done. f_equal; lia.
Qed.
End made.

Section iterator.
Context {F : Type} `{Float F}.
Variable img : Image.Image F.

Let w := width (spec (Image.m_buf img)).
Let h := height (spec (Image.m_buf img)).

Lemma size_spec : Image.size img = (w, h).
Proof. unfold Image.size, xmax, ymax, w, h. f_equal; lia. Qed.

Lemma begin_spec : Image.begin img = Image.mk_pixel_iterator 0 0 (w, h).
Proof. unfold Image.begin, Image.pixel_iterator_new. by rewrite size_spec. Qed.

Lemma end_spec :
  (0 ≤ h < 2 ^ 31)%Z → Image.end_ img = Image.mk_pixel_iterator 0 h (w, h).
Proof.
  intros Hh. unfold Image.end_, Image.pixel_iterator_new.
  rewrite size_spec. unfold Image.of_int_to_size_t, xmin, ymax. fold h.
  unfold size_t_modulus. rewrite Z.mod_0_l by lia.
  rewrite Z.mod_small by lia. f_equal. lia.
Qed.

(** In an image that has a column, the iterator is after [k] increments on
    the pixel [k] of the image, counted row by row. *)
Lemma advanced_position (k : nat) :
  (1 ≤ w < 2 ^ 31)%Z → (0 ≤ h < 2 ^ 31)%Z → (Z.of_nat k ≤ w * h)%Z →
  Image.advanced k (Image.begin img)
  = Image.mk_pixel_iterator (Z.of_nat k `mod` w) (Z.of_nat k `div` w) (w, h).
Proof.
  intros Hw Hh. induction k as [|k IH]; intros Hk.
  { rewrite begin_spec. simpl. by rewrite Z.mod_0_l, Z.div_0_l by lia. }
  unfold Image.advanced in *. rewrite Nat.iter_succ, IH by lia.
  unfold Image.operator_incr. cbn [Image.x Image.y Image.m_size fst snd].
  pose proof (Z.mod_pos_bound (Z.of_nat k) w ltac:(lia)) as Hmod.
  pose proof (Z.div_mod (Z.of_nat k) w ltac:(lia)) as Hdm.
  assert (0 ≤ Z.of_nat k `div` w ≤ h)%Z as Hdiv.
  { split; [apply Z.div_pos; lia|]. apply Z.div_le_upper_bound; lia. }
  assert (size_t_add (Z.of_nat k `mod` w) 1 = Z.of_nat k `mod` w + 1)%Z as ->.
  { unfold size_t_add, size_t_modulus. apply Z.mod_small. lia. }
  assert (size_t_add (Z.of_nat k `div` w) 1 = Z.of_nat k `div` w + 1)%Z as ->.
  { unfold size_t_add, size_t_modulus. apply Z.mod_small. lia. }
  assert (Image.of_int_to_size_t w = w) as ->.
  { unfold Image.of_int_to_size_t, size_t_modulus. apply Z.mod_small. lia. }
  replace (Z.of_nat (S k)) with (Z.of_nat k + 1)%Z by lia.
  destruct (decide (Z.of_nat k `mod` w + 1 = w)%Z) as [Hlast|Hmore].
  - f_equal.
    + apply (Z.mod_unique_pos _ _ (Z.of_nat k `div` w + 1)); lia.
    + apply (Z.div_unique_pos _ _ _ 0); lia.
  - f_equal.
    + apply (Z.mod_unique_pos _ _ (Z.of_nat k `div` w)); lia.
    + apply (Z.div_unique_pos _ _ _ (Z.of_nat k `mod` w + 1)); lia.
Qed.

(** The loop [for (i = begin(); i != end(); ++i)] over an image that has a
    column runs once for every pixel, row by row: after [k] increments, for
    every [k] up to the number of pixels, the iterator is on the pixel
    [(k mod width, k div width)], it differs from [end()] exactly as long as
    [k] is below the number of pixels, and [progress()] is the quotient of
    [k] and the number of pixels as floats.  The number of pixels has to be
    an [int] for [progress()]: it is undefined otherwise. *)
Theorem iterator_visits_every_pixel :
  (1 ≤ w < 2 ^ 31)%Z → (0 ≤ h < 2 ^ 31)%Z →
  (∀ k : nat, (Z.of_nat k ≤ w * h)%Z →
     let it := Image.advanced k (Image.begin img) in
     Image.x it = (Z.of_nat k `mod` w)%Z
     ∧ Image.y it = (Z.of_nat k `div` w)%Z
     ∧ (Image.operator_neq it (Image.end_ img) = true
        ↔ (Z.of_nat k < w * h)%Z)
     ∧ ((Z.of_nat k < w * h)%Z → Image.inside_image img (Image.x it) (Image.y it))
     ∧ ((w * h < 2 ^ 31)%Z →
        Image.progress it = Some (fdiv (of_int (Z.of_nat k)) (of_int (w * h))))
     ∧ ((2 ^ 31 ≤ w * h)%Z → Image.progress it = None))
  ∧ (∀ x y : Z, Image.inside_image img x y →
       (0 ≤ x + y * w < w * h)%Z
       ∧ Image.advanced (Z.to_nat (x + y * w)) (Image.begin img)
         = Image.mk_pixel_iterator x y (w, h)).
Proof.
  intros Hw Hh. split.
  - intros k Hk it. unfold it. rewrite advanced_position by done. simpl.
    pose proof (Z.mod_pos_bound (Z.of_nat k) w ltac:(lia)) as Hmod.
    pose proof (Z.div_mod (Z.of_nat k) w ltac:(lia)) as Hdm.
    assert (0 ≤ Z.of_nat k `div` w ≤ h)%Z as Hdiv.
    { split; [apply Z.div_pos; lia|]. apply Z.div_le_upper_bound; lia. }
    split_and!; [done|done| | | |].
    + rewrite end_spec by done. unfold Image.operator_neq. simpl.
      rewrite orb_true_iff, !negb_true_iff, !bool_decide_eq_false.
      destruct (decide (Z.of_nat k `div` w = h)%Z) as [Heq|Hne].
      * rewrite Heq in Hdm. split; [|lia]. intros [Hx|Hy]; [lia|done].
      * split; [|by right]. intros _.
        assert (w * (Z.of_nat k `div` w) ≤ w * (h - 1))%Z
          by (apply Z.mul_le_mono_nonneg_l; lia).
        lia.
    + intros Hlt. split; fold w h; [lia|]. split; [lia|].
      apply Z.div_lt_upper_bound; lia.
    + intros Harea. unfold Image.progress. simpl.
      unfold Image.int_mul. rewrite decide_True by nia. simpl.
      do 3 f_equal.
      unfold size_t_add, size_t_mul, Image.of_int_to_size_t, size_t_modulus.
      rewrite (Z.mod_small w) by lia.
      rewrite (Z.mod_small (_ * w)) by nia. rewrite Z.mod_small by nia. lia.
    + intros Harea. unfold Image.progress. simpl.
      unfold Image.int_mul. by rewrite decide_False by lia.
  - intros x y [Hx Hy]. fold w h in Hx, Hy.
    assert (0 ≤ x + y * w < w * h)%Z as Hidx by nia.
    split; [done|]. rewrite advanced_position by lia.
    rewrite Z2Nat.id by lia. f_equal.
    + symmetry. apply (Z.mod_unique_pos _ _ y); lia.
    + symmetry. apply (Z.div_unique_pos _ _ _ x); lia.
Qed.

(** Over an image without a column that has a row, the loop does not come
    to [end()]: for [2^64] increments the iterator runs along the first row,
    past every column, and at none of these positions can a pixel be set. *)
Theorem iterator_runs_away_without_columns :
  w = 0%Z → (1 ≤ h < 2 ^ 31)%Z →
  ∀ k : nat, (Z.of_nat k < 2 ^ 64)%Z →
    let it := Image.advanced k (Image.begin img) in
    it = Image.mk_pixel_iterator (Z.of_nat k) 0 (w, h)
    ∧ Image.operator_neq it (Image.end_ img) = true
    ∧ ((Z.of_nat k < 2 ^ 31)%Z →
       ∀ color, Image.pixel_iterator_setPixel it img color = None).
Proof.
  intros Hw Hh k Hk it.
  assert (it = Image.mk_pixel_iterator (Z.of_nat k) 0 (w, h)) as ->.
  { unfold it. clear it. induction k as [|k IH]; [by rewrite begin_spec|].
    unfold Image.advanced in *. rewrite Nat.iter_succ, IH by lia.
    unfold Image.operator_incr. cbn [Image.x Image.y Image.m_size fst snd].
    assert (size_t_add (Z.of_nat k) 1 = Z.of_nat k + 1)%Z as ->.
    { unfold size_t_add, size_t_modulus. apply Z.mod_small. lia. }
    assert (Image.of_int_to_size_t w = 0)%Z as ->.
    { rewrite Hw. unfold Image.of_int_to_size_t, size_t_modulus.
      by apply Z.mod_0_l. }
    rewrite decide_False by lia. f_equal. lia. }
  split_and!; [done| |].
  - rewrite end_spec by lia. unfold Image.operator_neq. simpl.
    rewrite orb_true_iff, !negb_true_iff, !bool_decide_eq_false. right. lia.
  - intros Hint color. unfold Image.pixel_iterator_setPixel, Image.setPixel.
    simpl. rewrite to_int_small by lia. unfold xmax. fold w. rewrite Hw.
    by rewrite (proj2 (Z.leb_gt (Z.of_nat k) (0 - 1))) by lia.
Qed.
End iterator.

Section write.
Context {F : Type} `{Float F} `{!LinearTosRGB F}.
Implicit Types (buf : ImageBuf F).

Lemma for_each_app {A S} (body : S → A → option S) (s : S) (l1 l2 : list A) :
  Image.for_each body s (l1 ++ l2)
  = s' ← Image.for_each body s l1; Image.for_each body s' l2.
Proof.
  revert s. induction l1 as [|a l1 IH]; intros s; simpl; [done|].
  destruct (body s a) as [s'|]; simpl; [apply IH|done].
Qed.

Lemma setpixel_four buf (x y : Z) (c0 c1 c2 c3 : F) :
  valid buf x y = true → nchannels (spec buf) = 4%Z →
  ∃ buf',
    setpixel buf x y [Some c0; Some c1; Some c2; Some c3] 1000 = Some buf'
    ∧ spec buf' = spec buf
    ∧ localpixels buf' x y 0 = c0 ∧ localpixels buf' x y 1 = c1
    ∧ localpixels buf' x y 2 = c2 ∧ localpixels buf' x y 3 = c3
    ∧ (∀ x' y' c', ¬ (x' = x ∧ y' = y ∧ (0 ≤ c' < 4)%Z) →
         localpixels buf' x' y' c' = localpixels buf x' y' c').
Proof.
  intros Hv Hn.
  destruct (setpixel_inside buf x y [c0; c1; c2; c3] [] 1000 Hv)
    as (buf' & Hset & Hspec & Hnew & Hold); [by rewrite Hn|].
  exists buf'. split_and!; [done|done|..|done].
  - apply (Hnew 0%nat). simpl. lia.
  - apply (Hnew 1%nat). simpl. lia.
  - apply (Hnew 2%nat). simpl. lia.
  - apply (Hnew 3%nat). simpl. lia.
Qed.

Section loops.
Variables (w h : Z) (out : Z → Z → Z → F).
Variable body : ImageBuf F → Z → Z → option (ImageBuf F).

Abbreviation sized buf :=
  (width (spec buf) = w ∧ height (spec buf) = h
   ∧ nchannels (spec buf) = 4%Z).

Hypothesis Hbody : ∀ buf (j i : Z),
  (0 ≤ i < w)%Z → (0 ≤ j < h)%Z → sized buf →
  ∃ buf',
    body buf j i = Some buf'
    ∧ spec buf' = spec buf
    ∧ (∀ c, (0 ≤ c < 4)%Z →
         localpixels buf' i (h - 1 - j) c = out i (h - 1 - j) c)
    ∧ (∀ x y c, ¬ (x = i ∧ y = (h - 1 - j)%Z ∧ (0 ≤ c < 4)%Z) →
         localpixels buf' x y c = localpixels buf x y c).

(** The inner loop over the first [n] columns stores row [j] of the source
    in these columns of row [h - 1 - j]. *)
Lemma columns_loop (j : Z) (n : nat) buf :
  (0 ≤ j < h)%Z → (Z.of_nat n ≤ Z.max 0 w)%Z → sized buf →
  ∃ buf',
    Image.for_each (λ buf i, body buf j i) buf (seqZ 0 (Z.of_nat n))
    = Some buf'
    ∧ spec buf' = spec buf
    ∧ (∀ x c, (0 ≤ x < Z.of_nat n)%Z → (0 ≤ c < 4)%Z →
         localpixels buf' x (h - 1 - j) c = out x (h - 1 - j) c)
    ∧ (∀ x y c,
         ¬ ((0 ≤ x < Z.of_nat n)%Z ∧ y = (h - 1 - j)%Z ∧ (0 ≤ c < 4)%Z) →
         localpixels buf' x y c = localpixels buf x y c).
Proof.
  intros Hj. induction n as [|n IH]; intros Hn Hsized.
  { exists buf. split_and!; [done|done| |done]. lia. }
  destruct IH as (buf1 & Hloop & Hspec1 & Hnew1 & Hold1); [lia|done|].
  destruct (Hbody buf1 j (Z.of_nat n)) as (buf2 & Hb & Hspec2 & Hnew2 & Hold2);
    [lia|done|by rewrite Hspec1|].
  exists buf2. split_and!.
  - rewrite seqZ_S, Z.add_0_l, for_each_app, Hloop. simpl. by rewrite Hb.
  - by rewrite Hspec2.
  - intros x c Hx Hc. destruct (decide (x = Z.of_nat n)) as [->|Hne].
    + by apply Hnew2.
    + rewrite Hold2 by lia. apply Hnew1; lia.
  - intros x y c Hout. rewrite Hold2 by lia. apply Hold1. lia.
Qed.

(** The outer loop over the first [n] rows of the source stores them in the
    last [n] rows, the first row last. *)
Lemma rows_loop (n : nat) buf :
  (Z.of_nat n ≤ Z.max 0 h)%Z → sized buf →
  ∃ buf',
    Image.for_each
      (λ buf j,
         Image.for_each (λ buf i, body buf j i) buf (seqZ 0 (xmax buf + 1)))
      buf (seqZ 0 (Z.of_nat n))
    = Some buf'
    ∧ spec buf' = spec buf
    ∧ (∀ x j c,
         (0 ≤ x < w)%Z → (0 ≤ j < Z.of_nat n)%Z → (0 ≤ c < 4)%Z →
         localpixels buf' x (h - 1 - j) c = out x (h - 1 - j) c)
    ∧ (∀ x y c,
         ¬ ((0 ≤ x < w)%Z ∧ (h - Z.of_nat n ≤ y ≤ h - 1)%Z
            ∧ (0 ≤ c < 4)%Z) →
         localpixels buf' x y c = localpixels buf x y c).
Proof.
  induction n as [|n IH]; intros Hn Hsized.
  { exists buf. split_and!; [done|done| |done]. lia. }
  destruct IH as (buf1 & Hloop & Hspec1 & Hnew1 & Hold1); [lia|done|].
  assert (seqZ 0 (xmax buf1 + 1) = seqZ 0 (Z.of_nat (Z.to_nat w))) as Hcols.
  { unfold xmax. rewrite Hspec1. destruct Hsized as (-> & _).
    unfold seqZ. rewrite Nat2Z.id. do 2 f_equal. lia. }
  destruct (columns_loop (Z.of_nat n) (Z.to_nat w) buf1)
    as (buf2 & Hb & Hspec2 & Hnew2 & Hold2); [lia|lia|by rewrite Hspec1|].
  exists buf2. split_and!.
  - rewrite seqZ_S, Z.add_0_l, for_each_app, Hloop. simpl.
    by rewrite Hcols, Hb.
  - by rewrite Hspec2.
  - intros x j c Hx Hj Hc. destruct (decide (j = Z.of_nat n)) as [->|Hne].
    + apply Hnew2; lia.
    + rewrite Hold2 by lia. apply Hnew1; lia.
  - intros x y c Hout. rewrite Hold2 by lia. apply Hold1. lia.
Qed.
End loops.

Section bodies.
Variables (m : ImageBuf F).

Let w := width (spec m).
Let h := height (spec m).

Hypothesis Hm : nchannels (spec m) = 4%Z.

Lemma source_pixel (i j : Z) :
  (0 ≤ i < w)%Z → (0 ≤ j < h)%Z →
  getpixel m i j (uninitialized 4) 4
  = [Some (localpixels m i j 0); Some (localpixels m i j 1);
     Some (localpixels m i j 2); Some (localpixels m i j 3)].
Proof.
  intros Hi Hj. rewrite getpixel_4 by done. unfold channel.
  by rewrite (proj2 (valid_true m i j)).
Qed.

Lemma four_channels (c : Z) :
  (0 ≤ c < 4)%Z → c = 0%Z ∨ c = 1%Z ∨ c = 2%Z ∨ c = 3%Z.
Proof. lia. Qed.

Lemma write_pixel_exr_spec buf (j i : Z) :
  (0 ≤ i < w)%Z → (0 ≤ j < h)%Z →
  width (spec buf) = w ∧ height (spec buf) = h ∧ nchannels (spec buf) = 4%Z →
  ∃ buf',
    Image.write_pixel_exr m buf (h - 1) j i = Some buf'
    ∧ spec buf' = spec buf
    ∧ (∀ c, (0 ≤ c < 4)%Z →
         localpixels buf' i (h - 1 - j) c
         = localpixels m i (h - 1 - (h - 1 - j)) c)
    ∧ (∀ x y c, ¬ (x = i ∧ y = (h - 1 - j)%Z ∧ (0 ≤ c < 4)%Z) →
         localpixels buf' x y c = localpixels buf x y c).
Proof.
  intros Hi Hj (Hbw & Hbh & Hbn). unfold Image.write_pixel_exr.
  rewrite source_pixel by done.
  destruct (setpixel_four buf i (h - 1 - j)
              (localpixels m i j 0) (localpixels m i j 1)
              (localpixels m i j 2) (localpixels m i j 3))
    as (buf' & Hset & Hspec & H0 & H1 & H2 & H3 & Hold);
    [apply valid_true; lia|done|].
  exists buf'. split_and!; [done|done| |done].
  intros c Hc. replace (h - 1 - (h - 1 - j))%Z with j by lia.
  destruct (four_channels c Hc) as [->|[->|[->| ->]]]; done.
Qed.

Lemma write_pixel_sRGB_spec buf (j i : Z) :
  (0 ≤ i < w)%Z → (0 ≤ j < h)%Z →
  width (spec buf) = w ∧ height (spec buf) = h ∧ nchannels (spec buf) = 4%Z →
  ∃ buf',
    Image.write_pixel_sRGB m buf j i = Some buf'
    ∧ spec buf' = spec buf
    ∧ (∀ c, (0 ≤ c < 4)%Z →
         localpixels buf' i (h - 1 - j) c
         = if decide (c < 3)%Z
           then linear_to_sRGB (localpixels m i (h - 1 - (h - 1 - j)) c)
           else f1)
    ∧ (∀ x y c, ¬ (x = i ∧ y = (h - 1 - j)%Z ∧ (0 ≤ c < 4)%Z) →
         localpixels buf' x y c = localpixels buf x y c).
Proof.
  intros Hi Hj (Hbw & Hbh & Hbn). unfold Image.write_pixel_sRGB.
  rewrite source_pixel by done. cbn [Image.for_each seq mbind option_bind
    mjoin option_join lookup list_lookup list_insert insert].
  unfold ymax. rewrite Hbh.
  destruct (setpixel_four buf i (h - 1 - j)
              (linear_to_sRGB (localpixels m i j 0))
              (linear_to_sRGB (localpixels m i j 1))
              (linear_to_sRGB (localpixels m i j 2)) f1)
    as (buf' & Hset & Hspec & H0 & H1 & H2 & H3 & Hold);
    [apply valid_true; lia|done|].
  exists buf'. split_and!; [done|done| |done].
  intros c Hc. replace (h - 1 - (h - 1 - j))%Z with j by lia.
  destruct (four_channels c Hc) as [->|[->|[->| ->]]]; done.
Qed.
End bodies.

Lemma substr_extension (filename : string) :
  (3 ≤ String.length filename)%nat →
  (Z.of_nat (String.length filename) < 2 ^ 64)%Z →
  Image.substr filename
    (size_t_sub (Z.of_nat (String.length filename)) 3)
    (Z.of_nat (String.length filename))
  = Some (String.substring (String.length filename - 3) 3 filename).
Proof.
  intros Hlen Hsize. unfold Image.substr, size_t_sub, size_t_modulus.
  rewrite Z.mod_small by lia.
  rewrite Z.gtb_ltb.
  rewrite (proj2 (Z.ltb_ge (Z.of_nat (String.length filename))
                           (Z.of_nat (String.length filename) - 3))) by lia.
  do 2 f_equal; lia.
Qed.

(** [write] takes the extension of the file from the last three characters
    of its name.  On a name of fewer characters [substr] throws
    [std::out_of_range]: the call logs its first line and writes no file,
    whatever the image. *)
Theorem write_needs_three_characters
    (img : Image.Image F) (filename : string) (memory : Z → Z → Z → F) :
  (String.length filename < 3)%nat →
  Image.write img filename memory
  = (["Writing image: " +:+ filename], Image.out_of_range).
Proof.
  intros Hlen. unfold Image.write, Image.substr.
  destruct (String.length filename) as [|[|[|n]]] eqn:Hn; [done..|lia].
Qed.

(** [write] on a name of three characters or more writes one file under
    that name and logs two lines.  The image that is written has the size of
    the image and its rows in the opposite order: row [j] of the image is
    row [height - 1 - j] of the file.  When the name ends in "exr" the four
    channels of every pixel are written as they are; otherwise the color
    channels go through [linear_to_sRGB], alpha is written as 1 and the file
    is marked as sRGB.  What the buffer held before does not show. *)
Theorem write_flips_the_rows
    (img : Image.Image F) (filename : string) (memory : Z → Z → Z → F) :
  Image.rgba img →
  (3 ≤ String.length filename)%nat →
  (Z.of_nat (String.length filename) < 2 ^ 64)%Z →
  let m := Image.m_buf img in
  let h := height (spec m) in
  let extension :=
    String.substring (String.length filename - 3) 3 filename in
  ∃ buf,
    Image.write img filename memory
    = (["Writing image: " +:+ filename; "  Done."],
       Image.written filename buf)
    ∧ spec buf
      = (if decide (extension = "exr") then spec m
         else attribute "oiio:ColorSpace" "sRGB" (spec m))
    ∧ ∀ i j c : Z,
        (0 ≤ i < width (spec m))%Z → (0 ≤ j < h)%Z → (0 ≤ c < 4)%Z →
        localpixels buf i (h - 1 - j) c
        = if decide (extension = "exr") then localpixels m i j c
          else if decide (c < 3)%Z then linear_to_sRGB (localpixels m i j c)
          else f1.
Proof.
  intros (Hn & Hw & Hh) Hlen Hsize m h extension.
  unfold Image.write. rewrite substr_extension by done. fold extension.
  assert (∀ buf, height (spec buf) = h →
            seqZ 0 (ymax buf + 1) = seqZ 0 (Z.of_nat (Z.to_nat h))) as Hrows.
  { intros buf Hbh. unfold ymax. rewrite Hbh. unfold seqZ.
    rewrite Nat2Z.id. do 2 f_equal. lia. }
  destruct (decide (extension = "exr")) as [Hexr|Hother].
  - rewrite decide_False by (by intros ?). cbv zeta.
    rewrite Hrows by done.
    destruct (rows_loop (width (spec m)) h
                (λ x y c, localpixels m x (h - 1 - y) c)
                (λ buf j i, Image.write_pixel_exr m buf (h - 1) j i)
                (λ buf j i, write_pixel_exr_spec m Hn buf j i)
                (Z.to_nat h) (reset (spec m) memory))
      as (buf & Hloop & Hspec & Hnew & _); [lia|done|].
    exists buf. split_and!.
    + match goal with
      | |- context [Image.for_each ?f ?b ?l] =>
          assert (Image.for_each f b l = Some buf) as -> by exact Hloop
      end.
      done.
    + done.
    + intros i j c Hi Hj Hc. rewrite Hnew by lia. f_equal. lia.
  - rewrite decide_True by done. cbv zeta.
    rewrite Hrows by done.
    destruct (rows_loop (width (spec m)) h
                (λ x y c, if decide (c < 3)%Z
                          then linear_to_sRGB (localpixels m x (h - 1 - y) c)
                          else f1)
                (λ buf j i, Image.write_pixel_sRGB m buf j i)
                (λ buf j i, write_pixel_sRGB_spec m Hn buf j i)
                (Z.to_nat h)
                (reset (attribute "oiio:ColorSpace" "sRGB" (spec m)) memory))
      as (buf & Hloop & Hspec & Hnew & _); [lia|done|].
    exists buf. split_and!.
    + match goal with
      | |- context [Image.for_each ?f ?b ?l] =>
          assert (Image.for_each f b l = Some buf) as -> by exact Hloop
      end.
      done.
    + done.
    + intros i j c Hi Hj Hc. rewrite Hnew by lia.
      destruct (decide (c < 3)%Z); [|done]. do 2 f_equal. lia.
Qed.
End write.
End ImageProperties.

Module ImageExamples.
Import Render OpenImageIO ImageProperties Exact Inputs.OnRationals.
#[local] Existing Instance no_transfer.

Ltac evaluate := repeat split; by vm_compute.

Lemma setPixel_then_pixel_witness :
  ∃ img', Image.setPixel two_by_two 1 1 (rgb 1 2 3) = Some img'
          ∧ Image.pixel img' 1 1 = Some (rgb 1 2 3).
Proof.
  destruct (setPixel_then_pixel two_by_two 1 1 (rgb 1 2 3))
    as (img' & Hset & _ & _ & Hpixel & _); [evaluate..|].
  exists img'. split; [exact Hset|exact Hpixel].
Defined.

Lemma setPixelAlpha_then_pixelAlpha_witness :
  ∃ img', Image.setPixelAlpha two_by_two 1 0 1%Qc = Some img'
          ∧ Image.pixelAlpha img' 1 0 = Some 1%Qc.
Proof.
  destruct (setPixelAlpha_then_pixelAlpha two_by_two 1 0 1%Qc)
    as (img' & Hset & _ & _ & Halpha & _); [evaluate..|].
  exists img'. split; [exact Hset|exact Halpha].
Defined.

Lemma outside_the_image_witness :
  Image.setPixel two_by_two 2 0 (rgb 1 2 3) = None
  ∧ Image.setPixelAlpha two_by_two 2 0 1%Qc = Some two_by_two
  ∧ Image.pixel two_by_two 2 0 = Some (Imath.mkV3f 0%Qc 0%Qc 0%Qc)
  ∧ Image.pixelAlpha two_by_two 2 0 = Some 0%Qc.
Proof.
  destruct (outside_the_image two_by_two 2 0 (rgb 1 2 3) 1%Qc)
    as (Hset & Halpha & Hpixel & HpixelAlpha);
    [evaluate..|left; by vm_compute|].
  split_and!; [exact Hset|exact Halpha|exact Hpixel|exact HpixelAlpha].
Defined.

Lemma iterator_visits_every_pixel_witness :
  Image.x (Image.advanced 3 (Image.begin two_by_two)) = 1%Z
  ∧ Image.y (Image.advanced 3 (Image.begin two_by_two)) = 1%Z.
Proof.
  destruct (iterator_visits_every_pixel two_by_two) as [Hvisit _];
    [evaluate..|].
  destruct (Hvisit 3%nat) as (Hx & Hy & _); [by vm_compute|].
  split; [exact Hx|exact Hy].
Defined.

Lemma iterator_runs_away_without_columns_witness :
  Image.operator_neq (Image.advanced 5 (Image.begin no_columns))
                     (Image.end_ no_columns)
  = true.
Proof.
  destruct (iterator_runs_away_without_columns no_columns) with (k := 5%nat)
    as (_ & Hneq & _); [evaluate..|].
  exact Hneq.
Defined.

Lemma write_needs_three_characters_witness :
  Image.write two_by_two "ab" zeros
  = (["Writing image: ab"], Image.out_of_range).
Proof.
  apply (write_needs_three_characters two_by_two "ab" zeros). simpl. lia.
Defined.

Lemma write_flips_the_rows_witness :
  ∃ buf,
    Image.write two_by_two "a.exr" zeros
    = (["Writing image: a.exr"; "  Done."], Image.written "a.exr" buf).
Proof.
  destruct (write_flips_the_rows two_by_two "a.exr" zeros)
    as (buf & Hwrite & _); [evaluate|simpl; lia|by vm_compute|].
  exists buf. exact Hwrite.
Defined.
End ImageExamples.
